(** * Key-binding resolution (rts/Game/UI/KeyBindings.cpp)

    A shallow embedding of the binding store, of its mutators and of the
    resolution engine of [CKeyBindings], with the properties of the
    written specification proved about it.

    What the sources do not contain (KeySet.h, Action.h, KeyCodes.h) is
    kept abstract in the class [KeyModel]: the chord type with its
    accessors, the chord parser, the chain matcher and the action
    parser.  Logging and the debug flag take no part in any property
    below and are left out of the state; the hotkey reverse index is
    computed from the state by [BuildHotkeyMap]. *)

From Stdlib Require Import ZArith Ascii String Lia.
From stdpp Require Import base option list sorting gmap strings.

Local Open Scope Z_scope.

(** ** Actions (Action.h, fields as KeyBindings.cpp reads them) *)

Record Action := mkAction {
  command : string;
  extra   : string;
  line    : string;
  rawline : string
}.

(** C strings are handled character by character in the chain parser. *)
Abbreviation cstring := (list ascii).

Definition comma : ascii := ","%char.

(** ** What the sources leave out

    [CKeySet] (KeySet.h) is the chord type; its equality is the one the
    two keyspace maps use for their keys.  [KeySyms] stands for the
    key-symbol tables [keyCodes] and [scanCodes] (KeyCodes.h,
    ScanCodes.h).  The members are named as KeyBindings.cpp calls them:
    [fit kc needle] is [kc.fit(needle)] of CKeyChain, the live chain
    first and the chain of the binding second; [Parse] is
    [CKeySet::Parse], which reads the symbol tables; [ResetSyms] is
    their [Reset()]; [parseAction] is the constructor [Action(line)]. *)
Class KeyModel (CKeySet KeySyms : Type) `{Countable CKeySet} := {
  Key         : CKeySet → Z;
  IsKeyCode   : CKeySet → bool;
  AnyMod      : CKeySet → bool;
  SetAnyBit   : CKeySet → CKeySet;
  fit         : list CKeySet → list CKeySet → bool;
  ResetSyms   : KeySyms → KeySyms;
  Parse       : KeySyms → cstring → option CKeySet;
  parseAction : string → Action
}.

Section KeyBindings.

Context `{KeyModel CKeySet KeySyms}.

(** [CKeyChain] is a vector of chords. *)
Local Abbreviation CKeyChain := (list CKeySet).

Record KeyBinding := mkKeyBinding {
  action       : Action;
  keyChain     : CKeyChain;
  boundWith    : string;
  bindingIndex : Z
}.

Local Abbreviation KeyBindingList := (list KeyBinding).

(** [kb.keyChain.back().AnyMod()].  [back()] of an empty chain is
    undefined in C++; no stored binding has one (see [store_wf]) and
    the value chosen here for it is never used. *)
Definition triggerAnyMod (kb : KeyBinding) : bool :=
  from_option AnyMod false (last (keyChain kb)).

Definition compareActionByTriggerOrder (a b : KeyBinding) : bool :=
  let selfAnyMod := triggerAnyMod a in
  let bindingAnyMod := triggerAnyMod b in
  if Bool.eqb selfAnyMod bindingAnyMod
  then bindingIndex a <? bindingIndex b
  else bindingAnyMod.

Definition compareActionByBindingOrder (a b : KeyBinding) : bool :=
  bindingIndex a <? bindingIndex b.

(** ** FilterByKeychain *)

Definition FilterByKeychain (input : KeyBindingList) (kc : CKeyChain)
    (out : KeyBindingList) : KeyBindingList :=
  fold_left (λ out action,
               if fit kc (keyChain action) then out ++ [action] else out)
            input out.

(** ** MergeActionListsByTrigger *)

Definition sameLine (a b : KeyBinding) : Prop :=
  line (action a) = line (action b).

#[global] Instance sameLine_dec (a b : KeyBinding) : Decision (sameLine a b) :=
  decide (line (action a) = line (action b)).

(** The inner loop [for (a = aBeginId; a < aEndId; ++a)], entered at
    [a] with [steps] iterations left; it yields [toAdd], [out] and
    [aEndId] as they are after the loop. *)
Fixpoint scanDuplicate (aB : KeyBinding) (out : KeyBindingList)
    (a aEndId : nat) (steps : nat) : bool * KeyBindingList * nat :=
  match steps with
  | O => (true, out, aEndId)
  | S steps' =>
      match out !! a with
      | None => (true, out, aEndId)
      | Some oa =>
          if decide (sameLine aB oa) then
            if bindingIndex oa <=? bindingIndex aB
            then (false, out, aEndId)
            else (true, delete a out, pred aEndId)
          else scanDuplicate aB out (S a) aEndId steps'
      end
  end.

(** One iteration of [for (const auto& aB : keyBindingListB)]. *)
Definition mergeStep (aBeginId : nat) (st : KeyBindingList * nat)
    (aB : KeyBinding) : KeyBindingList * nat :=
  let '(toAdd, out, aEndId) :=
    scanDuplicate aB st.1 aBeginId st.2 (st.2 - aBeginId) in
  (if toAdd then out ++ [aB] else out, aEndId).

(** [std::merge] over two ranges: an element of the second range is
    taken only when it is strictly before the head of the first one. *)
Fixpoint std_merge (comp : KeyBinding → KeyBinding → bool)
    (l1 : KeyBindingList) : KeyBindingList → KeyBindingList :=
  fix merge_aux (l2 : KeyBindingList) : KeyBindingList :=
    match l1, l2 with
    | [], _ => l2
    | _, [] => l1
    | x :: l1', y :: l2' =>
        if comp y x then y :: merge_aux l2'
        else x :: std_merge comp l1' (y :: l2')
    end.

(** [std::inplace_merge(begin + first, begin + middle, end, comp)].  The
    standard fixes the result when both ranges are sorted by [comp];
    otherwise the call is undefined, and the theorems below only use
    it on sorted ranges. *)
Definition inplace_merge (first middle : nat)
    (comp : KeyBinding → KeyBinding → bool) (out : KeyBindingList)
    : KeyBindingList :=
  take first out ++
  std_merge comp (take (middle - first) (drop first out)) (drop middle out).

Definition MergeActionListsByTrigger (keyBindingListA keyBindingListB : KeyBindingList)
    (out : KeyBindingList) : KeyBindingList :=
  match keyBindingListA with
  | [] => out ++ keyBindingListB
  | _ =>
      let aBeginId := length out in
      let out := out ++ keyBindingListA in
      let aEndId := length out in
      match keyBindingListB with
      | [] => out
      | _ =>
          let '(out, aEndId) :=
            fold_left (mergeStep aBeginId) keyBindingListB (out, aEndId) in
          inplace_merge aBeginId aEndId compareActionByTriggerOrder out
      end
  end.

(** ** The state of CKeyBindings *)

(** [bindingsCount] and the [bindingIndex] of a binding are [int]s, of
    32 bits on the targets of the engine.  [++bindingsCount] at
    [INT_MAX] overflows: the language leaves that undefined and the
    builds carry it out as two's complement wrap-around, which is what
    [to_int] writes out. *)
Definition INT_MIN : Z := -2147483648.
Definition INT_MAX : Z := 2147483647.

Definition to_int (z : Z) : Z := (z - INT_MIN) mod 4294967296 + INT_MIN.

(** [bindingsCount] is only reset by [unbindall]. *)
Record State := mkState {
  codeBindings     : gmap CKeySet KeyBindingList;
  scanBindings     : gmap CKeySet KeyBindingList;
  bindingsCount    : Z;
  statefulCommands : gset string;
  keySyms          : KeySyms
}.

Definition setBindings (isKeyCode : bool) (m : gmap CKeySet KeyBindingList)
    (count : Z) (st : State) : State :=
  if isKeyCode
  then mkState m (scanBindings st) count (statefulCommands st) (keySyms st)
  else mkState (codeBindings st) m count (statefulCommands st) (keySyms st).

Definition getBindings (isKeyCode : bool) (st : State)
    : gmap CKeySet KeyBindingList :=
  if isKeyCode then codeBindings st else scanBindings st.

(** The twelve [statefulCommands.insert] calls of [Init]. *)
Definition Init_statefulCommands : gset string :=
  list_to_set
    [ "drawinmap"; "moveforward"; "moveback"; "moveright"; "moveleft";
      "moveup"; "movedown"; "moveslow"; "movefast"; "movetilt";
      "movereset"; "moverotate" ]%string.

Definition Init (st : State) : State :=
  mkState (codeBindings st) (scanBindings st) (bindingsCount st)
          (statefulCommands st ∪ Init_statefulCommands) (keySyms st).

Definition Kill (st : State) : State :=
  mkState ∅ ∅ (bindingsCount st) ∅ (keySyms st).

(** ** GetKeyBindingList, one definition per overload *)

(** [GetKeyBindingList(const CKeySet& ks, bool forceAny)] *)
Definition GetKeyBindingList_ks (st : State) (ks : CKeySet) (forceAny : bool)
    : KeyBindingList :=
  if Key ks <? 0 then []
  else
    let bindings := if IsKeyCode ks then codeBindings st else scanBindings st in
    let toUse := if forceAny then SetAnyBit ks else ks in
    match bindings !! toUse with
    | Some l => l
    | None => []
    end.

(** [GetKeyBindingList(const CKeyChain& kc)] *)
Definition GetKeyBindingList_chain (st : State) (kc : CKeyChain)
    : KeyBindingList :=
  match last kc with
  | None => []
  | Some back =>
      let out := FilterByKeychain (GetKeyBindingList_ks st back false) kc [] in
      if negb (AnyMod back)
      then FilterByKeychain (GetKeyBindingList_ks st back true) kc out
      else out
  end.

(** [GetKeyBindingList(const CKeyChain& kc, const CKeyChain& sc)].  It
    calls [back()] on both chains without a test; on an empty chain that
    is undefined, which is [None] here. *)
Definition GetKeyBindingList_chains (st : State) (kc sc : CKeyChain)
    : option KeyBindingList :=
  match last kc, last sc with
  | Some kback, Some sback =>
      let merged := [] in
      let kList :=
        if negb (AnyMod kback)
        then FilterByKeychain (GetKeyBindingList_ks st kback false) kc [] else [] in
      let sList :=
        if negb (AnyMod sback)
        then FilterByKeychain (GetKeyBindingList_ks st sback false) sc [] else [] in
      let merged := MergeActionListsByTrigger kList sList merged in
      let kList := FilterByKeychain (GetKeyBindingList_ks st kback true) kc [] in
      let sList := FilterByKeychain (GetKeyBindingList_ks st sback true) sc [] in
      Some (MergeActionListsByTrigger kList sList merged)
  | _, _ => None
  end.

(** ** The chain parser *)

(** [ss.getline(kcstr, 256, ',')] on the unread input [s], with room for
    [n] more characters: the token, the input left, and [ss.good()]
    afterwards.  The tests come in the order of the standard: end of
    input (eofbit), then the delimiter (extracted, not stored), then a
    full buffer (failbit). *)
Fixpoint getline (n : nat) (s : cstring) {struct s}
    : cstring * cstring * bool :=
  match s with
  | [] => ([], [], false)
  | c :: s' =>
      if decide (c = comma) then ([], s', true)
      else match n with
           | O => ([], s, false)
           | S n' =>
               let '(tok, rest, good) := getline n' s' in (c :: tok, rest, good)
           end
  end.

(** [std::string kstr(kcstr)]: the characters of the buffer up to its
    first NUL. *)
Definition NUL : ascii := Ascii.zero.

Fixpoint c_str (kcstr : cstring) : cstring :=
  match kcstr with
  | [] => []
  | c :: kcstr' => if decide (c = NUL) then [] else c :: c_str kcstr'
  end.

(** The loop [while (ss.good())] of [ParseSingleChain].  Every round
    that goes on has extracted a delimiter, so [fuel] above the length
    of the input is never used up ([ParseSingleChain_loop_fuel]). *)
Fixpoint ParseSingleChain_loop (fuel : nat) (syms : KeySyms) (s : cstring)
    (kc : CKeyChain) : option CKeyChain :=
  match fuel with
  | O => None
  | S fuel' =>
      let '(kcstr, rest, good) := getline 255 s in
      let kstr := c_str kcstr in
      match Parse syms kstr with
      | None => None
      | Some ks =>
          let kc := kc ++ [ks] in
          if good then ParseSingleChain_loop fuel' syms rest kc else Some kc
      end
  end.

(** [Some kc] is [true] with the chain left in [*kc]; [None] is [false]. *)
Definition ParseSingleChain (syms : KeySyms) (keystr : cstring)
    : option CKeyChain :=
  ParseSingleChain_loop (S (length keystr)) syms keystr [].

(** [std::string::npos] is [None]. *)
Definition npos : option nat := None.

(** The last index below [n] that holds a comma. *)
Fixpoint rfind_below (s : cstring) (n : nat) : option nat :=
  match n with
  | O => None
  | S i => if decide (s !! i = Some comma) then Some i else rfind_below s i
  end.

(** [keystr.rfind(',', pos)] *)
Definition rfind (s : cstring) (pos : option nat) : option nat :=
  rfind_below s
    match pos with
    | None => length s
    | Some p => Nat.min (S p) (length s)
    end.

(** [IntToString(keyCodes.GetCode(","), "%#x")]: the comma has key code
    0x2c, as the comment in [ParseKeyChain] has it. *)
Definition commaHex : cstring := list_ascii_of_string "0x2c".

(** [keystr.replace(cpos, 1, repl)] *)
Definition replace1 (keystr : cstring) (cpos : nat) (repl : cstring) : cstring :=
  take cpos keystr ++ repl ++ drop (S cpos) keystr.

(** [ParseKeyChain(keystr, kc, pos)].  The recursion goes down on the
    number of commas at or before [pos]; [fuel] bounds its depth and is
    never used up from [ParseKeyChain] ([ParseKeyChain_first_parsable]). *)
Fixpoint ParseKeyChain_rec (fuel : nat) (syms : KeySyms) (keystr : cstring)
    (pos : option nat) : option CKeyChain :=
  match fuel with
  | O => None
  | S fuel' =>
      let cpos := rfind keystr pos in
      match ParseSingleChain syms keystr with
      | Some kc => Some kc
      | None =>
          match cpos with
          | None => None
          | Some cpos =>
              let viaNext :=
                match cpos with
                | O => None
                | S nextpos => ParseKeyChain_rec fuel' syms keystr (Some nextpos)
                end in
              match viaNext with
              | Some kc => Some kc
              | None =>
                  ParseKeyChain_rec fuel' syms (replace1 keystr cpos commaHex)
                                    (Some cpos)
              end
          end
      end
  end.

Definition ParseKeyChain (syms : KeySyms) (keystr : cstring) : option CKeyChain :=
  ParseKeyChain_rec (S (length keystr)) syms keystr npos.

(** ** The mutators *)

Definition setIndex (kb : KeyBinding) (i : Z) : KeyBinding :=
  mkKeyBinding (action kb) (keyChain kb) (boundWith kb) i.

(** [AddActionToKeyMap(bindings, keyBinding)], with [bindingsCount]
    passed through and [++bindingsCount] on the [int].
    [keyChain.back()] of an empty chain is undefined; [Bind] never
    passes one, and nothing is done for it here. *)
Definition AddActionToKeyMap (bindings : gmap CKeySet KeyBindingList)
    (keyBinding : KeyBinding) (bindingsCount : Z)
    : gmap CKeySet KeyBindingList * Z :=
  match last (keyChain keyBinding) with
  | None => (bindings, bindingsCount)
  | Some ks =>
      match bindings !! ks with
      | None =>
          let bindingsCount := to_int (bindingsCount + 1) in
          (<[ks := [setIndex keyBinding bindingsCount]]> bindings, bindingsCount)
      | Some keyBindingList =>
          match list_find (sameLine keyBinding) keyBindingList with
          | None =>
              let bindingsCount := to_int (bindingsCount + 1) in
              (<[ks := keyBindingList ++ [setIndex keyBinding bindingsCount]]> bindings,
               bindingsCount)
          | Some _ => (bindings, bindingsCount)
          end
      end
  end.

(** [ks.SetAnyBit()] on [keyBinding.keyChain.back()], through the
    reference. *)
Definition setBack (kc : CKeyChain) (ks : CKeySet) : CKeyChain :=
  removelast kc ++ [ks].

Definition Bind (st : State) (keystr line : string) : bool * State :=
  let act := parseAction line in
  if decide (command act = EmptyString) then (false, st)
  else
    match ParseKeyChain (keySyms st) (list_ascii_of_string keystr) with
    | None => (false, st)
    | Some kc =>
        match last kc with
        | None => (false, st)
        | Some ks =>
            let ks :=
              if decide (command act ∈ statefulCommands st)
              then SetAnyBit ks else ks in
            let keyBinding := mkKeyBinding act (setBack kc ks) keystr 0 in
            let '(bindings, count) :=
              AddActionToKeyMap (getBindings (IsKeyCode ks) st) keyBinding
                                (bindingsCount st) in
            (true, setBindings (IsKeyCode ks) bindings count st)
        end
    end.

(** [RemoveCommandFromList(keyBindingList, command)]: the flag and the
    list as the erase loop leaves it. *)
Fixpoint RemoveCommandFromList (keyBindingList : KeyBindingList)
    (cmd : string) : bool * KeyBindingList :=
  match keyBindingList with
  | [] => (false, [])
  | kb :: rest =>
      let '(success, rest') := RemoveCommandFromList rest cmd in
      if decide (command (action kb) = cmd)
      then (true, rest')
      else (success, kb :: rest')
  end.

(** The list after the erase loop, written back; an empty one is erased. *)
Definition putList (ks : CKeySet) (l : KeyBindingList)
    (bindings : gmap CKeySet KeyBindingList) : gmap CKeySet KeyBindingList :=
  match l with
  | [] => delete ks bindings
  | _ => <[ks := l]> bindings
  end.

Definition UnBind (st : State) (keystr cmd : string) : bool * State :=
  match Parse (keySyms st) (list_ascii_of_string keystr) with
  | None => (false, st)
  | Some ks =>
      let bindings := getBindings (IsKeyCode ks) st in
      match bindings !! ks with
      | None => (false, st)
      | Some keyBindingList =>
          let '(success, keyBindingList) :=
            RemoveCommandFromList keyBindingList cmd in
          (success,
           setBindings (IsKeyCode ks) (putList ks keyBindingList bindings)
                       (bindingsCount st) st)
      end
  end.

Definition UnBindKeyset (st : State) (keystr : string) : bool * State :=
  match Parse (keySyms st) (list_ascii_of_string keystr) with
  | None => (false, st)
  | Some ks =>
      let bindings := getBindings (IsKeyCode ks) st in
      match bindings !! ks with
      | None => (false, st)
      | Some _ =>
          (true, setBindings (IsKeyCode ks) (delete ks bindings)
                             (bindingsCount st) st)
      end
  end.

(** [RemoveActionFromKeyMap(command, bindings)]: the loop over the
    entries of the map, each list filtered in place and erased when it
    is left empty. *)
Definition RemoveActionFromKeyMap (cmd : string)
    (bindings : gmap CKeySet KeyBindingList)
    : bool * gmap CKeySet KeyBindingList :=
  map_fold (λ ks keyBindingList (acc : bool * gmap CKeySet KeyBindingList),
              let '(removed, keyBindingList) :=
                RemoveCommandFromList keyBindingList cmd in
              (if removed then true else acc.1,
               putList ks keyBindingList acc.2))
           (false, bindings) bindings.

(** [a || b] of C++ does not evaluate [b] when [a] is true. *)
Definition UnBindAction (st : State) (cmd : string) : bool * State :=
  let '(found, code) := RemoveActionFromKeyMap cmd (codeBindings st) in
  let st := setBindings true code (bindingsCount st) st in
  if found then (true, st)
  else
    let '(found, scan) := RemoveActionFromKeyMap cmd (scanBindings st) in
    (found, setBindings false scan (bindingsCount st) st).

(** The branch [command == "unbindall"] of [ExecuteCommand]. *)
Definition ExecuteCommand_unbindall (st : State) : State :=
  let st := mkState ∅ ∅ 0 (statefulCommands st) (ResetSyms (keySyms st)) in
  (Bind st "enter" "chat").2.

(** ** States the program can be in *)

Inductive reachable : State → Prop :=
  | reach_empty st :
      codeBindings st = ∅ → scanBindings st = ∅ → reachable st
  | reach_Init st : reachable st → reachable (Init st)
  | reach_keysym st syms :
      reachable st →
      reachable (mkState (codeBindings st) (scanBindings st) (bindingsCount st)
                         (statefulCommands st) syms)
  | reach_Bind st keystr line :
      reachable st → reachable (Bind st keystr line).2
  | reach_UnBind st keystr cmd :
      reachable st → reachable (UnBind st keystr cmd).2
  | reach_UnBindKeyset st keystr :
      reachable st → reachable (UnBindKeyset st keystr).2
  | reach_UnBindAction st cmd :
      reachable st → reachable (UnBindAction st cmd).2
  | reach_unbindall st :
      reachable st → reachable (ExecuteCommand_unbindall st).

(** The states the program reaches while the counter has not
    overflowed: as [reachable], with every [Bind] made at a counter
    below [INT_MAX]. *)
Inductive counted : State → Prop :=
  | counted_empty st :
      codeBindings st = ∅ → scanBindings st = ∅ → counted st
  | counted_Init st : counted st → counted (Init st)
  | counted_keysym st syms :
      counted st →
      counted (mkState (codeBindings st) (scanBindings st) (bindingsCount st)
                       (statefulCommands st) syms)
  | counted_Bind st keystr line :
      counted st → INT_MIN ≤ bindingsCount st < INT_MAX →
      counted (Bind st keystr line).2
  | counted_UnBind st keystr cmd :
      counted st → counted (UnBind st keystr cmd).2
  | counted_UnBindKeyset st keystr :
      counted st → counted (UnBindKeyset st keystr).2
  | counted_UnBindAction st cmd :
      counted st → counted (UnBindAction st cmd).2
  | counted_unbindall st :
      counted st → counted (ExecuteCommand_unbindall st).

(** What every stored list satisfies whatever the counter did: each
    binding sits under its own trigger chord, and no source line occurs
    twice. *)
Definition list_lines (ks : CKeySet) (l : KeyBindingList) : Prop :=
  Forall (λ kb, last (keyChain kb) = Some ks) l ∧
  NoDup ((λ kb, line (action kb)) <$> l).

Definition store_lines (st : State) : Prop :=
  map_Forall list_lines (codeBindings st) ∧
  map_Forall list_lines (scanBindings st).

(** What every stored list satisfies while the counter has not
    overflowed: each binding sits under its own trigger chord, indices
    grow along the list and stay at or below the counter, and no source
    line occurs twice. *)
Definition list_wf (count : Z) (ks : CKeySet) (l : KeyBindingList) : Prop :=
  Forall (λ kb, last (keyChain kb) = Some ks ∧ bindingIndex kb ≤ count) l ∧
  StronglySorted (λ a b, bindingIndex a < bindingIndex b) l ∧
  NoDup ((λ kb, line (action kb)) <$> l).

Definition store_wf (st : State) : Prop :=
  map_Forall (list_wf (bindingsCount st)) (codeBindings st) ∧
  map_Forall (list_wf (bindingsCount st)) (scanBindings st).

(** ** Reinterpretations of the commas of a shortcut text *)

Definition commas (s : cstring) : nat :=
  length (filter (λ c, c = comma) s).

(** [mask] has one flag per comma of [s], from the left; a comma whose
    flag is set is written as its hex code. *)
Fixpoint reinterpret (s : cstring) (mask : list bool) : cstring :=
  match s with
  | [] => []
  | c :: s' =>
      if decide (c = comma) then
        match mask with
        | true :: mask' => commaHex ++ reinterpret s' mask'
        | false :: mask' => c :: reinterpret s' mask'
        | [] => c :: reinterpret s' []
        end
      else c :: reinterpret s' mask
  end.

(** All masks of length [n], the flag of the leftmost comma changing
    fastest. *)
Fixpoint masks (n : nat) : list (list bool) :=
  match n with
  | O => [[]]
  | S n' => ((λ m, m ++ [false]) <$> masks n') ++ ((λ m, m ++ [true]) <$> masks n')
  end.

Fixpoint first_some {A B} (f : A → option B) (l : list A) : option B :=
  match l with
  | [] => None
  | x :: l' => match f x with Some y => Some y | None => first_some f l' end
  end.

Definition literals (mask : list bool) : nat :=
  length (filter (λ b, b = true) mask).

(** A mask read as a binary number, the flag of the leftmost comma being
    the lowest digit. *)
Fixpoint maskNumber (mask : list bool) : nat :=
  match mask with
  | [] => 0
  | b :: mask' => (if b then 1 else 0) + 2 * maskNumber mask'
  end.

(** The first reinterpretation of the commas of [l] that parses, in the
    order of [masks], with [r] behind it left as it is. *)
Definition firstParsable (syms : KeySyms) (l r : cstring) : option CKeyChain :=
  first_some (λ mask, ParseSingleChain syms (reinterpret l mask ++ r))
             (masks (commas l)).

(** The preference as the specification words it: the chain returned
    comes from a reinterpretation that parses with the fewest commas
    taken as literals. *)
Definition prefersFewestLiterals (syms : KeySyms) (keystr : cstring) : Prop :=
  ∀ kc, ParseKeyChain syms keystr = Some kc →
    ∃ mask, length mask = commas keystr ∧
            ParseSingleChain syms (reinterpret keystr mask) = Some kc ∧
            ∀ mask', length mask' = commas keystr →
                     is_Some (ParseSingleChain syms (reinterpret keystr mask')) →
                     (literals mask ≤ literals mask')%nat.

(** What a chord parser does with the hex-coded comma when it reads
    the key after the modifiers to the end of the token: a token with
    the reference in it parses, whatever is behind the reference, only
    when the text in front of the reference is no chord by itself. *)
Definition hexReferenceInKey (syms : KeySyms) : Prop :=
  ∀ front behind : cstring,
    is_Some (Parse syms (front ++ commaHex ++ behind)) →
    Parse syms front = None.

(** ** What the duplicate scan of the merge keeps

    An entry of list A stays unless list B has the same source line
    under a lower index; an entry of list B is added unless list A has
    the same source line under an index that is not higher. *)
Definition survivesA (B : KeyBindingList) (a : KeyBinding) : Prop :=
  ¬ Exists (λ b, sameLine b a ∧ bindingIndex b < bindingIndex a) B.

Definition survivesB (A : KeyBindingList) (b : KeyBinding) : Prop :=
  ¬ Exists (λ a, sameLine b a ∧ bindingIndex a ≤ bindingIndex b) A.

#[global] Instance survivesA_dec B a : Decision (survivesA B a).
Proof. unfold survivesA. apply _. Defined.

#[global] Instance survivesB_dec A b : Decision (survivesB A b).
Proof. unfold survivesB. apply _. Defined.

Definition lineOf (kb : KeyBinding) : string := line (action kb).

(** A candidate list as the resolution hands it to the merge: one
    wildcard status, indices growing, no source line twice. *)
Definition candidates (w : bool) (l : KeyBindingList) : Prop :=
  Forall (λ x, triggerAnyMod x = w) l ∧
  StronglySorted (λ x y, bindingIndex x < bindingIndex y) l ∧
  NoDup (lineOf <$> l).

(** ** What the erase loops leave *)

Definition hasCommand (cmd : string) (kb : KeyBinding) : Prop :=
  command (action kb) = cmd.

#[global] Instance hasCommand_dec cmd kb : Decision (hasCommand cmd kb).
Proof. unfold hasCommand. apply _. Defined.

(** The bindings of a list that do not carry [cmd], in their order. *)
Definition otherCommands (cmd : string) (l : KeyBindingList) : KeyBindingList :=
  filter (λ kb, ¬ hasCommand cmd kb) l.

(** The entry that is left of a list: none when nothing else is in it. *)
Definition keptList (cmd : string) (l : KeyBindingList) : option KeyBindingList :=
  match otherCommands cmd l with
  | [] => None
  | l' => Some l'
  end.

End KeyBindings.

(** ** A concrete key model

    An instance of [KeyModel] on which the definitions are run: chords
    as triples, a chord parser, a chain matcher and an action parser. *)
Module Demo.

(** Modelled from the spec: the chord of KeySet.h, which is not among
    the sources, as the data model describes it: a key identifier, a
    modifier mask (alt, ctrl, meta and shift bits and the wildcard bit)
    and the keyspace tag, here [true] for a key code. *)
Definition KS : Type := Z * Z * bool.

Definition KS_ALT    : Z := 1.
Definition KS_CTRL   : Z := 2.
Definition KS_META   : Z := 4.
Definition KS_SHIFT  : Z := 8.
Definition KS_ANYMOD : Z := 16.

Definition key (ks : KS) : Z := ks.1.1.
Definition modifiers (ks : KS) : Z := ks.1.2.
Definition isKeyCode (ks : KS) : bool := ks.2.

Definition anyMod (ks : KS) : bool := Z.testbit (modifiers ks) 4.

(** Modelled from the spec: [SetAnyBit], which is not among the sources:
    the wildcard variant of a chord is per key, whatever modifiers are
    held, so the chord is left with the wildcard bit alone. *)
Definition setAnyBit (ks : KS) : KS :=
  (key ks, KS_ANYMOD, isKeyCode ks).

Definition toLower (c : ascii) : ascii :=
  let n := nat_of_ascii c in
  if ((65 <=? n)%nat && (n <=? 90)%nat)%bool then ascii_of_nat (n + 32) else c.

Fixpoint stripPrefix (p s : cstring) : option cstring :=
  match p, s with
  | [], _ => Some s
  | a :: p', b :: s' => if decide (a = b) then stripPrefix p' s' else None
  | _ :: _, [] => None
  end.

Definition modifierNames : list (cstring * Z) :=
  [ (list_ascii_of_string "any+", KS_ANYMOD);
    (list_ascii_of_string "alt+", KS_ALT);
    (list_ascii_of_string "ctrl+", KS_CTRL);
    (list_ascii_of_string "meta+", KS_META);
    (list_ascii_of_string "shift+", KS_SHIFT) ].

Definition stripModifier (s : cstring) : option (Z * cstring) :=
  first_some (λ m : cstring * Z,
                match stripPrefix m.1 s with
                | Some rest => Some (m.2, rest)
                | None => None
                end) modifierNames.

Fixpoint parseModifiers (fuel : nat) (s : cstring) (mods : Z) : Z * cstring :=
  match fuel with
  | O => (mods, s)
  | S fuel' =>
      match stripModifier s with
      | Some (m, rest) => parseModifiers fuel' rest (Z.lor mods m)
      | None => (mods, s)
      end
  end.

Definition hexDigit (c : ascii) : option Z :=
  let n := nat_of_ascii c in
  if ((48 <=? n)%nat && (n <=? 57)%nat)%bool then Some (Z.of_nat (n - 48))
  else if ((97 <=? n)%nat && (n <=? 102)%nat)%bool then Some (Z.of_nat (n - 87))
  else None.

Fixpoint hexValue (s : cstring) (acc : Z) : option Z :=
  match s with
  | [] => Some acc
  | c :: s' =>
      match hexDigit c with
      | Some d => hexValue s' (16 * acc + d)
      | None => None
      end
  end.

Definition parseKey (s : cstring) : option (Z * bool) :=
  match stripPrefix (list_ascii_of_string "0x") s with
  | Some (c :: rest) =>
      match hexValue (c :: rest) 0 with
      | Some k => Some (k, true)
      | None => None
      end
  | Some [] => None
  | None =>
      if decide (s = list_ascii_of_string "enter") then Some (13, true)
      else
        match stripPrefix (list_ascii_of_string "sc_") s with
        | Some [c] => Some (Z.of_nat (nat_of_ascii c), false)
        | _ =>
            match s with
            | [c] => Some (Z.of_nat (nat_of_ascii c), true)
            | _ => None
            end
        end
  end.

(** Modelled from the spec: [CKeySet::Parse], which is not among the
    sources: modifier names joined by [+], then the key.  The key is a
    hex-coded key reference ([0x] and hex digits to the end of the
    token), the name [enter], [sc_] and one character for a scan code, or one
    character for the key code of that character.  The symbol tables
    are fixed. *)
Definition parse (_ : unit) (token : cstring) : option KS :=
  let s := toLower <$> token in
  let '(mods, s) := parseModifiers (length s) s 0 in
  match parseKey s with
  | Some (k, isCode) => Some (k, mods, isCode)
  | None => None
  end.

Definition chordFits (live bound : KS) : bool :=
  bool_decide (key live = key bound) &&
  bool_decide (isKeyCode live = isKeyCode bound) &&
  (anyMod bound || bool_decide (modifiers live = modifiers bound)).

Fixpoint fitBackwards (live needle : list KS) : bool :=
  match needle, live with
  | [], _ => true
  | _ :: _, [] => false
  | n :: needle', l :: live' => chordFits l n && fitBackwards live' needle'
  end.

(** Modelled from the spec: [CKeyChain::fit], which is not among the
    sources, without the timeout: the chords of the binding match the
    last chords of the live chain, each by key and keyspace and by
    equal modifiers or the wildcard of the binding. *)
Definition chainFits (kc needle : list KS) : bool :=
  fitBackwards (reverse kc) (reverse needle).

Fixpoint splitWord (s : string) : string * string :=
  match s with
  | EmptyString => (EmptyString, EmptyString)
  | String c s' =>
      if decide (c = " "%char) then (EmptyString, s')
      else let '(w, rest) := splitWord s' in (String c w, rest)
  end.

(** Modelled from the spec: the constructor [Action(line)], which is not
    among the sources: the command is the first word, [extra] the
    rest, and the line is kept as it is. *)
Definition action_of (l : string) : Action :=
  let '(cmd, ext) := splitWord l in mkAction cmd ext l l.

#[global] Instance model : KeyModel KS unit := {|
  Key := key;
  IsKeyCode := isKeyCode;
  AnyMod := anyMod;
  SetAnyBit := setAnyBit;
  fit := chainFits;
  ResetSyms := id;
  Parse := parse;
  parseAction := action_of
|}.

Definition start : State (CKeySet := KS) (KeySyms := unit) :=
  Init (mkState ∅ ∅ 0 ∅ ()).

Definition binds (l : list (string * string)) (st : State) : State :=
  fold_left (λ st kv, (Bind st kv.1 kv.2).2) l st.

Definition chain (keystr : string) : option (list KS) :=
  ParseKeyChain () (list_ascii_of_string keystr).

Definition lines (l : list (KeyBinding (CKeySet := KS))) : list (string * Z) :=
  (λ kb, (line (action kb), bindingIndex kb)) <$> l.

(** A binding of one chord, and chords by name. *)
Definition binding (keystr ln : string) (ks : KS) (i : Z)
    : KeyBinding (CKeySet := KS) :=
  mkKeyBinding (action_of ln) [ks] keystr i.

Definition key_a   : KS := (97, 0, true).
Definition key_m   : KS := (109, 0, true).
Definition scan_a  : KS := (97, 0, false).
Definition scan_s  : KS := (115, 0, false).
Definition enter   : KS := (13, 0, true).
Definition invalid : KS := (-1, 0, true).

(** Candidate lists of the two keyspaces that share the line [attack]. *)
Definition listA : list (KeyBinding (CKeySet := KS)) :=
  [ binding "m" "move" key_m 1; binding "a" "attack" key_a 5 ].

Definition listB : list (KeyBinding (CKeySet := KS)) :=
  [ binding "sc_a" "attack" scan_a 2; binding "sc_s" "stop" scan_s 7 ].

(** [attack] bound in both keyspaces. *)
Definition bothSpaces : State (CKeySet := KS) (KeySyms := unit) :=
  binds [ ("a", "attack"); ("sc_a", "attack") ]%string start.

(** A wildcard binding made first, then exact ones in both keyspaces. *)
Definition sample : State (CKeySet := KS) (KeySyms := unit) :=
  binds [ ("Any+a", "guard"); ("a", "attack"); ("sc_a", "attack"); ("a", "area") ]%string
        start.

End Demo.

(** * More of KeyBindings.cpp *)

Section Listing.

Context `{KeyModel CKeySet KeySyms}.

Local Abbreviation KeyBinding := (KeyBinding (CKeySet := CKeySet)).
Local Abbreviation State := (State (CKeySet := CKeySet) (KeySyms := KeySyms)).

(** [std::sort] of <algorithm>.  The standard fixes that it permutes
    the range and leaves it sorted by the comparison, and nothing about
    the order of equivalent elements; it is a parameter, with exactly
    that assumed where it is used. *)
Variable std_sort :
  (KeyBinding → KeyBinding → bool) → list KeyBinding → list KeyBinding.

(** [GetKeyBindingList()] without arguments: the lists of both maps, in
    the order the maps are walked, then sorted by binding index. *)
Definition GetKeyBindingList_all (st : State) : list KeyBinding :=
  let merged := [] in
  let merged :=
    map_fold (λ _ keyBindingList merged, merged ++ keyBindingList)
             merged (codeBindings st) in
  let merged :=
    map_fold (λ _ keyBindingList merged, merged ++ keyBindingList)
             merged (scanBindings st) in
  std_sort compareActionByBindingOrder merged.

(** The key of the hotkey map: the command, and the extra text after a
    blank when there is one. *)
Definition hotkeyName (kb : KeyBinding) : string :=
  (command (action kb) ++
   (if decide (extra (action kb) = EmptyString) then EmptyString
    else " " ++ extra (action kb)))%string.

(** [BuildHotkeyMap]: the map it leaves in [hotkeys] (which it clears
    first). *)
Definition BuildHotkeyMap (st : State) : gmap string (list string) :=
  fold_left (λ hotkeys kb,
               let hl := default [] (hotkeys !! hotkeyName kb) in
               <[hotkeyName kb := hl ++ [boundWith kb]]> hotkeys)
            (GetKeyBindingList_all st) ∅.

(** [GetHotkeys(action)] on the hotkey map. *)
Definition GetHotkeys (hotkeys : gmap string (list string)) (act : string)
    : list string :=
  match hotkeys !! act with
  | None => []
  | Some hl => hl
  end.

(** Modelled from the spec: the line reader splits a line into its
    words, so [ExecuteCommand("unbind enter chat")] takes the branch
    [unbind] with the words [enter] and [chat], which is
    [UnBind("enter", "chat")].  The branch [keyreload] of
    [ExecuteCommand] starts with [ExecuteCommand("unbindall")] and this
    call. *)
Definition keyreload_clear (st : State) : bool * State :=
  UnBind (ExecuteCommand_unbindall st) "enter" "chat".

(** [kb] is in the list of keyset [ks] of the key-code map
    ([isKeyCode]) or of the scan-code map. *)
Definition holds (st : State) (isKeyCode : bool) (ks : CKeySet)
    (kb : KeyBinding) : Prop :=
  ∃ l, getBindings isKeyCode st !! ks = Some l ∧ kb ∈ l.

Definition stored (st : State) (kb : KeyBinding) : Prop :=
  ∃ isKeyCode ks, holds st isKeyCode ks kb.

(** No keyset has an empty list, and each keyset is in the map of its
    keyspace. *)
Definition store_keyed (st : State) : Prop :=
  ∀ isKeyCode ks l,
    getBindings isKeyCode st !! ks = Some l → l ≠ [] ∧ IsKeyCode ks = isKeyCode.

(** Two stored bindings with one index are in one list. *)
Definition index_owner (st : State) : Prop :=
  ∀ c1 k1 x c2 k2 y,
    holds st c1 k1 x → holds st c2 k2 y →
    bindingIndex x = bindingIndex y → c1 = c2 ∧ k1 = k2.

(** What the resolution of two live chains looks at: the bindings that
    [GetKeyBindingList(ks, forceAny)] gives for the last chord of one
    of the chains (without the wildcard bit only when the chord has
    none), and whose chain the live chain fits. *)
Definition candidate (st : State) (kc sc : list CKeySet) (x : KeyBinding)
    : Prop :=
  ∃ (chain : list CKeySet) back (forceAny : bool),
    (chain = kc ∨ chain = sc) ∧ last chain = Some back ∧
    (forceAny = false → AnyMod back = false) ∧
    x ∈ GetKeyBindingList_ks st back forceAny ∧
    fit chain (keyChain x) = true.

(** The pieces of a text between its commas. *)
Fixpoint splitCommas (s : cstring) : list cstring :=
  match s with
  | [] => [[]]
  | c :: s' =>
      if decide (c = comma) then [] :: splitCommas s'
      else match splitCommas s' with
           | t :: ts => (c :: t) :: ts
           | [] => [[c]]
           end
  end.

End Listing.

(** A sort that does what the standard asks of [std::sort]: the merge
    sort of the list library, by "not after". *)
Definition merge_sort_by {X} (comp : X → X → bool) (l : list X) : list X :=
  @merge_sort X (λ a b, comp b a = false)
              (λ a b, decide (comp b a = false)) l.

(** * Vector helpers (rts/System/ContainerUtil.h) *)

Module spring.

Section ContainerUtil.

Context {T : Type} `{EqDecision T}.

(** [std::lower_bound(v.begin(), v.end(), value, comp)] as an index:
    the binary search of the C++ library.  While [len] is positive it
    looks at the element in the middle, at [first + len / 2]; when
    [comp] puts that element before [value] the search goes on behind
    it, with [len - len / 2 - 1] elements, and else in front of it,
    with [len / 2].  Every round makes [len] smaller, so the rounds
    are at most as many as the vector is long. *)
Fixpoint lower_bound_loop (rounds : nat) (v : list T) (value : T)
    (comp : T → T → bool) (first len : nat) : nat :=
  match rounds with
  | O => first
  | S rounds' =>
      if decide (0 < len)%nat then
        let half := (len / 2)%nat in
        let middle := (first + half)%nat in
        match v !! middle with
        | Some x =>
            if comp x value
            then lower_bound_loop rounds' v value comp (S middle) (len - half - 1)
            else lower_bound_loop rounds' v value comp first half
        | None => first
        end
      else first
  end.

Definition lower_bound (v : list T) (value : T) (comp : T → T → bool) : nat :=
  lower_bound_loop (length v) v value comp 0 (length v).

(** [std::upper_bound], the same search with the test the other way
    round: when [comp] puts [value] before the element in the middle
    the search goes on in front of it. *)
Fixpoint upper_bound_loop (rounds : nat) (v : list T) (value : T)
    (comp : T → T → bool) (first len : nat) : nat :=
  match rounds with
  | O => first
  | S rounds' =>
      if decide (0 < len)%nat then
        let half := (len / 2)%nat in
        let middle := (first + half)%nat in
        match v !! middle with
        | Some x =>
            if comp value x
            then upper_bound_loop rounds' v value comp first half
            else upper_bound_loop rounds' v value comp (S middle) (len - half - 1)
        | None => first
        end
      else first
  end.

Definition upper_bound (v : list T) (value : T) (comp : T → T → bool) : nat :=
  upper_bound_loop (length v) v value comp 0 (length v).

(** The place the two searches are after: the first position whose
    element does not satisfy [p]. *)
Fixpoint partition_point (p : T → bool) (v : list T) : nat :=
  match v with
  | [] => O
  | x :: v' => if p x then S (partition_point p v') else O
  end.

(** [BinarySearch(first, last, value, comp)] over a whole vector; the
    iterator is an index, and [last] is [None].  The overload without
    [comp] is this one with [operator<]. *)
Definition BinarySearch (v : list T) (value : T) (comp : T → T → bool)
    : option nat :=
  let first := lower_bound v value comp in
  match v !! first with
  | Some x => if negb (comp value x) then Some first else None
  | None => None
  end.

(** [v[i] = std::move(v.back()); v.pop_back();] *)
Definition moveBack (v : list T) (i : nat) : list T :=
  match last v with
  | Some e => removelast (<[i := e]> v)
  | None => v
  end.

(** What [moveBack] leaves of the elements behind the one it
    overwrites: the last of them in front of the others. *)
Definition hole_filled (l2 : list T) : list T :=
  match last l2 with
  | Some e => e :: removelast l2
  | None => []
  end.

(** The loop of [VectorEraseAllIf]; each round erases an element or
    moves [i] on, so the rounds are as many as the vector is long. *)
Fixpoint VectorEraseAllIf_loop (rounds : nat) (v : list T) (p : T → bool)
    (i : nat) (b : bool) : bool * list T :=
  match rounds with
  | O => (b, v)
  | S rounds' =>
      match v !! i with
      | None => (b, v)
      | Some x =>
          if p x then VectorEraseAllIf_loop rounds' (moveBack v i) p i true
          else VectorEraseAllIf_loop rounds' v p (S i) b
      end
  end.

Definition VectorEraseAllIf (v : list T) (p : T → bool) : bool * list T :=
  VectorEraseAllIf_loop (length v) v p 0 false.

Definition VectorEraseIf (v : list T) (p : T → bool) : bool * list T :=
  match list_find (λ x, p x = true) v with
  | None => (false, v)
  | Some (it, _) => (true, moveBack v it)
  end.

Definition VectorErase (v : list T) (e : T) : bool * list T :=
  match list_find (λ x, x = e) v with
  | None => (false, v)
  | Some (it, _) => (true, moveBack v it)
  end.

(** [for (n = ...; n < v.size() - 1; n++) std::swap(v[n], v[n + 1]);]
    on a vector that is not empty. *)
Fixpoint swapLoop (rounds : nat) (v : list T) (n : nat) : list T :=
  match rounds with
  | O => v
  | S rounds' =>
      match v !! n, v !! S n with
      | Some a, Some b => swapLoop rounds' (<[S n := a]> (<[n := b]> v)) (S n)
      | _, _ => v
      end
  end.

Definition VectorEraseUniqueSorted (v : list T) (e : T) (c : T → T → bool)
    : bool * list T :=
  let iter := lower_bound v e c in
  match v !! iter with
  | None => (false, v)
  | Some x =>
      if decide (x ≠ e) then (false, v)
      else (true, removelast (swapLoop (length v) v iter))
  end.

(** The inner loop of [VectorUnique], [for (j = i + 1; j < v.size(); )]. *)
Fixpoint VectorUnique_inner (rounds : nat) (v : list T)
    (uniqPred : T → T → bool) (i j : nat) : list T :=
  match rounds with
  | O => v
  | S rounds' =>
      match v !! i, v !! j with
      | Some vi, Some vj =>
          if uniqPred vi vj
          then VectorUnique_inner rounds' (moveBack v j) uniqPred i j
          else VectorUnique_inner rounds' v uniqPred i (S j)
      | _, _ => v
      end
  end.

(** The outer loop, [for (i = 0; i < v.size(); i++)]. *)
Fixpoint VectorUnique_outer (rounds : nat) (v : list T)
    (uniqPred : T → T → bool) (i : nat) : list T :=
  match rounds with
  | O => v
  | S rounds' =>
      if decide (i < length v)%nat
      then VectorUnique_outer rounds'
             (VectorUnique_inner (length v) v uniqPred i (S i)) uniqPred (S i)
      else v
  end.

(** [VectorUnique(v, uniqPred)]; the overload without [uniqPred] is this
    one with [operator==]. *)
Definition VectorUnique (v : list T) (uniqPred : T → T → bool) : list T :=
  VectorUnique_outer (length v) v uniqPred 0.

(** [VectorInsertUnique(v, e, b)].  The [assert] stops a build that
    has assertions when [b] is false and [e] is in the vector already:
    that is [None]. *)
Definition VectorInsertUnique (v : list T) (e : T) (b : bool)
    : option (bool * list T) :=
  if b && bool_decide (e ∈ v) then Some (false, v)
  else if b || bool_decide (e ∉ v) then Some (true, v ++ [e])
  else None.

(** [vec.insert(vec.begin() + pos, item)] *)
Definition vector_insert (vec : list T) (pos : nat) (item : T) : list T :=
  take pos vec ++ item :: drop pos vec.

(** [VectorInsertSorted(vec, item, pred)]: the position of the new
    element and the vector. *)
Definition VectorInsertSorted (vec : list T) (item : T) (pred : T → T → bool)
    : nat * list T :=
  let pos := upper_bound vec item pred in
  (pos, vector_insert vec pos item).

Definition VectorInsertUniqueSorted (v : list T) (e : T) (pred : T → T → bool)
    : bool * list T :=
  let iter := lower_bound v e pred in
  match v !! iter with
  | Some x =>
      if decide (x = e) then (false, v) else (true, vector_insert v iter e)
  | None => (true, vector_insert v iter e)
  end.

(** [VectorBackPop(v)]; [back()] of an empty vector is undefined. *)
Definition VectorBackPop (v : list T) : option (T * list T) :=
  match last v with
  | Some e => Some (e, removelast v)
  | None => None
  end.

End ContainerUtil.

(** [MapEraseIf(c, p)]: the loop over the entries of the map, each
    entry with the predicate erased. *)
Definition MapEraseIf `{Countable K} {V} (c : gmap K V) (p : K * V → bool)
    : gmap K V :=
  map_fold (λ k x c', if p (k, x) then delete k c' else c') c c.

End spring.

(** * Properties *)

Section Properties.

Context `{KeyModel CKeySet KeySyms}.

Local Abbreviation CKeyChain := (list CKeySet).
Local Abbreviation KeyBinding := (KeyBinding (CKeySet := CKeySet)).
Local Abbreviation KeyBindingList := (list KeyBinding).
Local Abbreviation State := (State (CKeySet := CKeySet) (KeySyms := KeySyms)).

Implicit Types (kb a b aB : KeyBinding).
Implicit Types (A B Bs pre out input : KeyBindingList).
Implicit Types (st : State) (kc sc : CKeyChain) (ks : CKeySet).

(** ** FilterByKeychain appends the entries that fit *)

Lemma FilterByKeychain_filter input kc out :
  FilterByKeychain input kc out
  = out ++ filter (λ kb, fit kc (keyChain kb) = true) input.
Proof.
  unfold FilterByKeychain. revert out.
  induction input as [|x input IH]; intros out; simpl.
  - by rewrite app_nil_r.
  - rewrite IH. destruct (fit kc (keyChain x)) eqn:E.
    + rewrite filter_cons_True by done. by rewrite <- app_assoc.
    + rewrite filter_cons_False; [done | congruence].
Qed.

(** ** The duplicate scan *)

Lemma scanDuplicate_find aB pre A Bs aEndId :
  scanDuplicate aB (pre ++ A ++ Bs) (length pre) aEndId (length A)
  = match list_find (sameLine aB) A with
    | None => (true, pre ++ A ++ Bs, aEndId)
    | Some (i, oa) =>
        if bindingIndex oa <=? bindingIndex aB
        then (false, pre ++ A ++ Bs, aEndId)
        else (true, pre ++ delete i A ++ Bs, pred aEndId)
    end.
Proof.
  revert pre. induction A as [|x A IH]; intros pre; [done|].
  cbn [length scanDuplicate].
  rewrite lookup_app_r, Nat.sub_diag by lia. cbn [lookup list_lookup app].
  cbn [list_find]. destruct (decide (sameLine aB x)) as [Hx|Hx].
  - cbn. destruct (bindingIndex x <=? bindingIndex aB); [done|].
    do 2 f_equal. rewrite delete_take_drop.
    rewrite take_app_length. f_equal.
    rewrite cons_middle, app_assoc. apply drop_app_length'.
    rewrite length_app; simpl; lia.
  - specialize (IH (pre ++ [x])).
    rewrite length_app in IH; simpl in IH.
    rewrite Nat.add_1_r, <- app_assoc in IH. simpl in IH. rewrite IH.
    destruct (list_find (sameLine aB) A) as [[i oa]|]; simpl.
    + destruct (bindingIndex oa <=? bindingIndex aB); [done|].
      by rewrite <- app_assoc.
    + done.
Qed.

Lemma mergeStep_find pre A Bs aB :
  mergeStep (length pre) (pre ++ A ++ Bs, (length pre + length A)%nat) aB
  = match list_find (sameLine aB) A with
    | None => (pre ++ A ++ (Bs ++ [aB]), (length pre + length A)%nat)
    | Some (i, oa) =>
        if bindingIndex oa <=? bindingIndex aB
        then (pre ++ A ++ Bs, (length pre + length A)%nat)
        else (pre ++ delete i A ++ (Bs ++ [aB]),
              (length pre + length (delete i A))%nat)
    end.
Proof.
  unfold mergeStep. cbn [fst snd].
  replace (length pre + length A - length pre)%nat with (length A) by lia.
  rewrite scanDuplicate_find.
  destruct (list_find (sameLine aB) A) as [[i oa]|] eqn:Hfind.
  - destruct (bindingIndex oa <=? bindingIndex aB); [done|].
    apply list_find_Some in Hfind as (Hi & _ & _).
    apply lookup_lt_Some in Hi.
    rewrite <- !app_assoc. f_equal. rewrite length_delete by eauto using lookup_lt_is_Some_2.
    lia.
  - by rewrite <- !app_assoc.
Qed.

Lemma filter_ext_in {X} (P Q : X → Prop)
    `{!∀ x, Decision (P x), !∀ x, Decision (Q x)} (l : list X) :
  (∀ x, x ∈ l → P x ↔ Q x) → filter P l = filter Q l.
Proof.
  induction l as [|x l IH]; intros HPQ; [done|].
  rewrite !filter_cons.
  assert (P x ↔ Q x) as Hx by (apply HPQ; left).
  rewrite IH by (intros; apply HPQ; by right).
  destruct (decide (P x)), (decide (Q x)); tauto.
Qed.

Lemma filter_all_in {X} (P : X → Prop) `{!∀ x, Decision (P x)} (l : list X) :
  (∀ x, x ∈ l → P x) → filter P l = l.
Proof.
  induction l as [|x l IH]; intros HP; [done|].
  rewrite filter_cons_True by (apply HP; left).
  f_equal. apply IH. intros; apply HP; by right.
Qed.

Lemma NoDup_lineOf_inj (l : KeyBindingList) x y :
  NoDup (lineOf <$> l) → x ∈ l → y ∈ l → lineOf x = lineOf y → x = y.
Proof.
  induction l as [|z l IH]; [by intros _ ?%elem_of_nil|].
  rewrite fmap_cons, NoDup_cons.
  intros [Hz Hl] [->|Hx]%elem_of_cons [->|Hy]%elem_of_cons Heq; auto.
  - destruct Hz. rewrite Heq. by apply list_elem_of_fmap_2.
  - destruct Hz. rewrite <- Heq. by apply list_elem_of_fmap_2.
Qed.

Lemma find_delete_filter A b i oa :
  NoDup (lineOf <$> A) →
  list_find (sameLine b) A = Some (i, oa) →
  delete i A = filter (λ a, ¬ sameLine b a) A.
Proof.
  intros Hnd (Hi & Hoa & _)%list_find_Some.
  rewrite <- (take_drop_middle A i oa Hi) at 2.
  rewrite delete_take_drop, filter_app, filter_cons_False by tauto.
  assert (∀ a, a ∈ take i A ++ drop (S i) A → ¬ sameLine b a) as Hne.
  { intros a Ha Hba.
    rewrite <- (take_drop_middle A i oa Hi) in Hnd.
    rewrite fmap_app, fmap_cons in Hnd.
    apply NoDup_app in Hnd as (_ & Hl & [Hr _]%NoDup_cons).
    assert (lineOf a = lineOf oa) as Heq by (unfold sameLine, lineOf in *; congruence).
    apply elem_of_app in Ha as [Ha|Ha].
    - apply (Hl (lineOf oa)); [rewrite <- Heq; by apply list_elem_of_fmap_2 | left].
    - apply Hr. rewrite <- Heq. by apply list_elem_of_fmap_2. }
  rewrite <- filter_app. symmetry. by apply filter_all_in.
Qed.

Lemma survivesA_cons b B a :
  survivesA (b :: B) a ↔
  ¬ (sameLine b a ∧ bindingIndex b < bindingIndex a) ∧ survivesA B a.
Proof. unfold survivesA. rewrite Exists_cons. tauto. Qed.

Lemma survivesB_delete A b b' i oa :
  NoDup (lineOf <$> A) →
  list_find (sameLine b) A = Some (i, oa) →
  ¬ sameLine b' b →
  survivesB (delete i A) b' ↔ survivesB A b'.
Proof.
  intros Hnd Hfind Hne. rewrite (find_delete_filter A b i oa Hnd Hfind).
  unfold survivesB. rewrite !Exists_exists.
  apply not_iff_compat. split.
  - intros (a & [_ Ha]%list_elem_of_filter & Hp). eauto.
  - intros (a & Ha & Hs & Hle). exists a. split; [|done].
    apply list_elem_of_filter. split; [|done].
    intros Hba. apply Hne. unfold sameLine in *. congruence.
Qed.

(** The loop over list B in closed form, for duplicate-free lists. *)
Lemma mergeLoop_closed pre A B Bs :
  NoDup (lineOf <$> A) → NoDup (lineOf <$> B) →
  fold_left (mergeStep (length pre)) B
            (pre ++ A ++ Bs, (length pre + length A)%nat)
  = (pre ++ filter (survivesA B) A ++ Bs ++ filter (survivesB A) B,
     (length pre + length (filter (survivesA B) A))%nat).
Proof.
  revert A Bs. induction B as [|b B IH]; intros A Bs HA HB.
  - cbn [fold_left]. rewrite filter_nil, app_nil_r.
    rewrite filter_all_in; [done|].
    intros a _ Hex. by apply Exists_nil in Hex.
  - rewrite fmap_cons in HB. apply NoDup_cons in HB as [Hb HB].
    cbn [fold_left]. rewrite mergeStep_find.
    destruct (list_find (sameLine b) A) as [[i oa]|] eqn:Hfind.
    + pose proof Hfind as (Hi & Hoa & _)%list_find_Some.
      assert (oa ∈ A) as HoaA by eauto using list_elem_of_lookup_2.
      assert (∀ a, a ∈ A → sameLine b a → a = oa) as Huniq.
      { intros a Ha Hba. apply (NoDup_lineOf_inj A); auto.
        unfold sameLine, lineOf in *. congruence. }
      destruct (bindingIndex oa <=? bindingIndex b) eqn:Hle.
      * apply Z.leb_le in Hle. rewrite IH by done.
        rewrite (filter_cons_False _ b).
        2:{ unfold survivesB. intros Hs. apply Hs, Exists_exists. eauto. }
        do 2 f_equal; [f_equal|do 2 f_equal]; apply filter_ext_in; intros a Ha;
          rewrite survivesA_cons; split; try tauto;
          (intros Hs; split; [|done]; intros [Hba Hlt];
           rewrite (Huniq a Ha Hba) in Hlt; lia).
      * apply Z.leb_gt in Hle.
        rewrite IH by first [done | eapply sublist_NoDup; [exact HA|];
                                     apply fmap_sublist, sublist_delete].
        assert (filter (survivesA B) (delete i A) = filter (survivesA (b :: B)) A)
          as ->.
        { rewrite (find_delete_filter A b i oa HA Hfind), list_filter_filter.
          apply filter_ext_in. intros a Ha. rewrite survivesA_cons.
          split; [tauto|]. intros [Hn Hs]. split; [done|].
          intros Hba. apply Hn. split; [done|].
          by rewrite (Huniq a Ha Hba). }
        rewrite (filter_cons_True _ b).
        2:{ unfold survivesB. rewrite Exists_exists.
            intros (a & Ha & Hba & Hle'). rewrite (Huniq a Ha Hba) in Hle'. lia. }
        rewrite <- !app_assoc. cbn [app].
        do 5 f_equal. apply filter_ext_in. intros b' Hb'.
        apply (survivesB_delete A b b' i oa HA Hfind).
        intros Hs. apply Hb. unfold sameLine in Hs.
        replace (lineOf b) with (lineOf b') by done.
        by apply list_elem_of_fmap_2.
    + apply list_find_None in Hfind. rewrite Forall_forall in Hfind.
      rewrite IH by done.
      rewrite (filter_cons_True _ b).
      2:{ unfold survivesB. rewrite Exists_exists.
          intros (a & Ha & Hba & _). by apply (Hfind a Ha). }
      rewrite <- !app_assoc. cbn [app].
      do 2 f_equal; [f_equal|do 2 f_equal]; apply filter_ext_in; intros a Ha;
        rewrite survivesA_cons; split; try tauto;
        (intros Hs; split; [|done]; intros [Hba _]; by apply (Hfind a Ha)).
Qed.

(** ** std::merge and std::inplace_merge *)

Lemma std_merge_nil_l comp B : std_merge comp [] B = B.
Proof. by destruct B. Qed.

Lemma std_merge_nil_r comp A : std_merge comp A [] = A.
Proof. by destruct A. Qed.

Lemma std_merge_cons comp x A y B :
  std_merge comp (x :: A) (y :: B)
  = if comp y x then y :: std_merge comp (x :: A) B
    else x :: std_merge comp A (y :: B).
Proof. done. Qed.

Lemma std_merge_Permutation comp A B : std_merge comp A B ≡ₚ A ++ B.
Proof.
  revert B. induction A as [|x A IHA]; intros B.
  - by rewrite std_merge_nil_l.
  - induction B as [|y B IHB].
    + by rewrite std_merge_nil_r, app_nil_r.
    + rewrite std_merge_cons. destruct (comp y x).
      * rewrite IHB. by rewrite (Permutation_middle (x :: A) B y).
      * by rewrite IHA.
Qed.

Lemma inplace_merge_app comp pre A B :
  inplace_merge (length pre) (length pre + length A) comp (pre ++ A ++ B)
  = pre ++ std_merge comp A B.
Proof.
  unfold inplace_merge.
  rewrite take_app_length, drop_app_length.
  replace (length pre + length A - length pre)%nat with (length A) by lia.
  rewrite take_app_length. rewrite app_assoc.
  by rewrite drop_app_length' by (rewrite length_app; lia).
Qed.

(** ** MergeActionListsByTrigger in closed form *)

Lemma MergeActionListsByTrigger_closed A B out :
  NoDup (lineOf <$> A) → NoDup (lineOf <$> B) →
  MergeActionListsByTrigger A B out
  = out ++ std_merge compareActionByTriggerOrder
             (filter (survivesA B) A) (filter (survivesB A) B).
Proof.
  intros HA HB. unfold MergeActionListsByTrigger.
  destruct A as [|a0 A'] eqn:EA.
  { rewrite filter_nil, std_merge_nil_l. f_equal. symmetry.
    apply filter_all_in. intros b _ Hex. by apply Exists_nil in Hex. }
  destruct B as [|b0 B'] eqn:EB.
  { rewrite filter_nil, std_merge_nil_r. f_equal. symmetry.
    apply filter_all_in. intros a _ Hex. by apply Exists_nil in Hex. }
  rewrite <- EA, <- EB in *. clear EA EB a0 A' b0 B'.
  rewrite length_app.
  rewrite <- (app_nil_r A) at 1.
  rewrite (mergeLoop_closed out A B [] HA HB). cbn [app].
  apply inplace_merge_app.
Qed.

Lemma filter_none_in {X} (P : X → Prop) `{!∀ x, Decision (P x)} (l : list X) :
  (∀ x, x ∈ l → ¬ P x) → filter P l = [].
Proof.
  induction l as [|x l IH]; intros HP; [done|].
  rewrite filter_cons_False by (apply HP; left).
  apply IH. intros; apply HP; by right.
Qed.

Lemma filter_line_singleton (l : KeyBindingList) a :
  NoDup (lineOf <$> l) → a ∈ l →
  filter (λ x, lineOf x = lineOf a) l = [a].
Proof.
  intros Hnd Ha.
  apply list_elem_of_lookup in Ha as [i Hi].
  rewrite <- (take_drop_middle l i a Hi) in Hnd |- *.
  rewrite fmap_app, fmap_cons in Hnd.
  apply NoDup_app in Hnd as (_ & Hl & [Hr _]%NoDup_cons).
  rewrite filter_app, filter_cons_True by done.
  rewrite !filter_none_in; [done| |].
  - intros x Hx Heq. apply Hr. rewrite <- Heq. by apply list_elem_of_fmap_2.
  - intros x Hx Heq. apply (Hl (lineOf a)); [|left].
    rewrite <- Heq. by apply list_elem_of_fmap_2.
Qed.

Lemma filter_filter_singleton {X} (P Q : X → Prop)
    `{!∀ x, Decision (P x), !∀ x, Decision (Q x)} (l : list X) (z : X) :
  filter P l = [z] →
  filter P (filter Q l) = if decide (Q z) then [z] else [].
Proof.
  intros HP. rewrite list_filter_filter.
  rewrite (list_filter_iff _ (λ x, Q x ∧ P x)) by (intros; tauto).
  rewrite <- list_filter_filter, HP.
  rewrite filter_cons. by destruct (decide (Q z)).
Qed.

(** ** Duplicates across the two keyspaces *)

(** C1.  Two candidate lists, each without a repeated source line, each
    sorted by binding index, all of one wildcard status (the conditions
    under which [std::inplace_merge] is defined): for a source line that
    both lists hold, the part that the merge appends to [out] holds
    exactly one binding of that line, the one with the lower binding
    index (the one of list A when the indices are equal), and the
    binding with the higher index is not in it, whether it was first
    appended from list A or not. *)
Theorem merge_keeps_lower_index A B out a b w :
  NoDup (lineOf <$> A) → NoDup (lineOf <$> B) →
  StronglySorted (λ x y, bindingIndex x ≤ bindingIndex y) A →
  StronglySorted (λ x y, bindingIndex x ≤ bindingIndex y) B →
  Forall (λ x, triggerAnyMod x = w) (A ++ B) →
  a ∈ A → b ∈ B → lineOf a = lineOf b →
  ∃ m, MergeActionListsByTrigger A B out = out ++ m ∧
       filter (λ x, lineOf x = lineOf a) m
       = [if bindingIndex b <? bindingIndex a then b else a] ∧
       (bindingIndex a ≠ bindingIndex b →
        (if bindingIndex b <? bindingIndex a then a else b) ∉ m).
Proof.
  intros HA HB _ _ _ Ha Hb Hab.
  eexists. split; [by apply MergeActionListsByTrigger_closed|].
  set (m := std_merge _ _ _).
  assert (filter (λ x, lineOf x = lineOf a) m
          = [if bindingIndex b <? bindingIndex a then b else a]) as Hm.
  { apply Permutation_singleton_r. subst m.
    rewrite std_merge_Permutation, filter_app.
    rewrite (filter_filter_singleton _ _ A a)
      by by apply filter_line_singleton.
    rewrite (list_filter_iff (λ x, lineOf x = lineOf a)
                             (λ x, lineOf x = lineOf b)
                             (filter (survivesB A) B))
      by (intros; by rewrite Hab).
    rewrite (filter_filter_singleton _ _ B b)
      by by apply filter_line_singleton.
    assert (survivesA B a ↔ ¬ bindingIndex b < bindingIndex a) as HsA.
    { unfold survivesA. rewrite Exists_exists. split.
      - intros Hn Hlt. apply Hn. exists b. unfold sameLine, lineOf in *. eauto.
      - intros Hn (b' & Hb' & Hs & Hlt). apply Hn.
        replace b with b'; [done|].
        apply (NoDup_lineOf_inj B); auto.
        unfold sameLine, lineOf in *. congruence. }
    assert (survivesB A b ↔ ¬ bindingIndex a ≤ bindingIndex b) as HsB.
    { unfold survivesB. rewrite Exists_exists. split.
      - intros Hn Hle. apply Hn. exists a. unfold sameLine, lineOf in *. eauto.
      - intros Hn (a' & Ha' & Hs & Hle). apply Hn.
        replace a with a'; [done|].
        apply (NoDup_lineOf_inj A); auto.
        unfold sameLine, lineOf in *. congruence. }
    destruct (bindingIndex b <? bindingIndex a) eqn:Hlt;
      [apply Z.ltb_lt in Hlt | apply Z.ltb_ge in Hlt];
      repeat case_decide; try done; exfalso;
      repeat match goal with
             | Hx : survivesA _ _ |- _ => apply HsA in Hx
             | Hx : ¬ survivesA _ _ |- _ => rewrite HsA in Hx
             | Hx : survivesB _ _ |- _ => apply HsB in Hx
             | Hx : ¬ survivesB _ _ |- _ => rewrite HsB in Hx
             end; lia. }
  split; [done|].
  intros Hne Hin.
  assert ((if bindingIndex b <? bindingIndex a then a else b)
          ∈ filter (λ x, lineOf x = lineOf a) m) as Hin'.
  { apply list_elem_of_filter. split; [|done]. by destruct (_ <? _). }
  rewrite Hm in Hin'. apply list_elem_of_singleton in Hin'.
  destruct (bindingIndex b <? bindingIndex a); congruence.
Qed.

(** ** Sorted lists *)

Lemma StronglySorted_sublist {X} (R : relation X) (l1 l2 : list X) :
  l1 `sublist_of` l2 → StronglySorted R l2 → StronglySorted R l1.
Proof.
  induction 1 as [|x l1 l2 Hsub IH|x l1 l2 Hsub IH]; [done| |].
  - rewrite !StronglySorted_cons. intros [Hx Hl]. split; [|auto].
    rewrite Forall_forall in *. eauto using elem_of_sublist.
  - rewrite StronglySorted_cons. intros [_ Hl]. auto.
Qed.

Lemma StronglySorted_mono {X} (R R' : relation X) (l : list X) :
  (∀ x y, R x y → R' x y) → StronglySorted R l → StronglySorted R' l.
Proof.
  intros HR. induction 1 as [|x l Hl IH Hx]; constructor; [done|].
  eapply Forall_impl; eauto.
Qed.

Lemma StronglySorted_lookup {X} (R : relation X) (l : list X) i j x y :
  StronglySorted R l → l !! i = Some x → l !! j = Some y → (i < j)%nat → R x y.
Proof.
  intros Hl. revert i j. induction Hl as [|z l Hl IH Hz]; intros i j; [done|].
  destruct i as [|i], j as [|j]; try lia; cbn.
  - intros [= ->] Hy _. rewrite Forall_forall in Hz.
    eauto using list_elem_of_lookup_2.
  - intros Hx Hy Hij. apply (IH i j); auto with lia.
Qed.

Lemma std_merge_sorted w A B :
  Forall (λ x, triggerAnyMod x = w) A →
  Forall (λ x, triggerAnyMod x = w) B →
  StronglySorted (λ x y, bindingIndex x ≤ bindingIndex y) A →
  StronglySorted (λ x y, bindingIndex x ≤ bindingIndex y) B →
  StronglySorted (λ x y, bindingIndex x ≤ bindingIndex y)
                 (std_merge compareActionByTriggerOrder A B).
Proof.
  revert B. induction A as [|x A IHA]; intros B.
  { by rewrite std_merge_nil_l. }
  induction B as [|y B IHB]; [by rewrite std_merge_nil_r|].
  intros HwA HwB HsA HsB. rewrite std_merge_cons.
  pose proof HwA as [Hwx HwA']%Forall_cons.
  pose proof HwB as [Hwy HwB']%Forall_cons.
  pose proof HsA as [Hx HsA']%StronglySorted_cons.
  pose proof HsB as [Hy HsB']%StronglySorted_cons.
  unfold compareActionByTriggerOrder. rewrite Hwx, Hwy, Bool.eqb_reflx.
  destruct (bindingIndex y <? bindingIndex x) eqn:Hlt;
    [apply Z.ltb_lt in Hlt | apply Z.ltb_ge in Hlt].
  - apply StronglySorted_cons. split; [|by apply IHB].
    rewrite std_merge_Permutation. apply Forall_app. split; [|done].
    apply Forall_cons. split; [lia|].
    eapply Forall_impl; [exact Hx|]. intros; simpl in *; lia.
  - apply StronglySorted_cons. split; [|by apply IHA].
    rewrite std_merge_Permutation. apply Forall_app. split; [done|].
    apply Forall_cons. split; [lia|].
    eapply Forall_impl; [exact Hy|]. intros; simpl in *; lia.
Qed.

(** ** The counter *)

Lemma to_int_in_range z : INT_MIN ≤ z ≤ INT_MAX → to_int z = z.
Proof.
  unfold to_int, INT_MIN, INT_MAX. intros Hz.
  rewrite Z.mod_small by lia. lia.
Qed.

Lemma to_int_succ count :
  INT_MIN ≤ count < INT_MAX → to_int (count + 1) = count + 1.
Proof. intros Hc. apply to_int_in_range. lia. Qed.

Lemma to_int_one : to_int (0 + 1) = 1.
Proof. done. Qed.

(** ** The invariant of the store *)

Lemma list_wf_sublist count ks (l l' : KeyBindingList) :
  l' `sublist_of` l → list_wf count ks l → list_wf count ks l'.
Proof.
  intros Hsub (Hall & Hsort & Hnd). split_and!.
  - rewrite Forall_forall in *. eauto using elem_of_sublist.
  - eauto using StronglySorted_sublist.
  - eapply sublist_NoDup; [exact Hnd|]. by apply fmap_sublist.
Qed.

Lemma list_wf_mono count count' ks (l : KeyBindingList) :
  count ≤ count' → list_wf count ks l → list_wf count' ks l.
Proof.
  intros Hle (Hall & Hsort & Hnd). split_and!; [|done..].
  eapply Forall_impl; [exact Hall|]. intros kb [? ?]. split; [done|lia].
Qed.

Lemma list_wf_nil count ks : list_wf count ks [].
Proof. split_and!; constructor. Qed.

Lemma list_wf_snoc count ks (l : KeyBindingList) kb :
  list_wf count ks l →
  last (keyChain kb) = Some ks →
  list_find (sameLine kb) l = None →
  list_wf (count + 1) ks (l ++ [setIndex kb (count + 1)]).
Proof.
  intros (Hall & Hsort & Hnd) Hlast Hfind.
  apply list_find_None in Hfind. rewrite Forall_forall in Hfind, Hall.
  split_and!.
  - apply Forall_app. split.
    + apply Forall_forall. intros x Hx. destruct (Hall x Hx). split; [done|lia].
    + apply Forall_singleton. split; [done|]. simpl. lia.
  - apply StronglySorted_app. split_and!; [|done|repeat constructor].
    intros x y Hx ->%list_elem_of_singleton. destruct (Hall x Hx). simpl. lia.
  - rewrite fmap_app. apply NoDup_app. split_and!; [done| |apply NoDup_singleton].
    intros s [x [-> Hx]]%list_elem_of_fmap Hs.
    apply list_elem_of_singleton in Hs. simpl in Hs.
    apply (Hfind x Hx). unfold sameLine. simpl. done.
Qed.

(** ** The erase loops *)

Lemma RemoveCommandFromList_filter (l : KeyBindingList) cmd :
  RemoveCommandFromList l cmd
  = (bool_decide (Exists (hasCommand cmd) l), otherCommands cmd l).
Proof.
  unfold otherCommands.
  induction l as [|kb l IH]; [done|].
  cbn [RemoveCommandFromList]. rewrite IH. rewrite filter_cons.
  unfold hasCommand at 3.
  destruct (decide (command (action kb) = cmd)) as [Heq|Hne].
  - rewrite decide_False by (unfold hasCommand; tauto).
    f_equal. symmetry. apply bool_decide_eq_true. by left.
  - rewrite decide_True by done. f_equal.
    apply bool_decide_ext. rewrite Exists_cons. unfold hasCommand at 2. tauto.
Qed.

Lemma putList_lookup ks (l : KeyBindingList)
    (m : gmap CKeySet KeyBindingList) k :
  putList ks l m !! k
  = if decide (ks = k) then (match l with [] => None | _ => Some l end)
    else m !! k.
Proof.
  unfold putList. destruct l; [rewrite lookup_delete | rewrite lookup_insert];
    by case_decide.
Qed.

Lemma RemoveActionFromKeyMap_fold cmd (m0 m : gmap CKeySet KeyBindingList) :
  let r :=
    map_fold (λ ks keyBindingList (acc : bool * gmap CKeySet KeyBindingList),
                let '(removed, keyBindingList) :=
                  RemoveCommandFromList keyBindingList cmd in
                (if removed then true else acc.1,
                 putList ks keyBindingList acc.2))
             (false, m0) m in
  r.1 = bool_decide (map_Exists (λ _ l, Exists (hasCommand cmd) l) m) ∧
  ∀ k, r.2 !! k = match m !! k with
                  | Some l => keptList cmd l
                  | None => m0 !! k
                  end.
Proof.
  cbv zeta. revert m.
  apply (map_fold_weak_ind
    (λ (r : bool * gmap CKeySet KeyBindingList) (m' : gmap CKeySet KeyBindingList),
       r.1 = bool_decide (map_Exists (λ _ l, Exists (hasCommand cmd) l) m') ∧
       ∀ k, r.2 !! k = match m' !! k with
                       | Some l => keptList cmd l
                       | None => m0 !! k
                       end)).
  - split; [|done]. cbn. symmetry. apply bool_decide_eq_false.
    apply map_Exists_empty.
  - intros i x m' [flag acc] Hi [Hflag Hacc]. cbn [fst snd] in *.
    rewrite RemoveCommandFromList_filter. cbn [fst snd]. split.
    + rewrite Hflag. destruct (bool_decide (Exists (hasCommand cmd) x)) eqn:Hx.
      * symmetry. apply bool_decide_eq_true. apply map_Exists_insert; [done|].
        left. by apply bool_decide_eq_true in Hx.
      * apply bool_decide_ext. rewrite map_Exists_insert by done.
        apply bool_decide_eq_false in Hx. tauto.
    + intros k. rewrite putList_lookup, lookup_insert.
      case_decide; [|apply Hacc].
      unfold keptList. by destruct (otherCommands cmd x).
Qed.

Lemma RemoveActionFromKeyMap_omap cmd (m : gmap CKeySet KeyBindingList) :
  RemoveActionFromKeyMap cmd m
  = (bool_decide (map_Exists (λ _ l, Exists (hasCommand cmd) l) m),
     omap (keptList cmd) m).
Proof.
  unfold RemoveActionFromKeyMap.
  destruct (RemoveActionFromKeyMap_fold cmd m m) as [Hflag Hacc].
  destruct (map_fold _ _ _) as [flag acc]. cbn [fst snd] in *.
  f_equal; [done|]. apply map_eq. intros k.
  rewrite Hacc, lookup_omap. by destruct (m !! k).
Qed.

(** ** unbindaction *)

(** With the command somewhere in the key-code map, [UnBindAction]
    cleans that map and returns; the scan-code map is not looked at. *)
Lemma UnBindAction_found_in_code st cmd :
  map_Exists (λ _ l, Exists (hasCommand cmd) l) (codeBindings st) →
  UnBindAction st cmd
  = (true, mkState (omap (keptList cmd) (codeBindings st)) (scanBindings st)
                   (bindingsCount st) (statefulCommands st) (keySyms st)).
Proof.
  intros Hex. unfold UnBindAction. rewrite RemoveActionFromKeyMap_omap.
  by rewrite bool_decide_eq_true_2.
Qed.

(** Without it there, the scan-code map is cleaned and decides the
    result. *)
Lemma UnBindAction_not_in_code st cmd :
  ¬ map_Exists (λ _ l, Exists (hasCommand cmd) l) (codeBindings st) →
  UnBindAction st cmd
  = (bool_decide (map_Exists (λ _ l, Exists (hasCommand cmd) l) (scanBindings st)),
     mkState (omap (keptList cmd) (codeBindings st))
             (omap (keptList cmd) (scanBindings st))
             (bindingsCount st) (statefulCommands st) (keySyms st)).
Proof.
  intros Hex. unfold UnBindAction. rewrite RemoveActionFromKeyMap_omap.
  rewrite bool_decide_eq_false_2 by done.
  cbn [setBindings scanBindings bindingsCount].
  by rewrite RemoveActionFromKeyMap_omap.
Qed.

(** ** The mutators keep the invariant *)

Lemma store_wf_set isKeyCode (m : gmap CKeySet KeyBindingList) count st :
  map_Forall (list_wf count) m →
  bindingsCount st ≤ count →
  store_wf st →
  store_wf (setBindings isKeyCode m count st).
Proof.
  intros Hm Hle [Hc Hs]. unfold store_wf, setBindings.
  destruct isKeyCode; cbn; (split; [|]); try done;
    (eapply map_Forall_impl; [eassumption|]);
    intros; by eapply list_wf_mono.
Qed.

Lemma store_wf_get isKeyCode st :
  store_wf st → map_Forall (list_wf (bindingsCount st)) (getBindings isKeyCode st).
Proof. intros [? ?]. by destruct isKeyCode. Qed.

Lemma AddActionToKeyMap_wf (m m' : gmap CKeySet KeyBindingList) kb count count' :
  map_Forall (list_wf count) m →
  INT_MIN ≤ count < INT_MAX →
  AddActionToKeyMap m kb count = (m', count') →
  count ≤ count' ∧ map_Forall (list_wf count') m'.
Proof.
  intros Hm Hcount. unfold AddActionToKeyMap. rewrite to_int_succ by done.
  destruct (last (keyChain kb)) as [ks|] eqn:Hlast.
  2:{ intros [= <- <-]. split; [lia|done]. }
  assert (map_Forall (list_wf (count + 1)) m) as Hm'.
  { eapply map_Forall_impl; [exact Hm|]. intros; eapply list_wf_mono; [|done]. lia. }
  destruct (m !! ks) as [l|] eqn:Hl.
  - destruct (list_find (sameLine kb) l) eqn:Hfind.
    + intros [= <- <-]. split; [lia|done].
    + intros [= <- <-]. split; [lia|].
      apply map_Forall_insert_2; [|done].
      apply list_wf_snoc; [|done..]. by apply (Hm ks).
  - intros [= <- <-]. split; [lia|].
    apply map_Forall_insert_2; [|done].
    apply (list_wf_snoc count ks [] kb); [apply list_wf_nil|done..].
Qed.

Lemma last_setBack kc ks : last (setBack kc ks) = Some ks.
Proof. unfold setBack. apply last_snoc. Qed.

Lemma Bind_wf st keystr ln :
  store_wf st → INT_MIN ≤ bindingsCount st < INT_MAX →
  store_wf (Bind st keystr ln).2.
Proof.
  intros Hwf Hcount. unfold Bind.
  destruct (decide (command (parseAction ln) = EmptyString)); [done|].
  destruct (ParseKeyChain _ _) as [kc|]; [|done].
  destruct (last kc) as [ks0|]; [|done].
  set (ks := if decide _ then _ else _).
  destruct (AddActionToKeyMap _ _ _) as [m' c'] eqn:Hadd. cbn [snd].
  apply AddActionToKeyMap_wf in Hadd as [Hle Hm']; [|by apply store_wf_get|done].
  by apply store_wf_set.
Qed.

Lemma putList_wf ks (l : KeyBindingList) (m : gmap CKeySet KeyBindingList) count :
  map_Forall (list_wf count) m → list_wf count ks l →
  map_Forall (list_wf count) (putList ks l m).
Proof.
  intros Hm Hl. unfold putList. destruct l.
  - by apply map_Forall_delete.
  - by apply map_Forall_insert_2.
Qed.

Lemma otherCommands_sublist cmd (l : KeyBindingList) :
  otherCommands cmd l `sublist_of` l.
Proof. apply sublist_filter. Qed.

Lemma UnBind_wf st keystr cmd : store_wf st → store_wf (UnBind st keystr cmd).2.
Proof.
  intros Hwf. unfold UnBind.
  destruct (Parse _ _) as [ks|]; [|done].
  destruct (getBindings _ _ !! ks) as [l|] eqn:Hl; [|done].
  rewrite RemoveCommandFromList_filter. cbn [snd].
  apply store_wf_set; [|lia|done].
  apply putList_wf; [by apply store_wf_get|].
  eapply list_wf_sublist; [apply otherCommands_sublist|].
  by apply (store_wf_get (IsKeyCode ks) st Hwf ks).
Qed.

Lemma UnBindKeyset_wf st keystr : store_wf st → store_wf (UnBindKeyset st keystr).2.
Proof.
  intros Hwf. unfold UnBindKeyset.
  destruct (Parse _ _) as [ks|]; [|done].
  destruct (getBindings _ _ !! ks) as [l|] eqn:Hl; [|done].
  cbn [snd]. apply store_wf_set; [|lia|done].
  apply map_Forall_delete. by apply store_wf_get.
Qed.

Lemma omap_keptList_wf cmd (m : gmap CKeySet KeyBindingList) count :
  map_Forall (list_wf count) m →
  map_Forall (list_wf count) (omap (keptList cmd) m).
Proof.
  intros Hm k l' (l & Hkept & Hl)%lookup_omap_Some.
  unfold keptList in Hkept.
  assert (l' = otherCommands cmd l) as ->
    by (destruct (otherCommands cmd l); congruence).
  eapply list_wf_sublist; [apply otherCommands_sublist|]. by apply (Hm k).
Qed.

Lemma UnBindAction_wf st cmd : store_wf st → store_wf (UnBindAction st cmd).2.
Proof.
  intros Hwf. unfold UnBindAction.
  rewrite RemoveActionFromKeyMap_omap.
  assert (store_wf (setBindings true (omap (keptList cmd) (codeBindings st))
                                (bindingsCount st) st)) as Hwf1.
  { apply store_wf_set; [|lia|done]. apply omap_keptList_wf, Hwf. }
  case_match; [done|].
  cbn [scanBindings setBindings bindingsCount].
  rewrite RemoveActionFromKeyMap_omap. cbn [snd].
  apply (store_wf_set false); [|cbn; lia|done].
  apply omap_keptList_wf, Hwf.
Qed.

Lemma empty_wf st :
  codeBindings st = ∅ → scanBindings st = ∅ → store_wf st.
Proof. intros Hc Hs. unfold store_wf. rewrite Hc, Hs. split; apply map_Forall_empty. Qed.

Lemma unbindall_wf st : store_wf (ExecuteCommand_unbindall st).
Proof.
  unfold ExecuteCommand_unbindall. apply Bind_wf; [by apply empty_wf|].
  cbn. unfold INT_MIN, INT_MAX. lia.
Qed.

(** While the counter has not overflowed the invariant holds. *)
Lemma counted_wf st : counted st → store_wf st.
Proof.
  induction 1;
    eauto using empty_wf, Bind_wf, UnBind_wf, UnBindKeyset_wf,
                UnBindAction_wf, unbindall_wf.
Qed.

Lemma counted_reachable st : counted st → reachable st.
Proof. induction 1; eauto using reachable. Qed.

(** ** What holds whatever the counter did *)

Lemma store_wf_lines st : store_wf st → store_lines st.
Proof.
  intros [Hc Hs]. split; (eapply map_Forall_impl; [eassumption|]);
    intros ks l (Hall & _ & Hnd); (split; [|done]);
    (eapply Forall_impl; [exact Hall|]); by intros kb [? _].
Qed.

Lemma store_lines_get isKeyCode st :
  store_lines st → map_Forall list_lines (getBindings isKeyCode st).
Proof. intros [? ?]. by destruct isKeyCode. Qed.

Lemma store_lines_set isKeyCode (m : gmap CKeySet KeyBindingList) count st :
  map_Forall list_lines m → store_lines st →
  store_lines (setBindings isKeyCode m count st).
Proof. intros Hm [Hc Hs]. by destruct isKeyCode. Qed.

Lemma list_lines_sublist ks (l l' : KeyBindingList) :
  l' `sublist_of` l → list_lines ks l → list_lines ks l'.
Proof.
  intros Hsub (Hall & Hnd). split.
  - rewrite Forall_forall in *. eauto using elem_of_sublist.
  - eapply sublist_NoDup; [exact Hnd|]. by apply fmap_sublist.
Qed.

Lemma list_lines_snoc ks (l : KeyBindingList) kb i :
  list_lines ks l →
  last (keyChain kb) = Some ks →
  list_find (sameLine kb) l = None →
  list_lines ks (l ++ [setIndex kb i]).
Proof.
  intros (Hall & Hnd) Hlast Hfind.
  apply list_find_None in Hfind. rewrite Forall_forall in Hfind.
  split.
  - apply Forall_app. split; [done|]. by apply Forall_singleton.
  - rewrite fmap_app. apply NoDup_app. split_and!; [done| |apply NoDup_singleton].
    intros s [x [-> Hx]]%list_elem_of_fmap Hs.
    apply list_elem_of_singleton in Hs. simpl in Hs.
    apply (Hfind x Hx). unfold sameLine. simpl. done.
Qed.

Lemma AddActionToKeyMap_lines (m : gmap CKeySet KeyBindingList) kb count :
  map_Forall list_lines m →
  map_Forall list_lines (AddActionToKeyMap m kb count).1.
Proof.
  intros Hm. unfold AddActionToKeyMap.
  destruct (last (keyChain kb)) as [ks|] eqn:Hlast; [|done].
  destruct (m !! ks) as [l|] eqn:Hl.
  - destruct (list_find (sameLine kb) l) eqn:Hfind; [done|]. cbn [fst].
    apply map_Forall_insert_2; [|done].
    apply list_lines_snoc; [|done..]. by apply (Hm ks).
  - cbn [fst]. apply map_Forall_insert_2; [|done].
    apply (list_lines_snoc ks [] kb); [|done..]. split; constructor.
Qed.

Lemma Bind_lines st keystr ln : store_lines st → store_lines (Bind st keystr ln).2.
Proof.
  intros Hwf. unfold Bind.
  destruct (decide (command (parseAction ln) = EmptyString)); [done|].
  destruct (ParseKeyChain _ _) as [kc|]; [|done].
  destruct (last kc) as [ks0|]; [|done].
  set (ks := if decide _ then _ else _).
  set (kb := mkKeyBinding _ _ _ _).
  pose proof (AddActionToKeyMap_lines (getBindings (IsKeyCode ks) st) kb
                (bindingsCount st) (store_lines_get _ st Hwf)) as Hadd.
  destruct (AddActionToKeyMap _ _ _) as [m' c']. cbn [fst snd] in *.
  by apply store_lines_set.
Qed.

Lemma empty_lines st :
  codeBindings st = ∅ → scanBindings st = ∅ → store_lines st.
Proof.
  intros Hc Hs. unfold store_lines. rewrite Hc, Hs. split; apply map_Forall_empty.
Qed.

Lemma UnBind_lines st keystr cmd :
  store_lines st → store_lines (UnBind st keystr cmd).2.
Proof.
  intros Hwf. unfold UnBind.
  destruct (Parse _ _) as [ks|]; [|done].
  destruct (getBindings _ _ !! ks) as [l|] eqn:Hl; [|done].
  rewrite RemoveCommandFromList_filter. cbn [snd].
  apply store_lines_set; [|done].
  pose proof (store_lines_get (IsKeyCode ks) st Hwf) as Hm.
  unfold putList. destruct (otherCommands cmd l) as [|x l'] eqn:Ho.
  - by apply map_Forall_delete.
  - apply map_Forall_insert_2; [|done]. rewrite <- Ho.
    eapply list_lines_sublist; [apply otherCommands_sublist|]. by apply (Hm ks).
Qed.

Lemma UnBindKeyset_lines st keystr :
  store_lines st → store_lines (UnBindKeyset st keystr).2.
Proof.
  intros Hwf. unfold UnBindKeyset.
  destruct (Parse _ _) as [ks|]; [|done].
  destruct (getBindings _ _ !! ks) as [l|] eqn:Hl; [|done].
  cbn [snd]. apply store_lines_set; [|done].
  apply map_Forall_delete. by apply store_lines_get.
Qed.

Lemma omap_keptList_lines cmd (m : gmap CKeySet KeyBindingList) :
  map_Forall list_lines m → map_Forall list_lines (omap (keptList cmd) m).
Proof.
  intros Hm k l' (l & Hkept & Hl)%lookup_omap_Some.
  unfold keptList in Hkept.
  assert (l' = otherCommands cmd l) as ->
    by (destruct (otherCommands cmd l); congruence).
  eapply list_lines_sublist; [apply otherCommands_sublist|]. by apply (Hm k).
Qed.

Lemma UnBindAction_lines st cmd :
  store_lines st → store_lines (UnBindAction st cmd).2.
Proof.
  intros Hwf. unfold UnBindAction.
  rewrite RemoveActionFromKeyMap_omap.
  assert (store_lines (setBindings true (omap (keptList cmd) (codeBindings st))
                                   (bindingsCount st) st)) as Hwf1.
  { apply store_lines_set; [|done]. apply omap_keptList_lines, Hwf. }
  case_match; [done|].
  cbn [scanBindings setBindings bindingsCount].
  rewrite RemoveActionFromKeyMap_omap. cbn [snd].
  apply (store_lines_set false); [|done].
  apply omap_keptList_lines, Hwf.
Qed.

Lemma reachable_lines st : reachable st → store_lines st.
Proof.
  induction 1;
    eauto using empty_lines, Bind_lines, UnBind_lines, UnBindKeyset_lines,
                UnBindAction_lines.
Qed.

(** ** The order of a resolution result *)

Hypothesis AnyMod_SetAnyBit : ∀ ks, AnyMod (SetAnyBit ks) = true.

Lemma candidates_nil w : candidates w [].
Proof. split_and!; constructor. Qed.

Lemma candidates_sublist w (l l' : KeyBindingList) :
  l' `sublist_of` l → candidates w l → candidates w l'.
Proof.
  intros Hsub (Hall & Hsort & Hnd). split_and!.
  - rewrite Forall_forall in *. eauto using elem_of_sublist.
  - eauto using StronglySorted_sublist.
  - eapply sublist_NoDup; [exact Hnd|]. by apply fmap_sublist.
Qed.

Lemma list_wf_candidates count ks (l : KeyBindingList) :
  list_wf count ks l → candidates (AnyMod ks) l.
Proof.
  intros (Hall & Hsort & Hnd). split_and!; [|done..].
  eapply Forall_impl; [exact Hall|]. intros kb [Hlast _].
  unfold triggerAnyMod. by rewrite Hlast.
Qed.

Lemma lookup_candidates st (back : CKeySet) kc (forceAny : bool) :
  store_wf st →
  candidates (AnyMod (if forceAny then SetAnyBit back else back))
             (FilterByKeychain (GetKeyBindingList_ks st back forceAny) kc []).
Proof.
  intros Hwf. rewrite FilterByKeychain_filter. cbn [app].
  eapply candidates_sublist; [apply sublist_filter|].
  unfold GetKeyBindingList_ks.
  destruct (Key back <? 0); [apply candidates_nil|].
  set (toUse := if forceAny then SetAnyBit back else back).
  destruct (_ !! toUse) as [l|] eqn:Hl; [|apply candidates_nil].
  eapply list_wf_candidates.
  apply (store_wf_get (IsKeyCode back) st Hwf toUse l). by destruct (IsKeyCode back).
Qed.

Lemma merge_candidates w A B out :
  candidates w A → candidates w B →
  ∃ m, MergeActionListsByTrigger A B out = out ++ m ∧
       Forall (λ x, triggerAnyMod x = w) m ∧
       StronglySorted (λ x y, bindingIndex x ≤ bindingIndex y) m.
Proof.
  intros HA HB.
  pose proof (candidates_sublist w A _ (sublist_filter (survivesA B) A) HA)
    as (HwA & HsA & _).
  pose proof (candidates_sublist w B _ (sublist_filter (survivesB A) B) HB)
    as (HwB & HsB & _).
  destruct HA as (_ & _ & HndA), HB as (_ & _ & HndB).
  eexists. split; [by apply MergeActionListsByTrigger_closed|]. split.
  - rewrite std_merge_Permutation. by apply Forall_app.
  - apply (std_merge_sorted w); try done;
      (eapply StronglySorted_mono; [|eassumption]); intros; simpl in *; lia.
Qed.

(** C2.  In a state the program reaches while its binding counter, an
    [int], has not overflowed, the result of resolving two live chains
    has every binding with an exact-modifier trigger chord before every
    binding with a wildcard trigger chord, and of two bindings of equal
    wildcard status the one with the lower binding index first; the
    states cover every order of inserting and removing bindings. *)
Theorem resolution_order st kc sc :
  counted st → kc ≠ [] → sc ≠ [] →
  ∃ r, GetKeyBindingList_chains st kc sc = Some r ∧
       ∀ i j a b, r !! i = Some a → r !! j = Some b →
         (triggerAnyMod a = false → triggerAnyMod b = true → (i < j)%nat) ∧
         (triggerAnyMod a = triggerAnyMod b →
          bindingIndex a < bindingIndex b → (i < j)%nat).
Proof.
  intros Hwf%counted_wf Hkc Hsc. unfold GetKeyBindingList_chains.
  destruct (last kc) as [kback|] eqn:Hk; [|by apply last_None in Hk].
  destruct (last sc) as [sback|] eqn:Hs; [|by apply last_None in Hs].
  set (k1 := if negb (AnyMod kback) then _ else _).
  set (s1 := if negb (AnyMod sback) then _ else _).
  assert (candidates false k1) as Hk1.
  { subst k1. pose proof (lookup_candidates st kback kc false Hwf) as Hc.
    cbv iota in Hc. destruct (AnyMod kback); [apply candidates_nil|exact Hc]. }
  assert (candidates false s1) as Hs1.
  { subst s1. pose proof (lookup_candidates st sback sc false Hwf) as Hc.
    cbv iota in Hc. destruct (AnyMod sback); [apply candidates_nil|exact Hc]. }
  destruct (merge_candidates false k1 s1 [] Hk1 Hs1) as (m1 & -> & Hw1 & Hsort1).
  pose proof (lookup_candidates st kback kc true Hwf) as Hk2.
  pose proof (lookup_candidates st sback sc true Hwf) as Hs2.
  cbv iota in Hk2, Hs2. rewrite AnyMod_SetAnyBit in Hk2, Hs2.
  destruct (merge_candidates true _ _ ([] ++ m1) Hk2 Hs2) as (m2 & -> & Hw2 & Hsort2).
  eexists. split; [done|]. cbn [app].
  rewrite Forall_forall in Hw1, Hw2.
  intros i j a b Ha Hb.
  apply lookup_app_Some in Ha as [Ha|[Hi Ha]], Hb as [Hb|[Hj Hb]].
  - pose proof (Hw1 a (list_elem_of_lookup_2 _ _ _ Ha)).
    pose proof (Hw1 b (list_elem_of_lookup_2 _ _ _ Hb)).
    split; [congruence|]. intros _ Hlt.
    destruct (decide (i < j)%nat); [done|]. exfalso.
    destruct (decide (i = j)) as [->|].
    + assert (a = b) by congruence. subst. lia.
    + pose proof (StronglySorted_lookup _ m1 j i b a Hsort1 Hb Ha ltac:(lia)).
      simpl in *. lia.
  - apply lookup_lt_Some in Ha. split; intros; lia.
  - pose proof (Hw2 a (list_elem_of_lookup_2 _ _ _ Ha)).
    pose proof (Hw1 b (list_elem_of_lookup_2 _ _ _ Hb)).
    split; congruence.
  - pose proof (Hw2 a (list_elem_of_lookup_2 _ _ _ Ha)).
    pose proof (Hw2 b (list_elem_of_lookup_2 _ _ _ Hb)).
    split; [congruence|]. intros _ Hlt.
    destruct (decide (i < j)%nat); [done|]. exfalso.
    destruct (decide (i = j)) as [->|].
    + assert (a = b) by congruence. subst. lia.
    + pose proof (StronglySorted_lookup _ m2 (j - length m1) (i - length m1)
                    b a Hsort2 Hb Ha ltac:(lia)).
      simpl in *. lia.
Qed.

(** ** Lookup with an invalid key *)

(** C9.  For a chord whose key identifier is negative the lookup gives
    the empty list, with and without [forceAny] and whatever the state
    holds: the result does not depend on the two maps. *)
Theorem GetKeyBindingList_negative_key st ks (forceAny : bool) :
  Key ks < 0 → GetKeyBindingList_ks st ks forceAny = [].
Proof.
  intros Hneg. unfold GetKeyBindingList_ks.
  by rewrite (proj2 (Z.ltb_lt _ _) Hneg).
Qed.

(** ** Insertion *)

Lemma getBindings_setBindings isKeyCode (m : gmap CKeySet KeyBindingList) count st :
  getBindings isKeyCode (setBindings isKeyCode m count st) = m.
Proof. by destruct isKeyCode. Qed.

Lemma getBindings_setBindings_other isKeyCode
    (m : gmap CKeySet KeyBindingList) count st :
  getBindings (negb isKeyCode) (setBindings isKeyCode m count st)
  = getBindings (negb isKeyCode) st.
Proof. by destruct isKeyCode. Qed.


Lemma AddActionToKeyMap_present (m : gmap CKeySet KeyBindingList) kb count ks l :
  last (keyChain kb) = Some ks → m !! ks = Some l → Exists (sameLine kb) l →
  AddActionToKeyMap m kb count = (m, count).
Proof.
  intros Hlast Hl Hex. unfold AddActionToKeyMap. rewrite Hlast, Hl.
  destruct (list_find (sameLine kb) l) eqn:Hfind; [done|].
  apply list_find_None in Hfind. rewrite Forall_forall in Hfind.
  apply Exists_exists in Hex as (x & Hx & Hs). by destruct (Hfind x Hx).
Qed.

Lemma AddActionToKeyMap_absent (m : gmap CKeySet KeyBindingList) kb count ks :
  last (keyChain kb) = Some ks →
  ¬ Exists (sameLine kb) (default [] (m !! ks)) →
  AddActionToKeyMap m kb count
  = (<[ks := default [] (m !! ks) ++ [setIndex kb (to_int (count + 1))]]> m,
     to_int (count + 1)).
Proof.
  intros Hlast Hex. unfold AddActionToKeyMap. rewrite Hlast.
  destruct (m !! ks) as [l|] eqn:Hl; [|done]. cbn in Hex.
  destruct (list_find (sameLine kb) l) as [[i x]|] eqn:Hfind; [|done].
  apply list_find_Some in Hfind as (Hi & Hs & _).
  destruct Hex. apply Exists_exists. eauto using list_elem_of_lookup_2.
Qed.

(** After one insertion the line is in the list, so a second one does
    nothing. *)
Lemma AddActionToKeyMap_twice (m : gmap CKeySet KeyBindingList) kb count :
  let r := AddActionToKeyMap m kb count in
  AddActionToKeyMap r.1 kb r.2 = r.
Proof.
  cbv zeta. destruct (last (keyChain kb)) as [ks|] eqn:Hlast.
  2:{ unfold AddActionToKeyMap. by rewrite !Hlast. }
  destruct (decide (Exists (sameLine kb) (default [] (m !! ks)))) as [Hex|Hex].
  - destruct (m !! ks) as [l|] eqn:Hl; [|by apply Exists_nil in Hex].
    rewrite (AddActionToKeyMap_present m kb count ks l) by done. cbn [fst snd].
    by apply (AddActionToKeyMap_present m kb count ks l).
  - rewrite (AddActionToKeyMap_absent m kb count ks) by done. cbn [fst snd].
    eapply AddActionToKeyMap_present; [done|apply lookup_insert_eq|].
    apply Exists_app. right. by left.
Qed.

(** C4.  Insertion into a keyspace map: when the list of the binding's
    keyset already holds its source line, map and counter stay as they
    are; otherwise the counter is incremented and the binding is
    appended with the new counter as its index, its action, chain and
    shortcut text being what they were.  The counter is an [int]: while
    it is below [INT_MAX] the new index is the old counter plus one,
    and it differs from every index in the map that is at most the old
    counter.  Inserting the same binding any number of times, at least
    once, equals inserting it once and leaves its line exactly once in
    a list that held no line twice. *)
Theorem AddActionToKeyMap_idempotent
    (m : gmap CKeySet KeyBindingList) kb count ks :
  last (keyChain kb) = Some ks →
  let l := default [] (m !! ks) in
  (Exists (sameLine kb) l → AddActionToKeyMap m kb count = (m, count)) ∧
  (¬ Exists (sameLine kb) l →
   let index := to_int (count + 1) in
   AddActionToKeyMap m kb count
   = (<[ks := l ++ [mkKeyBinding (action kb) (keyChain kb) (boundWith kb)
                                 index]]> m, index) ∧
   (INT_MIN ≤ count < INT_MAX →
    index = count + 1 ∧
    ∀ k l' x, m !! k = Some l' → x ∈ l' →
              bindingIndex x ≤ count → bindingIndex x ≠ index)) ∧
  ∀ n, let r := Nat.iter (S n) (λ s, AddActionToKeyMap s.1 kb s.2) (m, count) in
       r = AddActionToKeyMap m kb count ∧
       (NoDup (lineOf <$> l) →
        length (filter (sameLine kb) (default [] (r.1 !! ks))) = 1%nat).
Proof.
  intros Hlast l. split_and!.
  - intros Hex. subst l. destruct (m !! ks) as [l|] eqn:Hl.
    + by apply (AddActionToKeyMap_present m kb count ks l).
    + by apply Exists_nil in Hex.
  - intros Hex. cbv zeta. split; [by apply AddActionToKeyMap_absent|].
    intros Hcount. rewrite to_int_succ by done. split; [done|].
    intros k l' x _ _ Hle. lia.
  - intros n. cbv zeta.
    assert (Nat.iter (S n) (λ s, AddActionToKeyMap s.1 kb s.2) (m, count)
            = AddActionToKeyMap m kb count) as ->.
    { induction n as [|n IH]; [done|].
      rewrite Nat.iter_succ, IH. apply AddActionToKeyMap_twice. }
    split; [done|]. intros Hnd.
    destruct (decide (Exists (sameLine kb) l)) as [Hex|Hex].
    + subst l. destruct (m !! ks) as [l|] eqn:Hl; [|by apply Exists_nil in Hex].
      rewrite (AddActionToKeyMap_present m kb count ks l) by done.
      cbn [fst]. rewrite Hl. cbn in *.
      apply Exists_exists in Hex as (x & Hx & Hs).
      rewrite (list_filter_iff _ (λ y, lineOf y = lineOf x)).
      * by rewrite filter_line_singleton.
      * intros y. unfold sameLine, lineOf in *. split; congruence.
    + rewrite (AddActionToKeyMap_absent m kb count ks) by done.
      cbn [fst]. rewrite lookup_insert_eq. unfold default at 1. cbn [from_option id].
      rewrite filter_app, filter_cons_True by done.
      rewrite filter_none_in; [done|].
      intros x Hx Hs. apply Hex, Exists_exists. eauto.
Qed.

(** The same holds one level up: a second [Bind] of the same shortcut and
    action line returns what the first returned and leaves its state. *)
Lemma Bind_twice st keystr ln :
  Bind (Bind st keystr ln).2 keystr ln = Bind st keystr ln.
Proof.
  unfold Bind.
  destruct (decide (command (parseAction ln) = EmptyString)) as [Hc|Hc];
    [done|].
  destruct (ParseKeyChain (keySyms st) (list_ascii_of_string keystr))
    as [kc|] eqn:Hparse.
  2:{ cbn [snd]. by rewrite Hparse. }
  destruct (last kc) as [ks0|] eqn:Hlast.
  2:{ cbn [snd]. by rewrite Hparse, Hlast. }
  set (ks := if decide _ then _ else _).
  set (kb := mkKeyBinding _ _ _ _).
  pose proof (AddActionToKeyMap_twice (getBindings (IsKeyCode ks) st) kb
                (bindingsCount st)) as Htwice. cbv zeta in Htwice.
  destruct (AddActionToKeyMap (getBindings (IsKeyCode ks) st) kb (bindingsCount st))
    as [m' c'] eqn:Hadd. cbn [fst snd] in *.
  assert (keySyms (setBindings (IsKeyCode ks) m' c' st) = keySyms st) as ->
    by by destruct (IsKeyCode ks).
  assert (statefulCommands (setBindings (IsKeyCode ks) m' c' st)
          = statefulCommands st) as -> by by destruct (IsKeyCode ks).
  assert (bindingsCount (setBindings (IsKeyCode ks) m' c' st) = c') as ->
    by by destruct (IsKeyCode ks).
  rewrite Hparse, Hlast.
  fold ks. fold kb. rewrite getBindings_setBindings, Htwice.
  f_equal. by destruct (IsKeyCode ks).
Qed.

(** ** Failed binds *)

(** C5.  When the command of the action is empty, or the shortcut does
    not parse to a chain with at least one chord, [Bind] returns false
    and the state is the one before the call: both maps, the counter and
    everything else. *)
Theorem Bind_failure_atomic st keystr ln :
  command (parseAction ln) = EmptyString ∨
  (∀ kc, ParseKeyChain (keySyms st) (list_ascii_of_string keystr) = Some kc →
         kc = []) →
  Bind st keystr ln = (false, st).
Proof.
  intros Hfail. unfold Bind.
  destruct (decide (command (parseAction ln) = EmptyString)) as [|Hcmd]; [done|].
  destruct Hfail as [?|Hparse]; [done|].
  destruct (ParseKeyChain _ _) as [kc|]; [|done].
  by rewrite (Hparse kc eq_refl).
Qed.

(** ** Removal from one list *)

(** C10.  [UnBind] on a keyset that has a list: what is left of the list
    is the bindings with another command, unchanged and in their order
    (an empty rest erases the entry); every other keyset of that
    keyspace map, the whole other map and the counter are as before. *)
Theorem UnBind_frame st keystr cmd ks (l : KeyBindingList) :
  Parse (keySyms st) (list_ascii_of_string keystr) = Some ks →
  getBindings (IsKeyCode ks) st !! ks = Some l →
  let st' := (UnBind st keystr cmd).2 in
  (RemoveCommandFromList l cmd).2
    = filter (λ kb, command (action kb) ≠ cmd) l ∧
  getBindings (IsKeyCode ks) st' !! ks
    = match (RemoveCommandFromList l cmd).2 with
      | [] => None
      | l' => Some l'
      end ∧
  (∀ ks', ks' ≠ ks →
     getBindings (IsKeyCode ks) st' !! ks' = getBindings (IsKeyCode ks) st !! ks') ∧
  getBindings (negb (IsKeyCode ks)) st' = getBindings (negb (IsKeyCode ks)) st ∧
  bindingsCount st' = bindingsCount st.
Proof.
  intros Hparse Hl. cbv zeta. unfold UnBind. rewrite Hparse, Hl.
  rewrite RemoveCommandFromList_filter. cbn [snd].
  split_and!.
  - done.
  - destruct (IsKeyCode ks); cbn; rewrite putList_lookup, decide_True by done;
      by destruct (otherCommands cmd l).
  - intros ks' Hne.
    destruct (IsKeyCode ks); cbn; rewrite putList_lookup; by rewrite decide_False.
  - by destruct (IsKeyCode ks).
  - by destruct (IsKeyCode ks).
Qed.

(** ** Stateful commands *)

(** What a successful [Bind] leaves in the store: under the trigger
    chord, in the map of its keyspace, a binding with the source line
    of the action. *)
Lemma Bind_stored st keystr ln st' :
  store_lines st → Bind st keystr ln = (true, st') →
  ∃ kc ks l kb,
    ParseKeyChain (keySyms st) (list_ascii_of_string keystr) = Some kc ∧
    last kc = Some ks ∧
    let trigger :=
      if decide (command (parseAction ln) ∈ statefulCommands st)
      then SetAnyBit ks else ks in
    getBindings (IsKeyCode trigger) st' !! trigger = Some l ∧
    kb ∈ l ∧ lineOf kb = line (parseAction ln) ∧
    last (keyChain kb) = Some trigger.
Proof.
  intros Hwf. unfold Bind.
  destruct (decide (command (parseAction ln) = EmptyString)); [done|].
  destruct (ParseKeyChain _ _) as [kc|]; [|done].
  destruct (last kc) as [ks|] eqn:Hlast; [|done].
  set (trigger := if decide _ then _ else _).
  set (kb0 := mkKeyBinding _ _ _ _).
  assert (last (keyChain kb0) = Some trigger) as Hlast0 by apply last_setBack.
  set (m := getBindings (IsKeyCode trigger) st).
  destruct (decide (Exists (sameLine kb0) (default [] (m !! trigger)))) as [Hex|Hex].
  - destruct (m !! trigger) as [l|] eqn:Hl; [|by apply Exists_nil in Hex].
    rewrite (AddActionToKeyMap_present m kb0 _ trigger l) by done.
    intros [= <-]. exists kc, ks, l.
    cbn in Hex. apply Exists_exists in Hex as (kb & Hkb & Hs).
    exists kb. rewrite getBindings_setBindings. split_and!; try done.
    pose proof (store_lines_get (IsKeyCode trigger) st Hwf trigger l Hl)
      as (Hall & _).
    rewrite Forall_forall in Hall. by apply Hall.
  - rewrite (AddActionToKeyMap_absent m kb0 _ trigger) by done.
    intros [= <-].
    exists kc, ks,
      (default [] (m !! trigger) ++ [setIndex kb0 (to_int (bindingsCount st + 1))]),
      (setIndex kb0 (to_int (bindingsCount st + 1))).
    rewrite getBindings_setBindings, lookup_insert_eq.
    split_and!; try done.
    apply elem_of_app. right. by left.
Qed.

(** C7.  After a successful [Bind] in a reachable state: for a command
    in the stateful set the binding of that action is stored under the
    parsed trigger chord with the Any bit set, and the trigger chord of
    its key chain has the wildcard modifier, whatever modifiers the
    shortcut had; for any other command it is stored under the trigger
    chord as parsed. *)
Theorem Bind_stateful_wildcard st keystr ln st' :
  reachable st → Bind st keystr ln = (true, st') →
  ∃ kc ks trigger l kb,
    ParseKeyChain (keySyms st) (list_ascii_of_string keystr) = Some kc ∧
    last kc = Some ks ∧
    getBindings (IsKeyCode trigger) st' !! trigger = Some l ∧
    kb ∈ l ∧ lineOf kb = line (parseAction ln) ∧
    last (keyChain kb) = Some trigger ∧
    (command (parseAction ln) ∈ statefulCommands st →
     trigger = SetAnyBit ks ∧ triggerAnyMod kb = true) ∧
    (command (parseAction ln) ∉ statefulCommands st → trigger = ks).
Proof.
  intros Hwf%reachable_lines Hbind.
  destruct (Bind_stored st keystr ln st' Hwf Hbind)
    as (kc & ks & l & kb & Hparse & Hlast & Hl & Hkb & Hline & Htrig).
  cbv zeta in *. eexists kc, ks, _, l, kb. split_and!; try done.
  - intros Hin. rewrite decide_True in Htrig by done. rewrite decide_True by done.
    split; [done|]. unfold triggerAnyMod. rewrite Htrig. apply AnyMod_SetAnyBit.
  - intros Hin. by rewrite decide_False by done.
Qed.

Lemma Init_stateful st :
  "moveforward"%string ∈ statefulCommands (Init st) ∧
  "drawinmap"%string ∈ statefulCommands (Init st).
Proof.
  unfold Init. cbn [statefulCommands].
  split; apply elem_of_union_r; by vm_compute.
Qed.

(** ** unbindall *)

Lemma getline_no_comma n (s : cstring) :
  comma ∉ s → (length s ≤ n)%nat → getline n s = (s, [], false).
Proof.
  revert n. induction s as [|c s IH]; intros n Hc Hn; [done|].
  apply not_elem_of_cons in Hc as [Hc Hs]. cbn [getline].
  rewrite decide_False by done.
  destruct n as [|n]; [cbn in Hn; lia|].
  rewrite IH; [done..|]. cbn in Hn. lia.
Qed.

Lemma ParseSingleChain_single (syms : KeySyms) (s : cstring) :
  comma ∉ s → (length s ≤ 255)%nat →
  ParseSingleChain syms s = (λ ks, [ks]) <$> Parse syms (c_str s).
Proof.
  intros Hc Hn. unfold ParseSingleChain. cbn [ParseSingleChain_loop].
  rewrite getline_no_comma by done. cbv zeta.
  by destruct (Parse syms (c_str s)).
Qed.

Lemma ParseKeyChain_parsed (syms : KeySyms) (s : cstring) kc :
  ParseSingleChain syms s = Some kc → ParseKeyChain syms s = Some kc.
Proof. intros Hp. unfold ParseKeyChain. cbn [ParseKeyChain_rec]. by rewrite Hp. Qed.

Lemma ParseKeyChain_enter (syms : KeySyms) ks :
  Parse syms (list_ascii_of_string "enter") = Some ks →
  ParseKeyChain syms (list_ascii_of_string "enter") = Some [ks].
Proof.
  intros Hparse. apply ParseKeyChain_parsed.
  rewrite ParseSingleChain_single; [| |cbn; lia].
  { change (c_str (list_ascii_of_string "enter"))
      with (list_ascii_of_string "enter"). by rewrite Hparse. }
  apply (bool_decide_unpack (comma ∉ list_ascii_of_string "enter")).
  by vm_compute.
Qed.

(** The state right after the branch [unbindall]. *)
Lemma unbindall_state st ks :
  Parse (ResetSyms (keySyms st)) (list_ascii_of_string "enter") = Some ks →
  command (parseAction "chat") ≠ EmptyString →
  command (parseAction "chat") ∉ statefulCommands st →
  ExecuteCommand_unbindall st
  = setBindings (IsKeyCode ks)
      {[ ks := [mkKeyBinding (parseAction "chat") [ks] "enter" 1] ]} 1
      (mkState ∅ ∅ 0 (statefulCommands st) (ResetSyms (keySyms st))).
Proof.
  intros Hparse Hcmd Hst. unfold ExecuteCommand_unbindall, Bind.
  cbn [keySyms statefulCommands bindingsCount].
  rewrite decide_False by done.
  rewrite (ParseKeyChain_enter _ ks Hparse). cbn [last].
  rewrite decide_False by done.
  unfold AddActionToKeyMap. cbn [keyChain setBack removelast app last].
  assert (getBindings (IsKeyCode ks)
            (mkState ∅ ∅ 0 (statefulCommands st) (ResetSyms (keySyms st)))
          = ∅) as -> by by destruct (IsKeyCode ks).
  rewrite lookup_empty. cbn [snd]. by rewrite to_int_one, insert_empty.
Qed.

Lemma lookup_elem st (back : CKeySet) kc (forceAny : bool) x :
  x ∈ FilterByKeychain (GetKeyBindingList_ks st back forceAny) kc [] →
  ∃ isKeyCode k l, getBindings isKeyCode st !! k = Some l ∧ x ∈ l.
Proof.
  rewrite FilterByKeychain_filter. cbn [app].
  intros [_ Hx]%list_elem_of_filter. revert Hx. unfold GetKeyBindingList_ks.
  destruct (Key back <? 0); [by intros ?%elem_of_nil|].
  set (toUse := if forceAny then SetAnyBit back else back).
  destruct (_ !! toUse) as [l|] eqn:Hl; [|by intros ?%elem_of_nil].
  intros Hx. exists (IsKeyCode back), toUse, l. split; [|done].
  by destruct (IsKeyCode back).
Qed.

(** C6.  The branch [unbindall], when [enter] parses after the reset of
    the symbol tables to a chord [ks] without the wildcard and with a
    valid key, and [chat] is a command that is not stateful: afterwards
    the map of the keyspace of [ks] holds the one binding of [enter] to
    [chat] under index 1 (the counter was set to zero before it), the
    other map is empty and the counter is 1; and resolving a live chain
    that ends in that chord and fits it, with any scan-code chain,
    gives a result that holds this binding. *)
Theorem unbindall_baseline st ks kc sc :
  Parse (ResetSyms (keySyms st)) (list_ascii_of_string "enter") = Some ks →
  command (parseAction "chat") = "chat"%string →
  "chat"%string ∉ statefulCommands st →
  0 ≤ Key ks → AnyMod ks = false →
  last kc = Some ks → fit kc [ks] = true → sc ≠ [] →
  let st' := ExecuteCommand_unbindall st in
  let chat := mkKeyBinding (parseAction "chat") [ks] "enter" 1 in
  getBindings (IsKeyCode ks) st' = {[ ks := [chat] ]} ∧
  getBindings (negb (IsKeyCode ks)) st' = ∅ ∧
  bindingsCount st' = 1 ∧
  ∃ r, GetKeyBindingList_chains st' kc sc = Some r ∧ chat ∈ r.
Proof.
  intros Hparse Hcmd Hst Hkey Hany Hlast Hfit Hsc. cbv zeta.
  pose proof (unbindall_wf st) as Hwf.
  assert (command (parseAction "chat") ≠ EmptyString) as Hnonempty
    by by rewrite Hcmd.
  rewrite <- Hcmd in Hst.
  rewrite (unbindall_state st ks Hparse Hnonempty Hst) in Hwf |- *.
  set (chat := mkKeyBinding (parseAction "chat") [ks] "enter" 1).
  set (st' := setBindings _ _ _ _) in *.
  assert (getBindings (IsKeyCode ks) st' = {[ ks := [chat] ]}) as Hown
    by apply getBindings_setBindings.
  assert (getBindings (negb (IsKeyCode ks)) st' = ∅) as Hother
    by by destruct (IsKeyCode ks).
  split_and!; [done|done|by destruct (IsKeyCode ks)|].
  assert (∀ isKeyCode k l x,
            getBindings isKeyCode st' !! k = Some l → x ∈ l → x = chat) as Honly.
  { intros isKeyCode k l x Hl Hx.
    destruct (decide (isKeyCode = IsKeyCode ks)) as [->|Hne].
    - rewrite Hown in Hl. apply lookup_singleton_Some in Hl as [_ <-].
      by apply list_elem_of_singleton in Hx.
    - replace isKeyCode with (negb (IsKeyCode ks)) in Hl
        by (destruct isKeyCode, (IsKeyCode ks); done).
      by rewrite Hother in Hl. }
  unfold GetKeyBindingList_chains. rewrite Hlast.
  destruct (last sc) as [sback|] eqn:Hs; [|by apply last_None in Hs].
  rewrite Hany. cbn [negb].
  assert (FilterByKeychain (GetKeyBindingList_ks st' ks false) kc [] = [chat])
    as ->.
  { rewrite FilterByKeychain_filter. cbn [app]. unfold GetKeyBindingList_ks.
    rewrite (proj2 (Z.ltb_ge _ _) Hkey).
    change (if IsKeyCode ks then codeBindings st' else scanBindings st')
      with (getBindings (IsKeyCode ks) st').
    rewrite Hown, lookup_singleton_eq. by rewrite filter_cons_True. }
  set (s1 := if negb (AnyMod sback) then _ else _).
  assert (NoDup (lineOf <$> s1) ∧ ∀ x, x ∈ s1 → x = chat) as [Hnd1 Hs1].
  { subst s1. destruct (negb (AnyMod sback)).
    - split; [by apply (lookup_candidates st' sback sc false)|].
      intros x (c & k & l & Hl & Hx)%lookup_elem. eauto.
    - split; [constructor|]. by intros x ?%elem_of_nil. }
  rewrite (MergeActionListsByTrigger_closed [chat] s1 [])
    by (try done; apply NoDup_singleton).
  rewrite MergeActionListsByTrigger_closed
    by first [by apply (lookup_candidates st' ks kc true)
             | by apply (lookup_candidates st' sback sc true)].
  eexists. split; [done|].
  apply elem_of_app. left. cbn [app].
  rewrite std_merge_Permutation. apply elem_of_app. left.
  apply list_elem_of_filter. split; [|by left].
  unfold survivesA. rewrite Exists_exists. intros (b & Hb & _ & Hlt).
  rewrite (Hs1 b Hb) in Hlt. lia.
Qed.

(** ** The chain parser *)

Lemma getline_rest n (s tok rest : cstring) :
  getline n s = (tok, rest, true) → (length rest < length s)%nat.
Proof.
  revert n tok. induction s as [|c s IH]; intros n tok; [done|].
  cbn [getline]. destruct (decide (c = comma)).
  - intros [= _ <-]. cbn. lia.
  - destruct n as [|n]; [done|].
    destruct (getline n s) as [[tok' rest'] good'] eqn:Hg.
    intros [= _ <- ->]. apply IH in Hg. cbn. lia.
Qed.

(** The loop of [ParseSingleChain] never runs out of fuel. *)
Lemma ParseSingleChain_loop_fuel (syms : KeySyms) f1 f2 (s : cstring) kc :
  (length s < f1)%nat → (length s < f2)%nat →
  ParseSingleChain_loop f1 syms s kc = ParseSingleChain_loop f2 syms s kc.
Proof.
  revert f2 s kc. induction f1 as [|f1 IH]; intros f2 s kc Hf1 Hf2; [lia|].
  destruct f2 as [|f2]; [lia|]. cbn [ParseSingleChain_loop].
  destruct (getline 255 s) as [[tok rest] good] eqn:Hg. cbv zeta.
  destruct (Parse syms (c_str tok)); [|done].
  destruct good; [|done].
  apply getline_rest in Hg. apply IH; lia.
Qed.

Lemma first_some_app {X Y} (f : X → option Y) (l1 l2 : list X) :
  first_some f (l1 ++ l2)
  = match first_some f l1 with Some y => Some y | None => first_some f l2 end.
Proof.
  induction l1 as [|x l1 IH]; [done|]. cbn. by destruct (f x).
Qed.

Lemma first_some_fmap {X Y Z} (f : Y → option Z) (g : X → Y) (l : list X) :
  first_some f (g <$> l) = first_some (λ x, f (g x)) l.
Proof.
  induction l as [|x l IH]; [done|]. cbn. by rewrite IH.
Qed.

Lemma first_some_ext_in {X Y} (f g : X → option Y) (l : list X) :
  (∀ x, x ∈ l → f x = g x) → first_some f l = first_some g l.
Proof.
  induction l as [|x l IH]; intros Hfg; [done|]. cbn.
  rewrite (Hfg x) by left. rewrite IH; [done|]. intros; apply Hfg; by right.
Qed.

Lemma first_some_Some {X Y} (f : X → option Y) (l : list X) y :
  first_some f l = Some y ↔
  ∃ i x, l !! i = Some x ∧ f x = Some y ∧
         ∀ j x', l !! j = Some x' → (j < i)%nat → f x' = None.
Proof.
  induction l as [|x l IH]; cbn.
  - split; [done|]. by intros (i & x & Hi & _).
  - destruct (f x) as [y'|] eqn:Hx.
    + split.
      * intros [= ->]. exists 0%nat, x. split_and!; [done..|]. intros; lia.
      * intros ([|i] & x' & Hi & Hy & Hmin).
        -- cbn in Hi. congruence.
        -- specialize (Hmin 0%nat x eq_refl ltac:(lia)). congruence.
    + rewrite IH. split.
      * intros (i & x' & Hi & Hy & Hmin). exists (S i), x'.
        split_and!; [done..|]. intros [|j] x'' Hj Hlt; cbn in Hj.
        -- congruence.
        -- apply (Hmin j); [done|lia].
      * intros ([|i] & x' & Hi & Hy & Hmin); cbn in Hi.
        -- congruence.
        -- exists i, x'. split_and!; [done..|].
           intros j x'' Hj Hlt. apply (Hmin (S j)); [done|lia].
Qed.

Lemma first_some_None {X Y} (f : X → option Y) (l : list X) :
  first_some f l = None ↔ ∀ x, x ∈ l → f x = None.
Proof.
  induction l as [|x l IH]; cbn.
  - split; [|done]. by intros _ x ?%elem_of_nil.
  - destruct (f x) eqn:Hx.
    + split; [done|]. intros Hall. rewrite <- Hx. apply Hall. by left.
    + rewrite IH. split.
      * intros Hall x' [->|?]%elem_of_cons; auto.
      * intros Hall x' Hx'. apply Hall. by right.
Qed.

Lemma commas_app (l1 l2 : cstring) : commas (l1 ++ l2) = (commas l1 + commas l2)%nat.
Proof. unfold commas. by rewrite filter_app, length_app. Qed.

Lemma commas_none (l : cstring) : comma ∉ l → commas l = 0%nat.
Proof.
  intros Hc. unfold commas. rewrite filter_none_in; [done|].
  by intros x Hx ->.
Qed.

Lemma commas_cons_comma (l : cstring) : commas (comma :: l) = S (commas l).
Proof. unfold commas. by rewrite filter_cons_True. Qed.

Lemma reinterpret_nil_mask (l : cstring) : reinterpret l [] = l.
Proof.
  induction l as [|c l IH]; [done|]. cbn. rewrite IH. by destruct (decide _).
Qed.

Lemma reinterpret_false (l : cstring) n : reinterpret l (replicate n false) = l.
Proof.
  revert n. induction l as [|c l IH]; intros n; [done|]. cbn.
  destruct (decide (c = comma)); [|by rewrite IH].
  destruct n as [|n]; cbn; [by rewrite reinterpret_nil_mask|by rewrite IH].
Qed.

Lemma reinterpret_app (l1 l2 : cstring) (m1 m2 : list bool) :
  length m1 = commas l1 →
  reinterpret (l1 ++ l2) (m1 ++ m2) = reinterpret l1 m1 ++ reinterpret l2 m2.
Proof.
  revert m1. induction l1 as [|c l1 IH]; intros m1 Hlen.
  - by destruct m1.
  - cbn [app reinterpret]. destruct (decide (c = comma)) as [->|Hc].
    + rewrite commas_cons_comma in Hlen. destruct m1 as [|b m1]; [done|].
      cbn [app]. rewrite IH by (cbn in Hlen; lia).
      destruct b; [by rewrite <- app_assoc|done].
    + rewrite IH; [done|]. unfold commas in *.
      by rewrite filter_cons_False in Hlen.
Qed.

Lemma reinterpret_snoc (l1 l2 : cstring) (m : list bool) (b : bool) :
  comma ∉ l2 → length m = commas l1 →
  reinterpret (l1 ++ comma :: l2) (m ++ [b])
  = reinterpret l1 m ++ (if b then commaHex else [comma]) ++ l2.
Proof.
  intros Hc Hlen. rewrite reinterpret_app by done. f_equal.
  cbn [reinterpret]. rewrite decide_True by done.
  rewrite reinterpret_nil_mask. by destruct b.
Qed.

Lemma masks_length n (m : list bool) : m ∈ masks n → length m = n.
Proof.
  revert m. induction n as [|n IH]; intros m; cbn [masks].
  - by intros ->%list_elem_of_singleton.
  - intros [Hm|Hm]%elem_of_app;
      apply list_elem_of_fmap in Hm as (m' & -> & Hm');
      rewrite length_app, (IH m' Hm'); cbn; lia.
Qed.

Lemma masks_head n : ∃ tl, masks n = replicate n false :: tl.
Proof.
  induction n as [|n [tl IH]]; [by exists []|].
  cbn [masks]. rewrite IH. cbn [fmap list_fmap app].
  eexists. f_equal. by rewrite replicate_S_end.
Qed.

Lemma firstParsable_no_comma (syms : KeySyms) (l r : cstring) :
  comma ∉ l → firstParsable syms l r = ParseSingleChain syms (l ++ r).
Proof.
  intros Hc. unfold firstParsable. rewrite commas_none by done.
  cbn [masks first_some]. rewrite reinterpret_nil_mask.
  by destruct (ParseSingleChain syms (l ++ r)).
Qed.

Lemma firstParsable_head (syms : KeySyms) (l r : cstring) :
  firstParsable syms l r
  = match ParseSingleChain syms (l ++ r) with
    | Some kc => Some kc
    | None => firstParsable syms l r
    end.
Proof.
  unfold firstParsable. destruct (masks_head (commas l)) as [tl ->].
  cbn [first_some]. rewrite reinterpret_false.
  by destruct (ParseSingleChain syms (l ++ r)).
Qed.

Lemma firstParsable_snoc (syms : KeySyms) (l1 l2 r : cstring) :
  comma ∉ l2 →
  firstParsable syms (l1 ++ comma :: l2) r
  = match firstParsable syms l1 (comma :: l2 ++ r) with
    | Some kc => Some kc
    | None => firstParsable syms l1 (commaHex ++ l2 ++ r)
    end.
Proof.
  intros Hc. unfold firstParsable.
  rewrite commas_app, commas_cons_comma, (commas_none l2) by done.
  replace (commas l1 + 1)%nat with (S (commas l1)) by lia.
  cbn [masks]. rewrite first_some_app, !first_some_fmap.
  rewrite (first_some_ext_in _
             (λ mask, ParseSingleChain syms (reinterpret l1 mask ++ comma :: l2 ++ r))).
  2:{ intros m Hm%masks_length. rewrite reinterpret_snoc by done.
      by rewrite <- !app_assoc. }
  rewrite (first_some_ext_in
             (λ x, ParseSingleChain syms (reinterpret (l1 ++ comma :: l2) (x ++ [true]) ++ r))
             (λ mask, ParseSingleChain syms (reinterpret l1 mask ++ commaHex ++ l2 ++ r))).
  2:{ intros m Hm%masks_length. rewrite reinterpret_snoc by done.
      by rewrite <- !app_assoc. }
  done.
Qed.

Lemma rfind_below_app (l r : cstring) n :
  (n ≤ length l)%nat → rfind_below (l ++ r) n = rfind_below l n.
Proof.
  induction n as [|n IH]; intros Hn; [done|]. cbn [rfind_below].
  rewrite lookup_app_l by lia. rewrite IH by lia. done.
Qed.

Lemma rfind_below_None (l : cstring) :
  rfind_below l (length l) = None → comma ∉ l.
Proof.
  assert (∀ n, rfind_below l n = None →
               ∀ i, (i < n)%nat → l !! i ≠ Some comma) as Hgen.
  { induction n as [|n IH]; [intros; lia|]. cbn [rfind_below].
    destruct (decide (l !! n = Some comma)); [done|].
    intros Hn i Hi. destruct (decide (i = n)) as [->|]; [done|].
    apply IH; [done|lia]. }
  intros Hnone [i Hi]%list_elem_of_lookup.
  apply (Hgen _ Hnone i); [|done]. by apply lookup_lt_Some in Hi.
Qed.

Lemma rfind_below_Some (l : cstring) i :
  rfind_below l (length l) = Some i →
  ∃ l1 l2, l = l1 ++ comma :: l2 ∧ length l1 = i ∧ comma ∉ l2.
Proof.
  assert (∀ n, rfind_below l n = Some i →
               l !! i = Some comma ∧ (i < n)%nat ∧
               ∀ j, (i < j < n)%nat → l !! j ≠ Some comma) as Hgen.
  { induction n as [|n IH]; [done|]. cbn [rfind_below].
    destruct (decide (l !! n = Some comma)) as [Hn|Hn].
    - intros [= <-]. split_and!; [done|lia|intros; lia].
    - intros (Hi & Hlt & Hmax)%IH. split_and!; [done|lia|].
      intros j Hj. destruct (decide (j = n)) as [->|]; [done|].
      apply Hmax. lia. }
  intros (Hi & Hlt & Hmax)%Hgen.
  exists (take i l), (drop (S i) l). split_and!.
  - by rewrite take_drop_middle.
  - rewrite length_take. lia.
  - intros [j Hj]%list_elem_of_lookup. rewrite lookup_drop in Hj.
    apply (Hmax (S i + j)%nat); [|done]. apply lookup_lt_Some in Hj. lia.
Qed.

Lemma replace1_middle (l1 l2 repl : cstring) :
  replace1 (l1 ++ comma :: l2) (length l1) repl = l1 ++ repl ++ l2.
Proof.
  unfold replace1. rewrite take_app_length. do 2 f_equal.
  rewrite cons_middle, app_assoc. apply drop_app_length'.
  rewrite length_app. cbn. lia.
Qed.

(** The recursion of [ParseKeyChain] with the commas of [l] still to be
    tried and [r] settled: it yields the first reinterpretation that
    parses, and the fuel is enough. *)
Lemma ParseKeyChain_rec_firstParsable (syms : KeySyms) fuel (l r : cstring) pos :
  (commas l < fuel)%nat →
  rfind (l ++ r) pos = rfind_below l (length l) →
  ParseKeyChain_rec fuel syms (l ++ r) pos = firstParsable syms l r.
Proof.
  revert l r pos. induction fuel as [|fuel IH]; intros l r pos Hfuel Hpos; [lia|].
  cbn [ParseKeyChain_rec]. rewrite Hpos.
  destruct (rfind_below l (length l)) as [cpos|] eqn:Hfind.
  - apply rfind_below_Some in Hfind as (l1 & l2 & -> & Hlen & Hc).
    rewrite commas_app, commas_cons_comma in Hfuel.
    rewrite firstParsable_snoc by done.
    rewrite (firstParsable_head syms l1 (comma :: l2 ++ r)).
    rewrite <- app_assoc. cbn [app].
    destruct (ParseSingleChain syms (l1 ++ comma :: l2 ++ r)) as [kc|] eqn:Hp;
      [done|].
    assert (match cpos with
            | O => None
            | S nextpos =>
                ParseKeyChain_rec fuel syms (l1 ++ comma :: l2 ++ r) (Some nextpos)
            end = firstParsable syms l1 (comma :: l2 ++ r)) as ->.
    { destruct cpos as [|nextpos].
      - destruct l1; [|done]. rewrite firstParsable_no_comma by apply not_elem_of_nil.
        by rewrite Hp.
      - apply IH; [lia|]. unfold rfind.
        rewrite Nat.min_l by (rewrite length_app; lia).
        rewrite <- Hlen. by apply rfind_below_app. }
    destruct (firstParsable syms l1 (comma :: l2 ++ r)); [done|].
    subst cpos. rewrite (replace1_middle l1 (l2 ++ r) commaHex).
    apply IH; [lia|]. unfold rfind.
    rewrite Nat.min_l by (rewrite !length_app; cbn; lia).
    cbn [rfind_below]. rewrite lookup_app_r, Nat.sub_diag by lia.
    rewrite decide_False by done. by apply rfind_below_app.
  - apply rfind_below_None in Hfind. rewrite firstParsable_no_comma by done.
    by destruct (ParseSingleChain syms (l ++ r)).
Qed.

(** [ParseKeyChain] yields the first reinterpretation that parses. *)
Lemma ParseKeyChain_first_parsable (syms : KeySyms) (keystr : cstring) :
  ParseKeyChain syms keystr
  = first_some (λ mask, ParseSingleChain syms (reinterpret keystr mask))
               (masks (commas keystr)).
Proof.
  unfold ParseKeyChain.
  rewrite <- (app_nil_r keystr) at 2.
  rewrite ParseKeyChain_rec_firstParsable.
  - unfold firstParsable. apply first_some_ext_in. intros m _.
    by rewrite app_nil_r.
  - unfold commas. pose proof (length_filter (λ c, c = comma) keystr). lia.
  - by rewrite app_nil_r.
Qed.

Lemma maskNumber_snoc (m : list bool) (b : bool) :
  maskNumber (m ++ [b])
  = (maskNumber m + (if b then 2 ^ length m else 0))%nat.
Proof.
  induction m as [|c m IH]; cbn [app maskNumber length].
  - destruct b; cbn; lia.
  - rewrite IH, Nat.pow_succ_r'. destruct b, c; lia.
Qed.

Lemma maskNumber_bound (m : list bool) : (maskNumber m < 2 ^ length m)%nat.
Proof.
  induction m as [|c m IH]; cbn [maskNumber length]; [cbn; lia|].
  rewrite Nat.pow_succ_r'. destruct c; lia.
Qed.

Lemma masks_count n : length (masks n) = (2 ^ n)%nat.
Proof.
  induction n as [|n IH]; [done|].
  cbn [masks]. rewrite length_app, !length_fmap, IH, Nat.pow_succ_r'. lia.
Qed.

(** The masks are listed by their number. *)
Lemma masks_lookup n i (m : list bool) :
  masks n !! i = Some m ↔ length m = n ∧ maskNumber m = i.
Proof.
  revert i m. induction n as [|n IH]; intros i m.
  - cbn [masks]. destruct i as [|i]; cbn.
    + split; [by intros [= <-]|]. intros [Hlen _]. by destruct m.
    + split; [done|]. intros [Hlen Hnum]. by destruct m.
  - cbn [masks]. split.
    + intros [Hi|[Hge Hi]]%lookup_app_Some;
        apply list_lookup_fmap_Some in Hi as (m' & -> & Hm');
        apply IH in Hm' as [Hlen Hnum];
        rewrite length_app, maskNumber_snoc, Hlen; cbn [length].
      * split; lia.
      * rewrite length_fmap, masks_count in *. split; lia.
    + intros [Hlen Hnum].
      destruct m as [|b0 m0] using rev_ind; [done|]. clear IHm0.
      rewrite length_app in Hlen. cbn in Hlen.
      assert (length m0 = n) as Hlen0 by lia.
      rewrite maskNumber_snoc in Hnum. rewrite Hlen0 in Hnum.
      pose proof (maskNumber_bound m0) as Hb. rewrite Hlen0 in Hb.
      apply lookup_app_Some. destruct b0.
      * right. rewrite length_fmap, masks_count. split; [lia|].
        apply list_lookup_fmap_Some. exists m0. split; [done|].
        apply IH. split; [done|lia].
      * left. apply list_lookup_fmap_Some. exists m0. split; [done|].
        apply IH. split; [done|lia].
Qed.

Lemma masks_complete n (m : list bool) : m ∈ masks n ↔ length m = n.
Proof.
  rewrite list_elem_of_lookup. split.
  - intros [i Hi]. by apply masks_lookup in Hi as [? _].
  - intros Hlen. exists (maskNumber m). by apply masks_lookup.
Qed.

End Properties.

(** * More properties of KeyBindings.cpp *)

Section MoreProperties.

Context `{KeyModel CKeySet KeySyms}.

Local Abbreviation CKeyChain := (list CKeySet).
Local Abbreviation KeyBinding := (KeyBinding (CKeySet := CKeySet)).
Local Abbreviation KeyBindingList := (list KeyBinding).
Local Abbreviation State := (State (CKeySet := CKeySet) (KeySyms := KeySyms)).

Implicit Types (kb a b x y : KeyBinding).
Implicit Types (A B l out : KeyBindingList).
Implicit Types (st : State) (kc sc : CKeyChain) (ks : CKeySet).
Implicit Types (m : gmap CKeySet KeyBindingList).

(** ** What the mutators do to the store *)

Lemma holds_setBindings st (c c' : bool) m count ks x :
  holds (setBindings c m count st) c' ks x ↔
  if decide (c' = c) then ∃ l, m !! ks = Some l ∧ x ∈ l
  else holds st c' ks x.
Proof.
  unfold holds. case_decide as Hc.
  - subst c'. by rewrite getBindings_setBindings.
  - replace c' with (negb c) by (destruct c, c'; done).
    by rewrite getBindings_setBindings_other.
Qed.

Lemma lookup_setBindings st (c c' : bool) m count ks :
  getBindings c' (setBindings c m count st) !! ks
  = if decide (c' = c) then m !! ks else getBindings c' st !! ks.
Proof.
  case_decide as Hc.
  - subst c'. by rewrite getBindings_setBindings.
  - replace c' with (negb c) by (destruct c, c'; done).
    by rewrite getBindings_setBindings_other.
Qed.

Lemma bindingsCount_setBindings st (c : bool) m count :
  bindingsCount (setBindings c m count st) = count.
Proof. by destruct c. Qed.

Lemma setBack_last kc ks : last kc = Some ks → setBack kc ks = kc.
Proof.
  intros (kc' & ->)%last_Some. unfold setBack.
  by rewrite removelast_last.
Qed.

(** The three ways a [Bind] ends: refused, accepted with the line
    already under the trigger chord, or accepted with a new binding
    appended under the next index. *)
Lemma Bind_cases st keystr ln :
  Bind st keystr ln = (false, st) ∨
  Bind st keystr ln = (true, st) ∨
  ∃ kc ks0,
    ParseKeyChain (keySyms st) (list_ascii_of_string keystr) = Some kc ∧
    last kc = Some ks0 ∧
    let trigger :=
      if decide (command (parseAction ln) ∈ statefulCommands st)
      then SetAnyBit ks0 else ks0 in
    let kb := mkKeyBinding (parseAction ln) (setBack kc trigger) keystr
                           (to_int (bindingsCount st + 1)) in
    let m := getBindings (IsKeyCode trigger) st in
    Forall (λ x, ¬ sameLine kb x) (default [] (m !! trigger)) ∧
    Bind st keystr ln
    = (true, setBindings (IsKeyCode trigger)
               (<[trigger := default [] (m !! trigger) ++ [kb]]> m)
               (to_int (bindingsCount st + 1)) st).
Proof.
  unfold Bind.
  destruct (decide (command (parseAction ln) = EmptyString)); [by left|].
  destruct (ParseKeyChain _ _) as [kc|] eqn:Hparse; [|by left].
  destruct (last kc) as [ks0|] eqn:Hlast; [|by left].
  set (trigger := if decide _ then _ else _).
  set (kb0 := mkKeyBinding _ _ _ 0).
  set (m := getBindings (IsKeyCode trigger) st).
  assert (last (keyChain kb0) = Some trigger) as Hlast0 by apply last_setBack.
  right.
  destruct (decide (Exists (sameLine kb0) (default [] (m !! trigger)))) as [Hex|Hex].
  - left. destruct (m !! trigger) as [l|] eqn:Hl; [|by apply Exists_nil in Hex].
    rewrite (AddActionToKeyMap_present m kb0 _ trigger l) by done.
    f_equal. subst m. destruct st, (IsKeyCode trigger); cbn in *;
      by rewrite ?insert_id.
  - right. exists kc, ks0. split_and!; [done..| |].
    + cbv zeta. apply Forall_forall. intros x Hx Hs. apply Hex, Exists_exists.
      exists x. split; [done|]. exact Hs.
    + by rewrite (AddActionToKeyMap_absent m kb0 _ trigger).
Qed.

(** ** Invariants of the store *)

Lemma empty_keyed st :
  codeBindings st = ∅ → scanBindings st = ∅ → store_keyed st.
Proof.
  intros Hc Hs c ks l. destruct c; cbn; rewrite ?Hc, ?Hs; by rewrite lookup_empty.
Qed.

Lemma empty_owner st :
  codeBindings st = ∅ → scanBindings st = ∅ → index_owner st.
Proof.
  intros Hc Hs c1 k1 x c2 k2 y (l & Hl & _).
  destruct c1; cbn in Hl; rewrite ?Hc, ?Hs in Hl; by rewrite lookup_empty in Hl.
Qed.

Lemma Bind_keyed st keystr ln : store_keyed st → store_keyed (Bind st keystr ln).2.
Proof.
  intros Hk.
  destruct (Bind_cases st keystr ln) as [->|[->|(kc & ks0 & _ & _ & _ & ->)]];
    [done..|].
  cbn [snd]. intros c ks l. rewrite lookup_setBindings.
  case_decide as Hc; [|apply Hk]. subst c.
  rewrite lookup_insert. case_decide as Hks.
  - subst ks. intros [= <-]. split; [|done]. by intros ?%app_nil_r_inv.
  - apply Hk.
Qed.

Lemma insert_snoc_holds st (c : bool) ks0 (kb0 : KeyBinding) count c' ks x :
  holds (setBindings c
           (<[ks0 := default [] (getBindings c st !! ks0) ++ [kb0]]>
              (getBindings c st))
           count st) c' ks x ↔
  holds st c' ks x ∨ (x = kb0 ∧ c' = c ∧ ks = ks0).
Proof.
  rewrite holds_setBindings. case_decide as Hc.
  - subst c'. split.
    + intros (l & Hl & Hx). rewrite lookup_insert in Hl. case_decide as Hks.
      * subst ks. injection Hl as <-. apply elem_of_app in Hx as [Hx|Hx].
        -- left. destruct (_ !! _) as [l0|] eqn:Hl0; [|by apply elem_of_nil in Hx].
           by exists l0.
        -- right. by apply list_elem_of_singleton in Hx as ->.
      * left. by exists l.
    + intros [(l & Hl & Hx)|(-> & _ & ->)].
      * destruct (decide (ks0 = ks)) as [->|Hks].
        -- eexists. rewrite lookup_insert_eq. split; [done|].
           rewrite Hl. apply elem_of_app. by left.
        -- exists l. by rewrite lookup_insert_ne.
      * eexists. rewrite lookup_insert_eq. split; [done|].
        apply elem_of_app. right. by left.
  - split; [by left|]. by intros [?|(_ & ? & _)].
Qed.

Lemma Bind_holds st keystr ln c1 k1 x c2 k2 y :
  holds (Bind st keystr ln).2 c1 k1 x → holds (Bind st keystr ln).2 c2 k2 y →
  (holds st c1 k1 x ∨ bindingIndex x = to_int (bindingsCount st + 1)) ∧
  (holds st c2 k2 y ∨ bindingIndex y = to_int (bindingsCount st + 1)) ∧
  (holds st c1 k1 x ∨ holds st c2 k2 y ∨ (c1 = c2 ∧ k1 = k2)).
Proof.
  destruct (Bind_cases st keystr ln) as [->|[->|(kc & ks0 & _ & _ & _ & ->)]];
    [by auto..|].
  cbn [snd]. rewrite !insert_snoc_holds.
  intros [?|(-> & -> & ->)] [?|(-> & -> & ->)];
    split_and!;
    first [by left | by right | by right; left | by right; right].
Qed.

Lemma wf_holds_le st c ks x :
  store_wf st → holds st c ks x → bindingIndex x ≤ bindingsCount st.
Proof.
  intros Hwf (l & Hl & Hx).
  pose proof (store_wf_get c st Hwf ks l Hl) as (Hall & _).
  rewrite Forall_forall in Hall. by destruct (Hall x Hx).
Qed.

Lemma Bind_owner st keystr ln :
  store_wf st → INT_MIN ≤ bindingsCount st < INT_MAX →
  index_owner st → index_owner (Bind st keystr ln).2.
Proof.
  intros Hwf Hcount Ho c1 k1 x c2 k2 y Hx Hy Heq.
  destruct (Bind_holds st keystr ln c1 k1 x c2 k2 y Hx Hy)
    as ([Hx0|Hx0] & [Hy0|Hy0] & Hsame);
    rewrite ?to_int_succ in * by done.
  - by apply (Ho c1 k1 x c2 k2 y).
  - pose proof (wf_holds_le st c1 k1 x Hwf Hx0). lia.
  - pose proof (wf_holds_le st c2 k2 y Hwf Hy0). lia.
  - destruct Hsame as [Hx1|[Hy1|?]]; [| |done].
    + pose proof (wf_holds_le st c1 k1 x Hwf Hx1). lia.
    + pose proof (wf_holds_le st c2 k2 y Hwf Hy1). lia.
Qed.

(** A map that only lost bindings. *)
Lemma shrink_keyed st (c : bool) m :
  (∀ ks l', m !! ks = Some l' →
     l' ≠ [] ∧ ∃ l, getBindings c st !! ks = Some l ∧ l' `sublist_of` l) →
  store_keyed st → store_keyed (setBindings c m (bindingsCount st) st).
Proof.
  intros Hm Hk c' ks l'. rewrite lookup_setBindings.
  case_decide as Hc; [|apply Hk]. subst c'.
  intros Hl'. destruct (Hm ks l' Hl') as (Hne & l & Hl & _).
  split; [done|]. by destruct (Hk c ks l Hl).
Qed.

Lemma shrink_holds st (c : bool) m c' ks x :
  (∀ ks l', m !! ks = Some l' →
     l' ≠ [] ∧ ∃ l, getBindings c st !! ks = Some l ∧ l' `sublist_of` l) →
  holds (setBindings c m (bindingsCount st) st) c' ks x → holds st c' ks x.
Proof.
  intros Hm. rewrite holds_setBindings. case_decide as Hc; [|done]. subst c'.
  intros (l' & Hl' & Hx). destruct (Hm ks l' Hl') as (_ & l & Hl & Hsub).
  exists l. eauto using elem_of_sublist.
Qed.

Lemma shrink_owner st (c : bool) m :
  (∀ ks l', m !! ks = Some l' →
     l' ≠ [] ∧ ∃ l, getBindings c st !! ks = Some l ∧ l' `sublist_of` l) →
  index_owner st → index_owner (setBindings c m (bindingsCount st) st).
Proof.
  intros Hm Ho c1 k1 x c2 k2 y Hx%shrink_holds Hy%shrink_holds; [|done..].
  by apply Ho.
Qed.

Lemma putList_shrinks st (c : bool) ks l cmd :
  store_keyed st → getBindings c st !! ks = Some l →
  ∀ k l', putList ks (otherCommands cmd l) (getBindings c st) !! k = Some l' →
    l' ≠ [] ∧ ∃ l0, getBindings c st !! k = Some l0 ∧ l' `sublist_of` l0.
Proof.
  intros Hk Hl k l'. rewrite putList_lookup. case_decide as Hks.
  - subst k. destruct (otherCommands cmd l) as [|z l1] eqn:Ho; [done|].
    intros [= <-]. split; [done|]. exists l. split; [done|].
    rewrite <- Ho. apply otherCommands_sublist.
  - intros Hl'. split; [by destruct (Hk c k l' Hl')|]. by exists l'.
Qed.

Lemma delete_shrinks st (c : bool) ks :
  store_keyed st →
  ∀ k l', delete ks (getBindings c st) !! k = Some l' →
    l' ≠ [] ∧ ∃ l0, getBindings c st !! k = Some l0 ∧ l' `sublist_of` l0.
Proof.
  intros Hk k l' [_ Hl']%lookup_delete_Some.
  split; [by destruct (Hk c k l' Hl')|]. by exists l'.
Qed.

Lemma keptList_Some cmd l l' :
  keptList cmd l = Some l' ↔ l' = otherCommands cmd l ∧ l' ≠ [].
Proof.
  unfold keptList. destruct (otherCommands cmd l); split.
  - done.
  - by intros [-> ?].
  - by intros [= <-].
  - by intros [-> _].
Qed.

Lemma omap_shrinks st (c : bool) cmd :
  ∀ k l', omap (keptList cmd) (getBindings c st) !! k = Some l' →
    l' ≠ [] ∧ ∃ l0, getBindings c st !! k = Some l0 ∧ l' `sublist_of` l0.
Proof.
  intros k l' (l & [-> Hne]%keptList_Some & Hl)%lookup_omap_Some.
  split; [done|]. exists l. split; [done|]. apply otherCommands_sublist.
Qed.

(** [UnBind], [UnBindKeyset] and [UnBindAction] in terms of the map they
    write. *)
Lemma UnBind_cases st keystr cmd :
  UnBind st keystr cmd = (false, st) ∨
  ∃ ks l,
    Parse (keySyms st) (list_ascii_of_string keystr) = Some ks ∧
    getBindings (IsKeyCode ks) st !! ks = Some l ∧
    UnBind st keystr cmd
    = (bool_decide (Exists (hasCommand cmd) l),
       setBindings (IsKeyCode ks)
         (putList ks (otherCommands cmd l) (getBindings (IsKeyCode ks) st))
         (bindingsCount st) st).
Proof.
  unfold UnBind. destruct (Parse _ _) as [ks|]; [|by left].
  destruct (_ !! ks) as [l|] eqn:Hl; [|by left].
  right. exists ks, l. by rewrite RemoveCommandFromList_filter.
Qed.

Lemma UnBindKeyset_cases st keystr :
  UnBindKeyset st keystr = (false, st) ∨
  ∃ ks l,
    Parse (keySyms st) (list_ascii_of_string keystr) = Some ks ∧
    getBindings (IsKeyCode ks) st !! ks = Some l ∧
    UnBindKeyset st keystr
    = (true, setBindings (IsKeyCode ks) (delete ks (getBindings (IsKeyCode ks) st))
                         (bindingsCount st) st).
Proof.
  unfold UnBindKeyset. destruct (Parse _ _) as [ks|]; [|by left].
  destruct (_ !! ks) as [l|] eqn:Hl; [|by left].
  right. by exists ks, l.
Qed.

Lemma UnBindAction_cases st cmd :
  let st1 := setBindings true (omap (keptList cmd) (getBindings true st))
                         (bindingsCount st) st in
  (UnBindAction st cmd).2 = st1 ∨
  (UnBindAction st cmd).2
  = setBindings false (omap (keptList cmd) (getBindings false st1))
                (bindingsCount st1) st1.
Proof.
  cbv zeta. unfold UnBindAction. rewrite RemoveActionFromKeyMap_omap.
  case_match; [by left|]. right.
  cbn [scanBindings setBindings bindingsCount getBindings].
  by rewrite RemoveActionFromKeyMap_omap.
Qed.

Lemma reachable_keyed st : reachable st → store_keyed st.
Proof.
  induction 1 as [st Hc Hs|st _ IH|st syms _ IH|st keystr ln _ IH
                 |st keystr cmd _ IH|st keystr _ IH|st cmd _ IH|st _ IH].
  - by apply empty_keyed.
  - exact IH.
  - exact IH.
  - by apply Bind_keyed.
  - destruct (UnBind_cases st keystr cmd) as [->|(ks & l & _ & Hl & ->)]; [done|].
    cbn [snd]. apply shrink_keyed; [|done]. by apply putList_shrinks.
  - destruct (UnBindKeyset_cases st keystr) as [->|(ks & l & _ & Hl & ->)]; [done|].
    cbn [snd]. apply shrink_keyed; [|done]. by apply delete_shrinks.
  - destruct (UnBindAction_cases st cmd) as [->| ->].
    + apply shrink_keyed; [|done]. apply omap_shrinks.
    + apply shrink_keyed; [apply omap_shrinks|].
      apply shrink_keyed; [|done]. apply omap_shrinks.
  - unfold ExecuteCommand_unbindall. by apply Bind_keyed, empty_keyed.
Qed.

Lemma counted_owner st : counted st → index_owner st.
Proof.
  induction 1 as [st Hc Hs|st _ IH|st syms _ IH|st keystr ln Hr IH Hcount
                 |st keystr cmd Hr IH|st keystr Hr IH|st cmd Hr IH|st _ IH].
  - by apply empty_owner.
  - exact IH.
  - exact IH.
  - apply Bind_owner; [by apply counted_wf|done..].
  - apply counted_reachable, reachable_keyed in Hr.
    destruct (UnBind_cases st keystr cmd) as [->|(ks & l & _ & Hl & ->)]; [done|].
    cbn [snd]. apply shrink_owner; [|done]. by apply putList_shrinks.
  - apply counted_reachable, reachable_keyed in Hr.
    destruct (UnBindKeyset_cases st keystr) as [->|(ks & l & _ & Hl & ->)]; [done|].
    cbn [snd]. apply shrink_owner; [|done]. by apply delete_shrinks.
  - destruct (UnBindAction_cases st cmd) as [->| ->].
    + apply shrink_owner; [|done]. apply omap_shrinks.
    + apply shrink_owner; [apply omap_shrinks|].
      apply shrink_owner; [|done]. apply omap_shrinks.
  - unfold ExecuteCommand_unbindall.
    apply Bind_owner; [by apply empty_wf| |by apply empty_owner].
    cbn. unfold INT_MIN, INT_MAX. lia.
Qed.

Lemma sorted_index_inj l x y :
  StronglySorted (λ a b, bindingIndex a < bindingIndex b) l →
  x ∈ l → y ∈ l → bindingIndex x = bindingIndex y → x = y.
Proof.
  intros Hs [i Hi]%list_elem_of_lookup [j Hj]%list_elem_of_lookup Heq.
  destruct (Nat.lt_trichotomy i j) as [Hlt|[->|Hlt]].
  - pose proof (StronglySorted_lookup _ l i j x y Hs Hi Hj Hlt). simpl in *. lia.
  - congruence.
  - pose proof (StronglySorted_lookup _ l j i y x Hs Hj Hi Hlt). simpl in *. lia.
Qed.

(** X1.  In every state the program reaches while its binding counter
    has not overflowed, each keyset that is in a map has a list that is
    not empty, in the map of the keyspace of the keyset; each binding
    of the list has that keyset as the trigger chord of its chain; no
    source line occurs twice in the list; the binding indices grow
    strictly along the list and none is above the counter. *)
Theorem store_invariant st (isKeyCode : bool) ks l :
  counted st → getBindings isKeyCode st !! ks = Some l →
  l ≠ [] ∧ IsKeyCode ks = isKeyCode ∧
  Forall (λ kb, last (keyChain kb) = Some ks ∧
                bindingIndex kb ≤ bindingsCount st) l ∧
  StronglySorted (λ a b, bindingIndex a < bindingIndex b) l ∧
  NoDup (lineOf <$> l).
Proof.
  intros Hr Hl.
  destruct (reachable_keyed st (counted_reachable st Hr) isKeyCode ks l Hl)
    as [Hne Hc].
  pose proof (store_wf_get isKeyCode st (counted_wf st Hr) ks l Hl)
    as (Hall & Hsort & Hnd).
  done.
Qed.

(** X2.  In every state reached while the binding counter has not
    overflowed, a binding index names one stored binding: two bindings
    held anywhere in the two maps under the same index are in the same
    map, under the same keyset, and are the same binding. *)
Theorem binding_index_unique st (c1 c2 : bool) k1 k2 x y :
  counted st →
  holds st c1 k1 x → holds st c2 k2 y →
  bindingIndex x = bindingIndex y →
  c1 = c2 ∧ k1 = k2 ∧ x = y.
Proof.
  intros Hr Hx Hy Heq.
  destruct (counted_owner st Hr c1 k1 x c2 k2 y Hx Hy Heq) as [-> ->].
  split_and!; [done..|].
  destruct Hx as (l & Hl & Hx), Hy as (l' & Hl' & Hy).
  assert (l' = l) as -> by congruence.
  pose proof (store_wf_get c2 st (counted_wf st Hr) k2 l Hl) as (_ & Hsort & _).
  by apply (sorted_index_inj l).
Qed.

(** ** The list of all bindings *)

Variable std_sort :
  (KeyBinding → KeyBinding → bool) → list KeyBinding → list KeyBinding.

Hypothesis std_sort_perm :
  ∀ l, std_sort compareActionByBindingOrder l ≡ₚ l.

Hypothesis std_sort_sorted :
  ∀ l, StronglySorted (λ a b, compareActionByBindingOrder b a = false)
                      (std_sort compareActionByBindingOrder l).

Lemma fold_append_elem m (base : KeyBindingList) x :
  x ∈ map_fold (λ _ l (merged : KeyBindingList), merged ++ l) base m ↔
  x ∈ base ∨ ∃ ks l, m !! ks = Some l ∧ x ∈ l.
Proof.
  revert m.
  apply (map_fold_weak_ind
    (λ (r : KeyBindingList) (m' : gmap CKeySet KeyBindingList),
       x ∈ r ↔ x ∈ base ∨ ∃ ks l, m' !! ks = Some l ∧ x ∈ l)).
  - split; [by left|]. intros [?|(ks & l & Hl & _)]; [done|].
    by rewrite lookup_empty in Hl.
  - intros i l m r Hi IH. rewrite elem_of_app, IH. split.
    + intros [[?|(ks & l0 & Hl0 & Hx)]|Hx]; [by left| |].
      * right. exists ks, l0. split; [|done].
        rewrite lookup_insert_ne; [done|]. intros ->. congruence.
      * right. exists i, l. by rewrite lookup_insert_eq.
    + intros [?|(ks & l0 & Hl0 & Hx)]; [by left; left|].
      apply lookup_insert_Some in Hl0 as [[-> ->]|[_ Hl0]]; [by right|].
      left. right. by exists ks, l0.
Qed.

Lemma fold_append_NoDup m (base : KeyBindingList) :
  NoDup (bindingIndex <$> base) →
  (∀ ks l, m !! ks = Some l → NoDup (bindingIndex <$> l)) →
  (∀ ks l x y, m !! ks = Some l → x ∈ l → y ∈ base →
               bindingIndex x ≠ bindingIndex y) →
  (∀ k1 l1 k2 l2 x y, m !! k1 = Some l1 → m !! k2 = Some l2 →
                      x ∈ l1 → y ∈ l2 →
                      bindingIndex x = bindingIndex y → k1 = k2) →
  NoDup (bindingIndex <$>
         map_fold (λ _ l (merged : KeyBindingList), merged ++ l) base m).
Proof.
  intros Hbase. revert m.
  apply (map_fold_weak_ind
    (λ (r : KeyBindingList) (m' : gmap CKeySet KeyBindingList),
       (∀ x, x ∈ r → x ∈ base ∨ ∃ ks l, m' !! ks = Some l ∧ x ∈ l) ∧
       ((∀ ks l, m' !! ks = Some l → NoDup (bindingIndex <$> l)) →
        (∀ ks l x y, m' !! ks = Some l → x ∈ l → y ∈ base →
                     bindingIndex x ≠ bindingIndex y) →
        (∀ k1 l1 k2 l2 x y, m' !! k1 = Some l1 → m' !! k2 = Some l2 →
                            x ∈ l1 → y ∈ l2 →
                            bindingIndex x = bindingIndex y → k1 = k2) →
        NoDup (bindingIndex <$> r)))).
  - split; [by left|done].
  - intros i l m r Hi [Hin IH]. split.
    + intros x [Hx|Hx]%elem_of_app.
      * destruct (Hin x Hx) as [?|(ks & l0 & Hl0 & Hx0)]; [by left|].
        right. exists ks, l0. split; [|done].
        rewrite lookup_insert_ne; [done|]. intros ->. congruence.
      * right. exists i, l. by rewrite lookup_insert_eq.
    + intros Hlists Hcross Hown. rewrite fmap_app. apply NoDup_app. split_and!.
      * apply IH.
        -- intros ks l0 Hl0. apply (Hlists ks).
           rewrite lookup_insert_ne; [done|]. intros ->. congruence.
        -- intros ks l0 x y Hl0. apply (Hcross ks).
           rewrite lookup_insert_ne; [done|]. intros ->. congruence.
        -- intros k1 l1 k2 l2 x y Hl1 Hl2.
           apply (Hown k1 l1 k2 l2);
             (rewrite lookup_insert_ne; [done|]; intros ->; congruence).
      * intros n (x & -> & Hx)%list_elem_of_fmap (y & Heq & Hy)%list_elem_of_fmap.
        destruct (Hin x Hx) as [Hb|(ks & l0 & Hl0 & Hx0)].
        -- apply (Hcross i l y x); [apply lookup_insert_eq|done..].
        -- assert (ks = i) as ->; [|congruence].
           apply (Hown ks l0 i l x y); [|apply lookup_insert_eq|done..].
           rewrite lookup_insert_ne; [done|]. intros ->. congruence.
      * apply (Hlists i). apply lookup_insert_eq.
Qed.

Lemma sorted_NoDup_index l :
  StronglySorted (λ a b, bindingIndex a < bindingIndex b) l →
  NoDup (bindingIndex <$> l).
Proof.
  induction 1 as [|x l Hl IH Hx]; [constructor|].
  rewrite fmap_cons. apply NoDup_cons. split; [|done].
  intros (y & Heq & Hy)%list_elem_of_fmap.
  rewrite Forall_forall in Hx. specialize (Hx y Hy). simpl in Hx. lia.
Qed.

Lemma sorted_strict l :
  StronglySorted (λ a b, compareActionByBindingOrder b a = false) l →
  NoDup (bindingIndex <$> l) →
  StronglySorted (λ a b, bindingIndex a < bindingIndex b) l.
Proof.
  induction 1 as [|x l Hl IH Hx]; [constructor|].
  rewrite fmap_cons. intros [Hnx Hnd]%NoDup_cons. constructor; [auto|].
  rewrite Forall_forall in Hx |- *. intros y Hy. specialize (Hx y Hy).
  unfold compareActionByBindingOrder in Hx. apply Z.ltb_ge in Hx.
  assert (bindingIndex x ≠ bindingIndex y); [|lia].
  intros Heq. apply Hnx. rewrite Heq. by apply list_elem_of_fmap_2.
Qed.

Lemma merged_all st :
  counted st →
  let merged :=
    map_fold (λ _ l (merged : KeyBindingList), merged ++ l)
      (map_fold (λ _ l (merged : KeyBindingList), merged ++ l) []
                (codeBindings st))
      (scanBindings st) in
  NoDup (bindingIndex <$> merged) ∧ ∀ x, x ∈ merged ↔ stored st x.
Proof.
  intros Hr. cbv zeta.
  pose proof (counted_wf st Hr) as Hwf.
  pose proof (counted_owner st Hr) as Ho.
  assert (∀ (c : bool) ks l, getBindings c st !! ks = Some l →
                             NoDup (bindingIndex <$> l)) as Hlists.
  { intros c ks l Hl. apply sorted_NoDup_index.
    by destruct (store_wf_get c st Hwf ks l Hl) as (_ & ? & _). }
  split.
  - apply fold_append_NoDup.
    + apply fold_append_NoDup; [constructor|apply (Hlists true)| |].
      * by intros ks l x y _ _ ?%elem_of_nil.
      * intros k1 l1 k2 l2 x y Hl1 Hl2 Hx Hy Heq.
        apply (Ho true k1 x true k2 y); [by exists l1|by exists l2|done].
    + apply (Hlists false).
    + intros ks l x y Hl Hx Hy Heq.
      apply fold_append_elem in Hy as [?%elem_of_nil|(k2 & l2 & Hl2 & Hy)]; [done|].
      by destruct (Ho false ks x true k2 y); [by exists l|by exists l2|done|].
    + intros k1 l1 k2 l2 x y Hl1 Hl2 Hx Hy Heq.
      apply (Ho false k1 x false k2 y); [by exists l1|by exists l2|done].
  - intros x. rewrite !fold_append_elem. split.
    + intros [[?%elem_of_nil|(ks & l & Hl & Hx)]|(ks & l & Hl & Hx)]; [done| |].
      * exists true, ks, l. done.
      * exists false, ks, l. done.
    + intros ([|] & ks & l & Hl & Hx).
      * left. right. by exists ks, l.
      * right. by exists ks, l.
Qed.

Lemma listing_sorted st :
  counted st →
  StronglySorted (λ a b, bindingIndex a < bindingIndex b)
                 (GetKeyBindingList_all std_sort st) ∧
  ∀ x, x ∈ GetKeyBindingList_all std_sort st ↔ stored st x.
Proof.
  intros Hr. destruct (merged_all st Hr) as [Hnd Hin].
  unfold GetKeyBindingList_all. cbv zeta.
  set (merged := map_fold _ (map_fold _ _ _) _) in *.
  assert (NoDup (bindingIndex <$> std_sort compareActionByBindingOrder merged))
    as Hnd' by by rewrite std_sort_perm.
  split.
  - by apply sorted_strict.
  - intros x. by rewrite std_sort_perm.
Qed.

(** X3.  In every state reached while the binding counter has not
    overflowed, the call of [GetKeyBindingList] without arguments
    returns each stored binding of the two maps once and nothing else,
    in strictly increasing binding index, however the maps are walked
    and whatever [std::sort] does with equal keys. *)
Theorem GetKeyBindingList_all_sorted st :
  counted st →
  StronglySorted (λ a b, bindingIndex a < bindingIndex b)
                 (GetKeyBindingList_all std_sort st) ∧
  NoDup (GetKeyBindingList_all std_sort st) ∧
  ∀ x, x ∈ GetKeyBindingList_all std_sort st ↔ stored st x.
Proof.
  intros Hr. destruct (listing_sorted st Hr) as [Hsort Hin].
  split_and!; [done| |done].
  destruct (merged_all st Hr) as [Hnd _].
  unfold GetKeyBindingList_all. cbv zeta.
  apply (NoDup_fmap_1 bindingIndex). by rewrite std_sort_perm.
Qed.

(** ** The hotkey map *)

Lemma hotkeys_fold (l : KeyBindingList) (hotkeys : gmap string (list string))
    (name : string) :
  default [] (fold_left (λ hotkeys kb,
                 let hl := default [] (hotkeys !! hotkeyName kb) in
                 <[hotkeyName kb := hl ++ [boundWith kb]]> hotkeys)
              l hotkeys !! name)
  = default [] (hotkeys !! name)
    ++ (boundWith <$> filter (λ kb, hotkeyName kb = name) l).
Proof.
  revert hotkeys. induction l as [|kb l IH]; intros hotkeys.
  - by rewrite app_nil_r.
  - cbn [fold_left]. rewrite IH. cbv zeta. rewrite filter_cons.
    destruct (decide (hotkeyName kb = name)) as [<-|Hne].
    + rewrite lookup_insert_eq. cbn. by rewrite <- app_assoc.
    + by rewrite lookup_insert_ne.
Qed.

(** X4.  After [BuildHotkeyMap] in a state reached while the binding
    counter has not overflowed, the hotkeys of an action name are the
    shortcut texts of exactly the stored bindings whose command, with
    the extra text when there is one, is that name, in increasing
    binding index; a name that no binding has gets the empty list. *)
Theorem GetHotkeys_in_binding_order st (name : string) :
  counted st →
  ∃ l, GetHotkeys (BuildHotkeyMap std_sort st) name = boundWith <$> l ∧
       StronglySorted (λ a b, bindingIndex a < bindingIndex b) l ∧
       ∀ x, x ∈ l ↔ stored st x ∧ hotkeyName x = name.
Proof.
  intros Hr.
  destruct (listing_sorted st Hr) as [Hsort Hin].
  exists (filter (λ kb, hotkeyName kb = name) (GetKeyBindingList_all std_sort st)).
  split_and!.
  - unfold GetHotkeys, BuildHotkeyMap.
    pose proof (hotkeys_fold (GetKeyBindingList_all std_sort st) ∅ name) as Hf.
    rewrite lookup_empty in Hf. cbn [default from_option app] in Hf.
    rewrite <- Hf. by destruct (_ !! name).
  - eapply StronglySorted_sublist; [apply sublist_filter|done].
  - intros x. rewrite list_elem_of_filter, Hin. tauto.
Qed.

(** ** What the merge keeps, line by line *)

Lemma survivors_elem A B x :
  x ∈ std_merge compareActionByTriggerOrder
        (filter (survivesA B) A) (filter (survivesB A) B) ↔
  (x ∈ A ∧ survivesA B x) ∨ (x ∈ B ∧ survivesB A x).
Proof.
  rewrite std_merge_Permutation, elem_of_app, !list_elem_of_filter. tauto.
Qed.

Lemma survivors_represent A B x :
  NoDup (lineOf <$> A) → NoDup (lineOf <$> B) →
  x ∈ A ∨ x ∈ B →
  ∃ y, ((y ∈ A ∧ survivesA B y) ∨ (y ∈ B ∧ survivesB A y)) ∧
       lineOf y = lineOf x ∧ bindingIndex y ≤ bindingIndex x.
Proof.
  intros HA HB [Hx|Hx].
  - destruct (decide (survivesA B x)) as [Hs|Hs].
    { exists x. split_and!; [by left|done|lia]. }
    unfold survivesA in Hs. apply dec_stable in Hs.
    apply Exists_exists in Hs as (b & Hb & Hsame & Hlt).
    exists b. split_and!; [right; split; [done|]|done|lia].
    unfold survivesB. rewrite Exists_exists. intros (a' & Ha' & Hsame' & Hle).
    assert (a' = x) as ->; [|lia].
    apply (NoDup_lineOf_inj A); auto.
    unfold sameLine, lineOf in *. congruence.
  - destruct (decide (survivesB A x)) as [Hs|Hs].
    { exists x. split_and!; [by right|done|lia]. }
    unfold survivesB in Hs. apply dec_stable in Hs.
    apply Exists_exists in Hs as (a & Ha & Hsame & Hle).
    exists a. split_and!; [left; split; [done|]|by symmetry|lia].
    unfold survivesA. rewrite Exists_exists. intros (b' & Hb' & Hsame' & Hlt).
    assert (b' = x) as ->; [|lia].
    apply (NoDup_lineOf_inj B); auto.
    unfold sameLine, lineOf in *. congruence.
Qed.

Lemma survivors_NoDup A B :
  NoDup (lineOf <$> A) → NoDup (lineOf <$> B) →
  NoDup (lineOf <$> std_merge compareActionByTriggerOrder
                      (filter (survivesA B) A) (filter (survivesB A) B)).
Proof.
  intros HA HB. rewrite std_merge_Permutation, fmap_app. apply NoDup_app.
  split_and!.
  - eapply sublist_NoDup; [exact HA|]. apply fmap_sublist, sublist_filter.
  - intros s (a & -> & [Hsa Ha]%list_elem_of_filter)%list_elem_of_fmap
             (b & Heq & [Hsb Hb]%list_elem_of_filter)%list_elem_of_fmap.
    destruct (decide (bindingIndex b < bindingIndex a)) as [Hlt|Hge].
    + apply Hsa, Exists_exists. exists b. unfold sameLine, lineOf in *. eauto.
    + apply Hsb, Exists_exists. exists a. split; [done|].
      split; [unfold sameLine, lineOf in *; congruence|lia].
  - eapply sublist_NoDup; [exact HB|]. apply fmap_sublist, sublist_filter.
Qed.

(** X5.  Two candidate lists as the resolution hands them to the merge
    (no source line twice in a list, each sorted by binding index, one
    wildcard status): the part that [MergeActionListsByTrigger] appends
    holds only bindings of the two lists, holds every source line of
    either list exactly once, under an index that is not above the one
    it had in the list, and is sorted by binding index. *)
Theorem merge_lines A B out (w : bool) :
  NoDup (lineOf <$> A) → NoDup (lineOf <$> B) →
  StronglySorted (λ x y, bindingIndex x ≤ bindingIndex y) A →
  StronglySorted (λ x y, bindingIndex x ≤ bindingIndex y) B →
  Forall (λ x, triggerAnyMod x = w) (A ++ B) →
  ∃ merged : KeyBindingList,
    MergeActionListsByTrigger A B out = out ++ merged ∧
    (∀ x, x ∈ merged → x ∈ A ∨ x ∈ B) ∧
    NoDup (lineOf <$> merged) ∧
    (∀ x, x ∈ A ∨ x ∈ B →
          ∃ y, y ∈ merged ∧ lineOf y = lineOf x ∧
               bindingIndex y ≤ bindingIndex x) ∧
    StronglySorted (λ x y, bindingIndex x ≤ bindingIndex y) merged.
Proof.
  intros HA HB HsA HsB [HwA HwB]%Forall_app.
  eexists. split; [by apply MergeActionListsByTrigger_closed|]. split_and!.
  - intros x Hx%survivors_elem. tauto.
  - by apply survivors_NoDup.
  - intros x Hx. destruct (survivors_represent A B x HA HB Hx) as (y & Hy & ? & ?).
    exists y. by rewrite survivors_elem.
  - apply (std_merge_sorted w).
    + rewrite Forall_forall in *. intros x [_ Hx]%list_elem_of_filter. auto.
    + rewrite Forall_forall in *. intros x [_ Hx]%list_elem_of_filter. auto.
    + eapply StronglySorted_sublist; [apply sublist_filter|done].
    + eapply StronglySorted_sublist; [apply sublist_filter|done].
Qed.

(** ** Resolution through one chain *)

Hypothesis AnyMod_SetAnyBit : ∀ ks, AnyMod (SetAnyBit ks) = true.

Lemma exact_then_wildcard (m1 m2 : KeyBindingList) :
  Forall (λ x, triggerAnyMod x = false) m1 →
  Forall (λ x, triggerAnyMod x = true) m2 →
  StronglySorted (λ x y, bindingIndex x ≤ bindingIndex y) m1 →
  StronglySorted (λ x y, bindingIndex x ≤ bindingIndex y) m2 →
  ∀ i j a b, (m1 ++ m2) !! i = Some a → (m1 ++ m2) !! j = Some b →
    (triggerAnyMod a = false → triggerAnyMod b = true → (i < j)%nat) ∧
    (triggerAnyMod a = triggerAnyMod b →
     bindingIndex a < bindingIndex b → (i < j)%nat).
Proof.
  intros Hw1 Hw2 Hsort1 Hsort2 i j a b Ha Hb.
  rewrite Forall_forall in Hw1, Hw2.
  apply lookup_app_Some in Ha as [Ha|[Hi Ha]], Hb as [Hb|[Hj Hb]].
  - pose proof (Hw1 a (list_elem_of_lookup_2 _ _ _ Ha)).
    pose proof (Hw1 b (list_elem_of_lookup_2 _ _ _ Hb)).
    split; [congruence|]. intros _ Hlt.
    destruct (Nat.lt_trichotomy i j) as [?|[->|Hji]]; [done| |].
    + assert (a = b) by congruence. subst. lia.
    + pose proof (StronglySorted_lookup _ m1 j i b a Hsort1 Hb Ha Hji).
      simpl in *. lia.
  - apply lookup_lt_Some in Ha. split; intros; lia.
  - pose proof (Hw2 a (list_elem_of_lookup_2 _ _ _ Ha)).
    pose proof (Hw1 b (list_elem_of_lookup_2 _ _ _ Hb)).
    split; congruence.
  - pose proof (Hw2 a (list_elem_of_lookup_2 _ _ _ Ha)).
    pose proof (Hw2 b (list_elem_of_lookup_2 _ _ _ Hb)).
    split; [congruence|]. intros _ Hlt.
    destruct (Nat.lt_trichotomy i j) as [?|[->|Hji]]; [done| |].
    + assert (a = b) by congruence. subst. lia.
    + pose proof (StronglySorted_lookup _ m2 (j - length m1) (i - length m1)
                    b a Hsort2 Hb Ha ltac:(lia)).
      simpl in *. lia.
Qed.

Lemma candidates_le (w : bool) l :
  candidates w l →
  Forall (λ x, triggerAnyMod x = w) l ∧
  StronglySorted (λ x y, bindingIndex x ≤ bindingIndex y) l.
Proof.
  intros (Hw & Hsort & _). split; [done|].
  eapply StronglySorted_mono; [|done]. intros; simpl in *; lia.
Qed.

(** X6.  The resolution through a single live chain, in a state
    reached while the binding counter has not overflowed: an empty
    chain gives the empty list, and in every result the bindings with
    an exact-modifier trigger chord come before those with a wildcard
    trigger chord, each group in increasing binding index. *)
Theorem GetKeyBindingList_chain_order st kc :
  counted st →
  (kc = [] → GetKeyBindingList_chain st kc = []) ∧
  ∀ i j a b,
    GetKeyBindingList_chain st kc !! i = Some a →
    GetKeyBindingList_chain st kc !! j = Some b →
    (triggerAnyMod a = false → triggerAnyMod b = true → (i < j)%nat) ∧
    (triggerAnyMod a = triggerAnyMod b →
     bindingIndex a < bindingIndex b → (i < j)%nat).
Proof.
  intros Hwf%counted_wf. split; [by intros ->|].
  unfold GetKeyBindingList_chain.
  destruct (last kc) as [back|]; [|by intros ????; rewrite lookup_nil].
  pose proof (lookup_candidates st back kc false Hwf) as Hc1.
  pose proof (lookup_candidates st back kc true Hwf) as Hc2.
  cbv iota in Hc1, Hc2. rewrite AnyMod_SetAnyBit in Hc2.
  apply candidates_le in Hc2 as [Hw2 Hs2].
  rewrite (FilterByKeychain_filter _ kc (FilterByKeychain _ _ _)).
  rewrite FilterByKeychain_filter in Hw2, Hs2. cbn [app] in Hw2, Hs2.
  destruct (AnyMod back) eqn:Hany; cbn [negb].
  - apply candidates_le in Hc1 as [Hw1 Hs1].
    apply (exact_then_wildcard [] _); [constructor|done|constructor|done].
  - apply candidates_le in Hc1 as [Hw1 Hs1].
    by apply exact_then_wildcard.
Qed.

(** ** Two chains and one *)

Lemma lookup_invalid st ks (forceAny : bool) kc out :
  Key ks < 0 →
  FilterByKeychain (GetKeyBindingList_ks st ks forceAny) kc out = out.
Proof.
  intros Hneg. unfold GetKeyBindingList_ks.
  by rewrite (proj2 (Z.ltb_lt _ _) Hneg).
Qed.

Lemma merge_nil_r A out : MergeActionListsByTrigger A [] out = out ++ A.
Proof. destruct A; [done|]. done. Qed.

(** X7.  When the scan code of the live input is invalid (negative) and
    the live key-code chord has no wildcard, resolving the two chains
    gives the list that resolving the key-code chain alone gives. *)
Theorem GetKeyBindingList_chains_invalid_scan st kc sc kback sback :
  last kc = Some kback → last sc = Some sback →
  AnyMod kback = false → Key sback < 0 →
  GetKeyBindingList_chains st kc sc = Some (GetKeyBindingList_chain st kc).
Proof.
  intros Hk Hs Hany Hneg.
  unfold GetKeyBindingList_chains, GetKeyBindingList_chain.
  rewrite Hk, Hs, Hany. cbn [negb].
  rewrite !(lookup_invalid st sback _ sc []) by done.
  assert ((if negb (AnyMod sback) then [] else []) = @nil KeyBinding) as ->
    by by destruct (AnyMod sback).
  rewrite !merge_nil_r.
  rewrite (FilterByKeychain_filter _ kc (FilterByKeychain _ _ _)).
  by rewrite !FilterByKeychain_filter.
Qed.

(** ** What a resolution holds *)

Lemma merge_elem A B out x :
  NoDup (lineOf <$> A) → NoDup (lineOf <$> B) →
  x ∈ MergeActionListsByTrigger A B out ↔
  x ∈ out ∨ (x ∈ A ∧ survivesA B x) ∨ (x ∈ B ∧ survivesB A x).
Proof.
  intros HA HB. rewrite MergeActionListsByTrigger_closed by done.
  by rewrite elem_of_app, survivors_elem.
Qed.

Lemma lookup_lines st (back : CKeySet) kc (forceAny : bool) :
  store_lines st →
  NoDup (lineOf <$> FilterByKeychain (GetKeyBindingList_ks st back forceAny) kc []).
Proof.
  intros Hwf. rewrite FilterByKeychain_filter. cbn [app].
  eapply sublist_NoDup; [|apply fmap_sublist, sublist_filter].
  unfold GetKeyBindingList_ks.
  destruct (Key back <? 0); [constructor|].
  set (toUse := if forceAny then SetAnyBit back else back).
  destruct (_ !! toUse) as [l|] eqn:Hl; [|constructor].
  apply (store_lines_get (IsKeyCode back) st Hwf toUse l).
  by destruct (IsKeyCode back).
Qed.

Lemma filtered_elem (input : KeyBindingList) kc x :
  x ∈ FilterByKeychain input kc [] ↔ x ∈ input ∧ fit kc (keyChain x) = true.
Proof.
  rewrite FilterByKeychain_filter. cbn [app].
  rewrite list_elem_of_filter. destruct (fit kc (keyChain x)); intuition done.
Qed.

(** X8.  In a reachable state the resolution of two live chains gives
    only bindings it looked at (a binding stored under the last chord of
    one of the chains, or under that chord with the wildcard bit, whose
    chain the live chain fits), and of every such binding it gives the
    source line: under that binding or under one with the same line and
    an index that is not higher. *)
Theorem resolution_candidates st kc sc r :
  reachable st → GetKeyBindingList_chains st kc sc = Some r →
  (∀ x, x ∈ r → candidate st kc sc x) ∧
  (∀ x, candidate st kc sc x →
        ∃ y, y ∈ r ∧ lineOf y = lineOf x ∧ bindingIndex y ≤ bindingIndex x).
Proof.
  intros Hwf%reachable_lines. unfold GetKeyBindingList_chains.
  destruct (last kc) as [kback|] eqn:Hk; [|done].
  destruct (last sc) as [sback|] eqn:Hs; [|done].
  intros [= <-].
  set (kExact := if negb (AnyMod kback) then _ else _).
  set (sExact := if negb (AnyMod sback) then _ else _).
  set (kAny := FilterByKeychain (GetKeyBindingList_ks st kback true) kc []).
  set (sAny := FilterByKeychain (GetKeyBindingList_ks st sback true) sc []).
  assert (NoDup (lineOf <$> kExact)) as HkE.
  { subst kExact. destruct (AnyMod kback); cbn [negb]; [constructor|].
    apply (lookup_lines st kback kc false Hwf). }
  assert (NoDup (lineOf <$> sExact)) as HsE.
  { subst sExact. destruct (AnyMod sback); cbn [negb]; [constructor|].
    apply (lookup_lines st sback sc false Hwf). }
  assert (NoDup (lineOf <$> kAny)) as HkA
    by apply (lookup_lines st kback kc true Hwf).
  assert (NoDup (lineOf <$> sAny)) as HsA
    by apply (lookup_lines st sback sc true Hwf).
  assert (∀ x, x ∈ kExact ↔ AnyMod kback = false ∧
               x ∈ GetKeyBindingList_ks st kback false ∧
               fit kc (keyChain x) = true) as HkE'.
  { intros x. subst kExact. destruct (AnyMod kback); cbn [negb].
    - rewrite elem_of_nil. intuition done.
    - rewrite filtered_elem. intuition done. }
  assert (∀ x, x ∈ sExact ↔ AnyMod sback = false ∧
               x ∈ GetKeyBindingList_ks st sback false ∧
               fit sc (keyChain x) = true) as HsE'.
  { intros x. subst sExact. destruct (AnyMod sback); cbn [negb].
    - rewrite elem_of_nil. intuition done.
    - rewrite filtered_elem. intuition done. }
  split.
  - intros x. rewrite !merge_elem by done. rewrite elem_of_nil.
    intros [[[]|[[Hx _]|[Hx _]]]|[[Hx _]|[Hx _]]].
    + apply HkE' in Hx as (? & ? & ?). exists kc, kback, false. auto 10.
    + apply HsE' in Hx as (? & ? & ?). exists sc, sback, false. auto 10.
    + apply filtered_elem in Hx as [? ?]. exists kc, kback, true.
      split_and!; auto; done.
    + apply filtered_elem in Hx as [? ?]. exists sc, sback, true.
      split_and!; auto; done.
  - intros x (chain & back & forceAny & Hchain & Hlast & Hany & Hx & Hfit).
    assert ((x ∈ kExact ∨ x ∈ sExact) ∨ (x ∈ kAny ∨ x ∈ sAny)) as [Hin|Hin].
    { destruct Hchain as [-> | ->]; simplify_eq; destruct forceAny.
      - right; left. by apply filtered_elem.
      - left; left. apply HkE'. auto.
      - right; right. by apply filtered_elem.
      - left; right. apply HsE'. auto. }
    + destruct (survivors_represent kExact sExact x HkE HsE Hin)
        as (y & Hy & ? & ?).
      exists y. split; [|done]. rewrite !merge_elem by done. tauto.
    + destruct (survivors_represent kAny sAny x HkA HsA Hin)
        as (y & Hy & ? & ?).
      exists y. split; [|done]. rewrite merge_elem by done. tauto.
Qed.

(** ** The tokens of a chain text *)

Lemma splitCommas_nonempty (s : cstring) : splitCommas s ≠ [].
Proof.
  destruct s as [|c s]; [done|]. cbn [splitCommas].
  destruct (decide (c = comma)); [done|]. by destruct (splitCommas s).
Qed.

Lemma getline_split n (s t : cstring) (ts : list cstring) :
  splitCommas s = t :: ts → (length t ≤ n)%nat →
  ∃ rest, getline n s = (t, rest, bool_decide (ts ≠ [])) ∧
          (ts ≠ [] → splitCommas rest = ts ∧ (length rest < length s)%nat).
Proof.
  revert n t ts. induction s as [|c s IH]; intros n t ts; cbn [splitCommas getline].
  - intros [= <- <-] _. exists []. split; [done|]. by intros [].
  - destruct (decide (c = comma)) as [->|Hc].
    + intros [= <- <-] _. exists s. split.
      * rewrite bool_decide_eq_true_2; [done|]. apply splitCommas_nonempty.
      * intros _. split; [done|]. cbn. lia.
    + destruct (splitCommas s) as [|t' ts'] eqn:Hs;
        [by apply splitCommas_nonempty in Hs|].
      intros [= <- <-] Hn. destruct n as [|n]; [cbn in Hn; lia|].
      destruct (IH n t' ts' eq_refl ltac:(cbn in Hn; lia)) as (rest & -> & Hrest).
      exists rest. split; [done|]. intros Hts.
      destruct (Hrest Hts) as [-> ?]. split; [done|]. cbn. lia.
Qed.

Lemma ParseSingleChain_loop_tokens (syms : KeySyms) fuel (s : cstring) kc :
  (length s < fuel)%nat →
  Forall (λ t, (length t ≤ 255)%nat) (splitCommas s) →
  ParseSingleChain_loop fuel syms s kc
  = (kc ++.) <$> mapM (λ t, Parse syms (c_str t)) (splitCommas s).
Proof.
  revert s kc. induction fuel as [|fuel IH]; intros s kc Hfuel Hlen; [lia|].
  cbn [ParseSingleChain_loop].
  destruct (splitCommas s) as [|t ts] eqn:Hs;
    [by apply splitCommas_nonempty in Hs|].
  apply Forall_cons in Hlen as [Ht Hts].
  destruct (getline_split 255 s t ts Hs Ht) as (rest & -> & Hrest).
  cbn [mapM]. cbv zeta. destruct (Parse syms (c_str t)) as [ks|]; [|done]. cbn.
  destruct ts as [|t' ts'].
  - by rewrite bool_decide_eq_false_2 by (by intros []).
  - rewrite bool_decide_eq_true_2 by done.
    destruct (Hrest ltac:(done)) as [Hsplit Hshort].
    rewrite IH by (rewrite ?Hsplit; first [lia|done]).
    rewrite Hsplit. destruct (mapM _ _) as [kc'|]; [|done]. cbn.
    by rewrite <- app_assoc.
Qed.

Lemma c_str_id (t : cstring) : NUL ∉ t → c_str t = t.
Proof.
  induction t as [|c t IH]; [done|]. intros [Hc Ht]%not_elem_of_cons.
  cbn [c_str]. rewrite decide_False by done. by rewrite IH.
Qed.

Lemma splitCommas_elem (s t : cstring) c : t ∈ splitCommas s → c ∈ t → c ∈ s.
Proof.
  revert t. induction s as [|d s IH]; intros t; cbn [splitCommas].
  - by intros ->%list_elem_of_singleton ?%elem_of_nil.
  - destruct (decide (d = comma)).
    + intros [->|Ht]%elem_of_cons Hc; [by apply elem_of_nil in Hc|].
      right. eauto.
    + destruct (splitCommas s) as [|t' ts] eqn:Hs;
        [by apply splitCommas_nonempty in Hs|].
      intros [->|Ht]%elem_of_cons Hc.
      * apply elem_of_cons in Hc as [->|Hc]; [by left|].
        right. apply (IH t'); [by left|done].
      * right. apply (IH t); [by right|done].
Qed.

Lemma ParseSingleChain_whole_tokens (syms : KeySyms) (s : cstring) :
  Forall (λ t, (length t ≤ 255)%nat) (splitCommas s) → NUL ∉ s →
  ParseSingleChain syms s = mapM (Parse syms) (splitCommas s).
Proof.
  intros Hlen Hnul. unfold ParseSingleChain.
  rewrite ParseSingleChain_loop_tokens by first [lia|done].
  assert (Forall (λ t, NUL ∉ t) (splitCommas s)) as Hts.
  { apply Forall_forall. intros t Ht Hc. eauto using splitCommas_elem. }
  assert (mapM (λ t, Parse syms (c_str t)) (splitCommas s)
          = mapM (Parse syms) (splitCommas s)) as ->.
  { clear Hlen. induction Hts as [|t ts Ht _ IH]; [done|].
    cbn [mapM]. by rewrite (c_str_id t Ht), IH. }
  by destruct (mapM _ _).
Qed.

(** X9.  When no piece of the text between two commas is longer than
    255 characters, [ParseSingleChain] succeeds exactly when every
    piece, cut at its first NUL, parses as a chord (an empty piece
    included, as before the first or after the last comma), and the
    chain is the chords of the pieces in their order; in a text
    without NUL the pieces are parsed whole. *)
Theorem ParseSingleChain_tokens (syms : KeySyms) (s : cstring) :
  Forall (λ t, (length t ≤ 255)%nat) (splitCommas s) →
  ParseSingleChain syms s = mapM (λ t, Parse syms (c_str t)) (splitCommas s) ∧
  (NUL ∉ s → ParseSingleChain syms s = mapM (Parse syms) (splitCommas s)).
Proof.
  intros Hlen. split; [|by apply ParseSingleChain_whole_tokens].
  unfold ParseSingleChain.
  rewrite ParseSingleChain_loop_tokens by first [lia|done].
  by destruct (mapM _ _).
Qed.

Lemma getline_full n (t : cstring) c (rest : cstring) :
  comma ∉ t → length t = n → c ≠ comma →
  getline n (t ++ c :: rest) = (t, c :: rest, false).
Proof.
  revert n. induction t as [|d t IH]; intros n Ht Hn Hc; cbn [app getline].
  - rewrite decide_False by done. by subst n.
  - apply not_elem_of_cons in Ht as [Hd Ht].
    rewrite decide_False by done. subst n. cbn [length].
    by rewrite IH.
Qed.

(** X10.  A first piece of more than 255 characters: [getline] stops
    after 255 of them with the stream failed, so [ParseSingleChain]
    parses these 255 characters, cut at their first NUL, as the only
    chord and never reads the rest of the text, further commas and
    pieces included. *)
Theorem ParseSingleChain_long_token (syms : KeySyms) (t : cstring) c
    (rest : cstring) :
  comma ∉ t → length t = 255%nat → c ≠ comma →
  ParseSingleChain syms (t ++ c :: rest)
  = (λ ks, [ks]) <$> Parse syms (c_str t).
Proof.
  intros Ht Hn Hc. unfold ParseSingleChain. cbn [ParseSingleChain_loop].
  rewrite getline_full by done. cbv zeta.
  by destruct (Parse syms (c_str t)).
Qed.

(** ** The search of the chain parser *)

Lemma splitCommas_comma (A B : cstring) :
  splitCommas (A ++ comma :: B) = splitCommas A ++ splitCommas B.
Proof.
  induction A as [|c A IH]; cbn [app splitCommas].
  - by rewrite decide_True by done.
  - destruct (decide (c = comma)); [by rewrite IH|].
    rewrite IH. destruct (splitCommas A) as [|t ts] eqn:Hs; [|done].
    by apply splitCommas_nonempty in Hs.
Qed.

(** The last piece of [A] and the first piece of [B] make one piece of
    [A ++ B]. *)
Lemma splitCommas_app (A B : cstring) (pre : list cstring) (t t' : cstring)
    (post : list cstring) :
  splitCommas A = pre ++ [t] → splitCommas B = t' :: post →
  splitCommas (A ++ B) = pre ++ (t ++ t') :: post.
Proof.
  revert pre t. induction A as [|c A IH]; intros pre t; cbn [app splitCommas].
  - intros Hpre ->. destruct pre as [|? [|]]; by simplify_eq/=.
  - intros Hpre HB. destruct (decide (c = comma)).
    + destruct pre as [|p pre]; cbn [app] in Hpre.
      * injection Hpre as _ Hnil. by apply splitCommas_nonempty in Hnil.
      * injection Hpre as <- Hpre. by rewrite (IH pre t Hpre HB).
    + destruct (splitCommas A) as [|tA ts] eqn:Hs;
        [by apply splitCommas_nonempty in Hs|].
      destruct pre as [|p pre]; cbn [app] in Hpre.
      * injection Hpre as <- ->. by rewrite (IH [] tA eq_refl HB).
      * injection Hpre as <- ->. by rewrite (IH (tA :: pre) t eq_refl HB).
Qed.

Lemma splitCommas_no_comma (X : cstring) : comma ∉ X → splitCommas X = [X].
Proof.
  induction X as [|c X IH]; [done|]. intros [Hc HX]%not_elem_of_cons.
  cbn [splitCommas]. rewrite decide_False by done. by rewrite IH.
Qed.

Lemma splitCommas_last (A : cstring) : ∃ pre t, splitCommas A = pre ++ [t].
Proof.
  destruct (splitCommas A) as [|t ts] eqn:Hs using rev_ind;
    [by apply splitCommas_nonempty in Hs|]. eauto.
Qed.

Lemma splitCommas_first (A : cstring) : ∃ t post, splitCommas A = t :: post.
Proof.
  destruct (splitCommas A) as [|t ts] eqn:Hs;
    [by apply splitCommas_nonempty in Hs|]. eauto.
Qed.

Lemma splitCommas_length (s t : cstring) :
  t ∈ splitCommas s → (length t ≤ length s)%nat.
Proof.
  revert t. induction s as [|d s IH]; intros t; cbn [splitCommas].
  - by intros ->%list_elem_of_singleton.
  - destruct (decide (d = comma)).
    + intros [->|Ht]%elem_of_cons; [cbn; lia|]. apply IH in Ht. cbn. lia.
    + destruct (splitCommas s) as [|t' ts] eqn:Hs;
        [by apply splitCommas_nonempty in Hs|].
      intros [->|Ht]%elem_of_cons.
      * specialize (IH t' ltac:(by left)). cbn. lia.
      * specialize (IH t ltac:(by right)). cbn. lia.
Qed.

Lemma reinterpret_length (s : cstring) (m : list bool) :
  (length (reinterpret s m) ≤ length s + 3 * commas s)%nat.
Proof.
  revert m. induction s as [|c s IH]; intros m; [done|]. cbn [reinterpret].
  destruct (decide (c = comma)) as [->|Hc].
  - rewrite commas_cons_comma.
    destruct m as [|[] m]; [specialize (IH [])|specialize (IH m)..];
      rewrite ?length_app; cbn [length commaHex list_ascii_of_string] in *; try lia.
  - specialize (IH m). unfold commas in *. rewrite filter_cons_False by done.
    cbn. lia.
Qed.

Lemma reinterpret_NUL (s : cstring) (m : list bool) : NUL ∉ s → NUL ∉ reinterpret s m.
Proof.
  revert m. induction s as [|c s IH]; intros m; [done|].
  intros [Hc Hs]%not_elem_of_cons. cbn [reinterpret].
  destruct (decide (c = comma)) as [->|Hcomma].
  - destruct m as [|[] m].
    + apply not_elem_of_cons. split; [done|]. by apply IH.
    + apply not_elem_of_app. split; [|by apply IH].
      by apply (bool_decide_unpack _).
    + apply not_elem_of_cons. split; [done|]. by apply IH.
  - apply not_elem_of_cons. split; [done|]. by apply IH.
Qed.

Lemma masks_differ (m1 m2 : list bool) :
  length m1 = length m2 → m1 ≠ m2 →
  ∃ (p : list bool) (b : bool) q1 q2,
    m1 = p ++ b :: q1 ∧ m2 = p ++ negb b :: q2.
Proof.
  revert m2. induction m1 as [|b1 m1 IH]; intros [|b2 m2] Hlen Hne;
    try done.
  destruct (decide (b1 = b2)) as [->|Hb].
  - destruct (IH m2) as (p & b & q1 & q2 & -> & ->); [by simplify_eq/=|congruence|].
    by exists (b2 :: p), b, q1, q2.
  - exists [], b1, m1, m2. split; [done|]. by destruct b1, b2.
Qed.

Lemma commas_split (s : cstring) (n : nat) :
  (n < commas s)%nat →
  ∃ s1 s2, s = s1 ++ comma :: s2 ∧ commas s1 = n.
Proof.
  revert n. induction s as [|c s IH]; intros n; [cbn; lia|].
  destruct (decide (c = comma)) as [->|Hc].
  - rewrite commas_cons_comma. destruct n as [|n].
    + intros _. by exists [], s.
    + intros Hn. destruct (IH n) as (s1 & s2 & -> & <-); [lia|].
      exists (comma :: s1), s2. by rewrite commas_cons_comma.
  - unfold commas at 1. rewrite filter_cons_False by done. intros Hn.
    destruct (IH n Hn) as (s1 & s2 & -> & <-).
    exists (c :: s1), s2. split; [done|]. unfold commas.
    by rewrite filter_cons_False by done.
Qed.


(** A comma cannot be read both ways: with the commas before it read
    alike, the text in front of it is a chord when the comma separates,
    and is followed by the key reference inside one piece when the
    comma is a literal. *)
Lemma literal_or_separator (syms : KeySyms) (keystr : cstring)
    (p q1 q2 : list bool) :
  hexReferenceInKey syms →
  length (p ++ true :: q1) = commas keystr →
  is_Some (mapM (Parse syms) (splitCommas (reinterpret keystr (p ++ true :: q1)))) →
  is_Some (mapM (Parse syms) (splitCommas (reinterpret keystr (p ++ false :: q2)))) →
  False.
Proof.
  intros Hhex Hlen Hlit Hsep.
  destruct (commas_split keystr (length p)) as (s1 & s2 & -> & Hp).
  { rewrite <- Hlen, length_app. cbn. lia. }
  rewrite !reinterpret_app in Hlit, Hsep by done.
  cbn [reinterpret] in Hlit, Hsep. rewrite decide_True in Hlit, Hsep by done.
  destruct (splitCommas_last (reinterpret s1 p)) as (pre & t & Hpre).
  destruct (splitCommas_first (reinterpret s2 q1)) as (t' & post & Hpost).
  rewrite splitCommas_comma, Hpre in Hsep.
  rewrite (splitCommas_app _ _ pre t (commaHex ++ t') post) in Hlit; [|done|].
  2:{ apply (splitCommas_app commaHex _ [] commaHex); [|done].
      apply splitCommas_no_comma. by apply (bool_decide_unpack _). }
  apply mapM_is_Some, Forall_app in Hsep as [[_ Ht%Forall_inv]%Forall_app _].
  apply mapM_is_Some, Forall_app in Hlit as [_ [Ht' _]%Forall_cons].
  unfold compose in Ht, Ht'. apply Hhex in Ht'. rewrite Ht' in Ht. by destruct Ht.
Qed.

Lemma reinterpretation_unique (syms : KeySyms) (keystr : cstring)
    (m1 m2 : list bool) :
  hexReferenceInKey syms →
  length m1 = commas keystr → length m2 = commas keystr →
  is_Some (mapM (Parse syms) (splitCommas (reinterpret keystr m1))) →
  is_Some (mapM (Parse syms) (splitCommas (reinterpret keystr m2))) →
  m1 = m2.
Proof.
  intros Hhex H1 H2 Hp1 Hp2. destruct (decide (m1 = m2)) as [|Hne]; [done|].
  destruct (masks_differ m1 m2) as (p & b & q1 & q2 & -> & ->);
    [congruence|done|].
  destruct b; cbn [negb] in *; exfalso;
    eauto using literal_or_separator.
Qed.

Lemma reinterpret_tokens (syms : KeySyms) (keystr : cstring)
    (m : list bool) :
  NUL ∉ keystr → (length keystr + 3 * commas keystr ≤ 255)%nat →
  ParseSingleChain syms (reinterpret keystr m)
  = mapM (Parse syms) (splitCommas (reinterpret keystr m)).
Proof.
  intros Hnul Hlen. apply ParseSingleChain_whole_tokens; [|by apply reinterpret_NUL].
  apply Forall_forall. intros t Ht%splitCommas_length.
  pose proof (reinterpret_length keystr m). lia.
Qed.


Lemma ParseSingleChain_loop_nonempty (syms : KeySyms) fuel (s : cstring) kc kc' :
  ParseSingleChain_loop fuel syms s kc = Some kc' →
  (length kc < length kc')%nat.
Proof.
  revert s kc. induction fuel as [|fuel IH]; intros s kc; [done|].
  cbn [ParseSingleChain_loop].
  destruct (getline 255 s) as [[tok rest] good]. cbv zeta.
  destruct (Parse syms (c_str tok)) as [ks|]; [|done].
  destruct good.
  - intros Hl%IH. rewrite length_app in Hl. cbn in Hl. lia.
  - intros [= <-]. rewrite length_app. cbn. lia.
Qed.

Lemma ParseKeyChain_chord (syms : KeySyms) (s : cstring) kc :
  ParseKeyChain syms s = Some kc → is_Some (last kc).
Proof.
  rewrite ParseKeyChain_first_parsable.
  intros (_ & mask & _ & Hp & _)%first_some_Some.
  apply ParseSingleChain_loop_nonempty in Hp.
  destruct kc as [|ks kc] using rev_ind; [cbn in Hp; lia|].
  rewrite last_snoc. eauto.
Qed.

(** X11.  [Bind] returns true exactly when the action has a command
    and [ParseKeyChain] accepts the key text: a chain that parses has
    at least one chord, so the test [keyChain.empty()] never refuses a
    bind. *)
Theorem Bind_accepts st (keystr ln : string) :
  (Bind st keystr ln).1 = true ↔
  command (parseAction ln) ≠ EmptyString ∧
  is_Some (ParseKeyChain (keySyms st) (list_ascii_of_string keystr)).
Proof.
  unfold Bind.
  destruct (decide (command (parseAction ln) = EmptyString)) as [He|He].
  { split; [done|]. by intros [? _]. }
  destruct (ParseKeyChain _ _) as [kc|] eqn:Hp.
  - destruct (ParseKeyChain_chord _ _ _ Hp) as [ks ->].
    destruct (AddActionToKeyMap _ _ _). cbn. split; eauto.
  - split; [done|]. by intros [_ [? ?]].
Qed.

(** ** Binding and unbinding *)

Lemma keySyms_setBindings st (c : bool) m count :
  keySyms (setBindings c m count st) = keySyms st.
Proof. by destruct c. Qed.

Lemma statefulCommands_setBindings st (c : bool) m count :
  statefulCommands (setBindings c m count st) = statefulCommands st.
Proof. by destruct c. Qed.

Lemma setBindings_twice st (c : bool) m m' count count' :
  setBindings c m' count' (setBindings c m count st) = setBindings c m' count' st.
Proof. by destruct c. Qed.

Lemma otherCommands_none cmd l : ¬ Exists (hasCommand cmd) (otherCommands cmd l).
Proof.
  rewrite Exists_exists. intros (x & Hx & Hcmd).
  unfold otherCommands in Hx. apply list_elem_of_filter in Hx as [Hn _]. done.
Qed.

Lemma otherCommands_twice cmd l :
  otherCommands cmd (otherCommands cmd l) = otherCommands cmd l.
Proof.
  unfold otherCommands at 1. apply filter_all_in.
  intros x Hx Hcmd. apply (otherCommands_none cmd l), Exists_exists. eauto.
Qed.

(** X12.  A second [UnBind] with the same key text and command finds
    nothing to remove: it returns false and leaves the state of the
    first. *)
Theorem UnBind_twice st (keystr cmd : string) :
  UnBind (UnBind st keystr cmd).2 keystr cmd = (false, (UnBind st keystr cmd).2).
Proof.
  destruct (UnBind_cases st keystr cmd) as [Heq|(ks & l & Hparse & Hl & Heq)].
  { rewrite !Heq. cbn [snd]. exact Heq. }
  rewrite Heq. cbn [snd].
  set (m := getBindings (IsKeyCode ks) st) in *.
  set (st1 := setBindings _ _ _ _).
  destruct (UnBind_cases st1 keystr cmd) as [Heq1|(ks' & l' & Hparse' & Hl' & Heq1)];
    [done|].
  subst st1. rewrite keySyms_setBindings, Hparse in Hparse'.
  injection Hparse' as <-.
  rewrite getBindings_setBindings in Hl'.
  rewrite putList_lookup, decide_True in Hl' by done.
  assert (l' = otherCommands cmd l ∧ l' ≠ []) as [-> Hne].
  { destruct (otherCommands cmd l); [done|]. by injection Hl' as <-. }
  rewrite Heq1, getBindings_setBindings, otherCommands_twice.
  rewrite bindingsCount_setBindings, setBindings_twice.
  rewrite bool_decide_eq_false_2 by apply otherCommands_none.
  do 2 f_equal. unfold putList at 1.
  destruct (otherCommands cmd l) as [|x l'] eqn:Hl''; [done|].
  unfold putList. by rewrite insert_insert_eq.
Qed.

(** X13.  A command that is not stateful is bound to a key text that
    reads as a chain ending in the chord [UnBind] reads from the same
    text, and the chord had no bindings: [UnBind] with that text and
    command returns true and leaves both maps as they were before the
    bind; only the counter has been incremented, which moves it on by
    one while it is below [INT_MAX]. *)
Theorem Bind_UnBind_fresh st (keystr ln : string) kc ks :
  ParseKeyChain (keySyms st) (list_ascii_of_string keystr) = Some kc →
  last kc = Some ks →
  Parse (keySyms st) (list_ascii_of_string keystr) = Some ks →
  command (parseAction ln) ≠ EmptyString →
  command (parseAction ln) ∉ statefulCommands st →
  getBindings (IsKeyCode ks) st !! ks = None →
  UnBind (Bind st keystr ln).2 keystr (command (parseAction ln))
  = (true, setBindings (IsKeyCode ks) (getBindings (IsKeyCode ks) st)
                       (to_int (bindingsCount st + 1)) st) ∧
  (INT_MIN ≤ bindingsCount st < INT_MAX →
   to_int (bindingsCount st + 1) = bindingsCount st + 1).
Proof.
  intros Hchain Hlast Hparse Hcmd Hstate Hfresh.
  split; [|apply to_int_succ].
  unfold Bind. rewrite decide_False, Hchain, Hlast, decide_False by done.
  unfold AddActionToKeyMap. cbn [keyChain]. rewrite last_setBack, Hfresh.
  cbn [snd]. unfold UnBind.
  rewrite keySyms_setBindings, Hparse, getBindings_setBindings, lookup_insert_eq.
  cbn [RemoveCommandFromList setIndex action]. rewrite decide_True by done.
  rewrite bindingsCount_setBindings, setBindings_twice.
  unfold putList. by rewrite delete_insert_eq, delete_id.
Qed.

(** X14.  A stateful command is bound to a key text whose chord, as
    [UnBind] reads it, is not the chord with the Any bit set and has no
    bindings: [UnBind] with the same text and command returns false and
    changes nothing, since [Bind] has stored the binding under the
    chord with the Any bit. *)
Theorem UnBind_after_stateful_Bind st (keystr ln : string) kc ks0 ks :
  ParseKeyChain (keySyms st) (list_ascii_of_string keystr) = Some kc →
  last kc = Some ks0 →
  Parse (keySyms st) (list_ascii_of_string keystr) = Some ks →
  command (parseAction ln) ≠ EmptyString →
  command (parseAction ln) ∈ statefulCommands st →
  SetAnyBit ks0 ≠ ks →
  getBindings (IsKeyCode ks) st !! ks = None →
  UnBind (Bind st keystr ln).2 keystr (command (parseAction ln))
  = (false, (Bind st keystr ln).2) ∧
  is_Some (getBindings (IsKeyCode (SetAnyBit ks0)) (Bind st keystr ln).2
             !! SetAnyBit ks0).
Proof.
  intros Hchain Hlast Hparse Hcmd Hstate Hne Hfresh.
  unfold Bind. rewrite decide_False, Hchain, Hlast, decide_True by done.
  destruct (AddActionToKeyMap _ _ _) as [m' count'] eqn:Hadd.
  cbn [snd]. split.
  - unfold UnBind. rewrite keySyms_setBindings, Hparse.
    rewrite lookup_setBindings.
    assert (m' !! ks = getBindings (IsKeyCode (SetAnyBit ks0)) st !! ks) as Hm'.
    { revert Hadd. unfold AddActionToKeyMap. cbn [keyChain].
      rewrite last_setBack.
      repeat case_match; intros [= <- <-]; by rewrite ?lookup_insert_ne. }
    case_decide as Hc; [|by rewrite Hfresh].
    by rewrite Hm', <- Hc, Hfresh.
  - rewrite getBindings_setBindings.
    revert Hadd. unfold AddActionToKeyMap. cbn [keyChain].
    rewrite last_setBack.
    repeat case_match; intros [= <- <-]; by rewrite ?lookup_insert_eq.
Qed.

(** X15.  [Bind] only appends: whatever it returns, the list of every
    keyset afterwards starts with the list it had, the counter is the
    old one or the old one incremented, which is the next number while
    the counter is below [INT_MAX], and the stateful set and the
    symbol tables are the old ones. *)
Theorem Bind_extends st (keystr ln : string) :
  let st' := (Bind st keystr ln).2 in
  (∀ (c : bool) ks,
     default [] (getBindings c st !! ks)
       `prefix_of` default [] (getBindings c st' !! ks)) ∧
  (bindingsCount st' = bindingsCount st ∨
   bindingsCount st' = to_int (bindingsCount st + 1)) ∧
  (INT_MIN ≤ bindingsCount st < INT_MAX →
   bindingsCount st ≤ bindingsCount st' ≤ bindingsCount st + 1) ∧
  statefulCommands st' = statefulCommands st ∧
  keySyms st' = keySyms st.
Proof.
  cbv zeta.
  destruct (Bind_cases st keystr ln)
    as [->|[->|(kc & ks0 & _ & _ & _ & ->)]]; cbn [snd];
    [split_and!; first [done|by left|lia]..|].
  set (trigger := if decide _ then _ else _).
  rewrite bindingsCount_setBindings, statefulCommands_setBindings,
    keySyms_setBindings.
  split_and!; [|by right|intros Hc; rewrite to_int_succ by done; lia|done|done].
  intros c ks. rewrite lookup_setBindings.
  case_decide as Hc; [subst c|done].
  destruct (decide (ks = trigger)) as [->|Hks].
  - rewrite lookup_insert_eq. cbn [default from_option id].
    by apply prefix_app_r.
  - by rewrite lookup_insert_ne.
Qed.

Lemma omap_keptList_lookup cmd m ks :
  otherCommands cmd (default [] (omap (keptList cmd) m !! ks))
  = otherCommands cmd (default [] (m !! ks)).
Proof.
  rewrite lookup_omap. destruct (m !! ks) as [l|]; [|done].
  cbn [default from_option id mbind option_bind]. unfold keptList.
  pose proof (otherCommands_twice cmd l) as Ht.
  destruct (otherCommands cmd l) as [|x l']; [done|]. exact Ht.
Qed.

Lemma map_Exists_holds st (c : bool) cmd :
  map_Exists (λ _ l, Exists (hasCommand cmd) l) (getBindings c st) ↔
  ∃ ks x, holds st c ks x ∧ command (action x) = cmd.
Proof.
  unfold holds. split.
  - intros (ks & l & Hl & (x & Hx & Hcmd)%Exists_exists). eauto 10.
  - intros (ks & x & (l & Hl & Hx) & Hcmd). exists ks, l. split; [done|].
    apply Exists_exists. eauto.
Qed.

(** X16.  [UnBindAction] returns true exactly when some stored binding
    has the command; afterwards no list of the key-code map holds a
    binding of the command, every list of either map still holds its
    bindings of other commands in their order, and the counter is the
    old one. *)
Theorem UnBindAction_effect st (cmd : string) :
  let st' := (UnBindAction st cmd).2 in
  ((UnBindAction st cmd).1 = true ↔
   ∃ x, stored st x ∧ command (action x) = cmd) ∧
  (∀ ks x, holds st' true ks x → command (action x) ≠ cmd) ∧
  (∀ (c : bool) ks,
     otherCommands cmd (default [] (getBindings c st' !! ks))
     = otherCommands cmd (default [] (getBindings c st !! ks))) ∧
  bindingsCount st' = bindingsCount st.
Proof.
  cbv zeta.
  assert (∀ m ks l x, omap (keptList cmd) m !! ks = Some l → x ∈ l →
                      command (action x) ≠ cmd) as Hclean.
  { intros m ks l x Hl Hx Hcmd. rewrite lookup_omap in Hl.
    destruct (m !! ks) as [l0|]; [|done]. cbn in Hl.
    apply keptList_Some in Hl as [-> _].
    apply (otherCommands_none cmd l0), Exists_exists. eauto. }
  destruct (decide (map_Exists (λ _ l, Exists (hasCommand cmd) l)
                               (codeBindings st))) as [Hex|Hex].
  - rewrite (UnBindAction_found_in_code st cmd Hex). cbn [fst snd].
    split_and!; [|..|done].
    + split; [intros _|done].
      apply (map_Exists_holds st true) in Hex as (ks & x & ? & ?).
      exists x. split; [|done]. by exists true, ks.
    + intros ks x (l & Hl & Hx). eauto.
    + intros [] ks; cbn [getBindings codeBindings scanBindings]; [|done].
      apply omap_keptList_lookup.
  - rewrite (UnBindAction_not_in_code st cmd Hex). cbn [fst snd].
    split_and!; [|..|done].
    + rewrite bool_decide_eq_true. rewrite (map_Exists_holds st false).
      split.
      * intros (ks & x & ? & ?). exists x. split; [|done]. by exists false, ks.
      * intros (x & ([] & ks & Hx) & Hcmd); [|eauto].
        destruct Hex. apply (map_Exists_holds st true). eauto.
    + intros ks x (l & Hl & Hx). eauto.
    + intros [] ks; cbn [getBindings codeBindings scanBindings];
        apply omap_keptList_lookup.
Qed.

(** X17.  The start of [keyreload], [unbindall] followed by
    [unbind enter chat], when [enter] parses after the reset of the
    symbol tables and [chat] is a command that is not stateful: the
    unbind returns true and leaves both maps empty, with the counter at
    one and the symbol tables reset. *)
Theorem keyreload_clear_empty st ks :
  Parse (ResetSyms (keySyms st)) (list_ascii_of_string "enter") = Some ks →
  command (parseAction "chat") = "chat"%string →
  "chat"%string ∉ statefulCommands st →
  keyreload_clear st
  = (true, mkState ∅ ∅ 1 (statefulCommands st) (ResetSyms (keySyms st))).
Proof.
  intros Hparse Hcmd Hstate. unfold keyreload_clear.
  rewrite (unbindall_state st ks Hparse) by (rewrite Hcmd; done).
  unfold UnBind.
  rewrite keySyms_setBindings. cbn [keySyms]. rewrite Hparse.
  rewrite getBindings_setBindings, lookup_singleton_eq.
  cbn [RemoveCommandFromList action]. rewrite decide_True by done.
  rewrite bindingsCount_setBindings, setBindings_twice.
  unfold putList. rewrite delete_singleton_eq.
  by destruct (IsKeyCode ks).
Qed.

(** X18.  [UnBindKeyset] on a key text that parses as a chord: it
    returns true exactly when the chord had a list; afterwards the
    lookup [GetKeyBindingList(ks, false)] of that chord is empty, and a
    lookup that goes to any other chord gives what it gave before. *)
Theorem UnBindKeyset_lookup st (keystr : string) ks :
  Parse (keySyms st) (list_ascii_of_string keystr) = Some ks →
  let st' := (UnBindKeyset st keystr).2 in
  (UnBindKeyset st keystr).1
  = bool_decide (is_Some (getBindings (IsKeyCode ks) st !! ks)) ∧
  GetKeyBindingList_ks st' ks false = [] ∧
  ∀ ks' (forceAny : bool),
    (if forceAny then SetAnyBit ks' else ks') ≠ ks →
    GetKeyBindingList_ks st' ks' forceAny = GetKeyBindingList_ks st ks' forceAny.
Proof.
  intros Hparse. cbv zeta. unfold UnBindKeyset. rewrite Hparse.
  destruct (getBindings (IsKeyCode ks) st !! ks) as [l|] eqn:Hl; cbn [fst snd].
  - split_and!.
    + by rewrite bool_decide_eq_true_2.
    + unfold GetKeyBindingList_ks. destruct (Key ks <? 0); [done|].
      change (if IsKeyCode ks then codeBindings ?s else scanBindings ?s)
        with (getBindings (IsKeyCode ks) s).
      by rewrite getBindings_setBindings, lookup_delete_eq.
    + intros ks' forceAny Hne. unfold GetKeyBindingList_ks.
      destruct (Key ks' <? 0); [done|].
      change (if IsKeyCode ks' then codeBindings ?s else scanBindings ?s)
        with (getBindings (IsKeyCode ks') s).
      rewrite lookup_setBindings. case_decide as Hc; [|done].
      rewrite lookup_delete_ne by done. by rewrite Hc.
  - split_and!; [by rewrite bool_decide_eq_false_2 by (by intros [? ?])| |done].
    unfold GetKeyBindingList_ks. destruct (Key ks <? 0); [done|].
    change (if IsKeyCode ks then codeBindings st else scanBindings st)
      with (getBindings (IsKeyCode ks) st).
    by rewrite Hl.
Qed.

End MoreProperties.

(** * Properties of the vector helpers *)

Section ContainerProperties.

Import spring.

Context {T : Type} `{EqDecision T}.

Implicit Types (v l : list T) (e x y z : T) (p : T → bool).

Lemma existsb_elem p v : existsb p v = true ↔ ∃ x, x ∈ v ∧ p x = true.
Proof.
  induction v as [|y v IH]; cbn [existsb].
  - split; [done|]. by intros (x & ?%elem_of_nil & _).
  - rewrite orb_true_iff, IH. split.
    + intros [?|(x & ? & ?)]; [exists y|exists x]; split; first [done|by left|by right].
    + intros (x & [->|?]%elem_of_cons & ?); eauto.
Qed.

(** ** Overwriting with the last element *)

Lemma moveBack_last l x : moveBack (l ++ [x]) (length l) = l.
Proof.
  unfold moveBack. rewrite last_snoc.
  rewrite insert_app_r_alt, Nat.sub_diag by lia. cbn [insert list_insert].
  apply removelast_last.
Qed.

Lemma moveBack_middle l1 x l2 e :
  moveBack (l1 ++ x :: l2 ++ [e]) (length l1) = l1 ++ e :: l2.
Proof.
  unfold moveBack.
  replace (l1 ++ x :: l2 ++ [e]) with ((l1 ++ x :: l2) ++ [e])
    by (by rewrite <- app_assoc).
  rewrite last_snoc. rewrite <- app_assoc. cbn [app].
  rewrite insert_app_r_alt, Nat.sub_diag by lia. cbn [insert list_insert].
  replace (l1 ++ e :: l2 ++ [e]) with ((l1 ++ e :: l2) ++ [e])
    by (by rewrite <- app_assoc).
  apply removelast_last.
Qed.

Lemma moveBack_hole l1 x l2 :
  moveBack (l1 ++ x :: l2) (length l1) = l1 ++ hole_filled l2.
Proof.
  unfold hole_filled. destruct l2 as [|y l2] using rev_ind.
  - rewrite moveBack_last. cbn. by rewrite app_nil_r.
  - rewrite moveBack_middle, last_snoc, removelast_last. done.
Qed.

Lemma hole_filled_Permutation l2 : hole_filled l2 ≡ₚ l2.
Proof.
  unfold hole_filled. destruct l2 as [|y l2 _] using rev_ind; [done|].
  rewrite last_snoc, removelast_last. by rewrite Permutation_app_comm.
Qed.

Lemma hole_filled_length l2 : length (hole_filled l2) = length l2.
Proof. by rewrite hole_filled_Permutation. Qed.

(** ** VectorEraseAllIf *)

Lemma VectorEraseAllIf_loop_spec rounds l1 l2 p (b : bool) :
  rounds = length l2 →
  ∃ l2', VectorEraseAllIf_loop rounds (l1 ++ l2) p (length l1) b
         = (b || existsb p l2, l1 ++ l2') ∧
         l2' ≡ₚ filter (λ x, p x = false) l2.
Proof.
  revert l1 l2 b. induction rounds as [|rounds IH]; intros l1 l2 b Hlen.
  { destruct l2; [|done]. exists []. cbn. by rewrite orb_false_r. }
  destruct l2 as [|x l2]; [done|]. cbn [VectorEraseAllIf_loop].
  rewrite list_lookup_middle by done. cbn [existsb].
  destruct (p x) eqn:Hp.
  - rewrite moveBack_hole, filter_cons_False by congruence.
    destruct (IH l1 (hole_filled l2) true) as (l2' & -> & Hperm).
    { rewrite hole_filled_length. cbn in Hlen. lia. }
    exists l2'. rewrite orb_true_r. split; [done|].
    by rewrite Hperm, hole_filled_Permutation.
  - rewrite filter_cons_True by done.
    destruct (IH (l1 ++ [x]) l2 b) as (l2' & Heq & Hperm).
    { cbn in Hlen. lia. }
    rewrite length_app, Nat.add_1_r, <- app_assoc in Heq. cbn [app] in Heq.
    rewrite Heq. exists (x :: l2'). rewrite <- app_assoc. cbn [app orb].
    split; [done|]. by rewrite Hperm.
Qed.

(** X19.  [VectorEraseAllIf] returns whether some element satisfies the
    predicate, and leaves the elements that do not, each as often as it
    was there; their order may change. *)
Theorem VectorEraseAllIf_spec v p :
  (VectorEraseAllIf v p).1 = existsb p v ∧
  (VectorEraseAllIf v p).2 ≡ₚ filter (λ x, p x = false) v.
Proof.
  unfold VectorEraseAllIf.
  destruct (VectorEraseAllIf_loop_spec (length v) [] v p false eq_refl)
    as (l2' & Heq & Hperm).
  cbn [app length] in Heq. rewrite Heq. done.
Qed.

(** ** VectorEraseIf and VectorErase *)

Lemma list_find_first (P : T → Prop) `{!∀ x, Decision (P x)} l1 x l2 :
  Forall (λ y, ¬ P y) l1 → P x →
  list_find P (l1 ++ x :: l2) = Some (length l1, x).
Proof.
  intros Hl1 Hx. apply list_find_Some. split_and!.
  - by apply list_lookup_middle.
  - done.
  - intros j y Hj Hlt. rewrite lookup_app_l in Hj by done.
    rewrite Forall_forall in Hl1. eauto using list_elem_of_lookup_2.
Qed.

(** X20.  [VectorEraseIf] on a vector whose first element with the
    predicate is [x]: [x] is overwritten by the last element and the
    vector is one shorter, so what was before [x] stays and what was
    after it is rotated by one; without such an element the call
    returns false and changes nothing. *)
Theorem VectorEraseIf_spec v p :
  (VectorEraseIf v p).1 = existsb p v ∧
  (existsb p v = false → (VectorEraseIf v p).2 = v) ∧
  ∀ l1 x l2, v = l1 ++ x :: l2 → Forall (λ y, p y = false) l1 → p x = true →
             (VectorEraseIf v p).2 = l1 ++ hole_filled l2.
Proof.
  unfold VectorEraseIf.
  destruct (list_find _ v) as [[i x]|] eqn:Hfind.
  - apply list_find_Some in Hfind as (Hi & Hx & Hmin). cbn [fst snd].
    assert (existsb p v = true) as Hex.
    { apply existsb_elem. exists x. eauto using list_elem_of_lookup_2. }
    split_and!; [done|congruence|].
    intros l1 x' l2 -> Hl1 Hx'.
    assert (i = length l1) as ->.
    { destruct (Nat.lt_trichotomy i (length l1)) as [Hlt|[?|Hgt]]; [|done|].
      - rewrite lookup_app_l in Hi by done.
        rewrite Forall_forall in Hl1.
        rewrite (Hl1 x) in Hx by eauto using list_elem_of_lookup_2. done.
      - destruct (Hmin (length l1) x'); [by apply list_lookup_middle|done..]. }
    apply moveBack_hole.
  - apply list_find_None in Hfind. cbn [fst snd].
    assert (existsb p v = false) as Hex.
    { apply not_true_is_false. intros (x & Hx & Hp)%existsb_elem.
      rewrite Forall_forall in Hfind. by apply (Hfind x). }
    split_and!; [done..|].
    intros l1 x l2 -> _ Hx. rewrite Forall_forall in Hfind.
    destruct (Hfind x); [|done]. apply elem_of_app. right. by left.
Qed.

(** X21.  [VectorErase] on a vector without duplicates: it returns
    whether [e] was in the vector, and the vector afterwards has
    exactly the other elements and no duplicates. *)
Theorem VectorErase_spec v e :
  NoDup v →
  (VectorErase v e).1 = bool_decide (e ∈ v) ∧
  NoDup (VectorErase v e).2 ∧
  ∀ x, x ∈ (VectorErase v e).2 ↔ x ∈ v ∧ x ≠ e.
Proof.
  intros Hnd. unfold VectorErase.
  destruct (decide (e ∈ v)) as [Hin|Hnin].
  - apply list_elem_of_split in Hin as (l1 & l2 & ->).
    apply NoDup_app in Hnd as (Hnd1 & Hdisj & [Hnin2 Hnd2]%NoDup_cons).
    assert (e ∉ l1) as Hnin1 by (intros Hin; apply (Hdisj e Hin); by left).
    rewrite (list_find_first (λ x, x = e) l1 e l2); [|by apply Forall_forall; intros y Hy ->|done].
    cbn [fst snd]. rewrite moveBack_hole.
    rewrite bool_decide_eq_true_2 by (apply elem_of_app; right; by left).
    split_and!; [done| |].
    + rewrite hole_filled_Permutation. apply NoDup_app. split_and!; [done| |done].
      intros x Hx1 Hx2. apply (Hdisj x Hx1). by right.
    + intros x. rewrite hole_filled_Permutation, !elem_of_app, elem_of_cons.
      split; [intros [?|?]; split; [auto|congruence|auto|congruence]|].
      intros [[?|[?|?]] ?]; [auto|done|auto].
  - rewrite (proj2 (list_find_None (λ x, x = e) v));
      [|by apply Forall_forall; intros y Hy ->].
    cbn [fst snd]. rewrite bool_decide_eq_false_2 by done.
    split_and!; [done..|]. intros x. split; [|tauto].
    intros Hx. split; [done|]. by intros ->.
Qed.

(** ** VectorInsertUnique *)

(** X22.  [VectorInsertUnique] on a vector without duplicates: with the
    test ([b] true) it returns whether [e] was new, and appends it
    then; without the test it appends a new [e], and an [e] that is in
    the vector already is stopped by the assertion.  The vector it
    leaves has no duplicates. *)
Theorem VectorInsertUnique_spec v e (b : bool) :
  NoDup v →
  match VectorInsertUnique v e b with
  | Some (r, v') =>
      r = bool_decide (e ∉ v) ∧ v' = (if r then v ++ [e] else v) ∧ NoDup v'
  | None => b = false ∧ e ∈ v
  end.
Proof.
  intros Hnd. unfold VectorInsertUnique.
  assert (e ∉ v → NoDup (v ++ [e])) as Hsnoc.
  { intros Hnin. apply NoDup_app. split_and!; [done| |apply NoDup_singleton].
    by intros x Hx ->%list_elem_of_singleton. }
  destruct (decide (e ∈ v)) as [Hin|Hnin].
  - rewrite (bool_decide_eq_true_2 (e ∈ v)) by done.
    rewrite (bool_decide_eq_false_2 (e ∉ v)) by tauto.
    by destruct b.
  - rewrite (bool_decide_eq_false_2 (e ∈ v)) by done.
    rewrite (bool_decide_eq_true_2 (e ∉ v)) by done.
    destruct b; cbn; auto.
Qed.

(** ** The binary searches *)

Lemma partition_point_le (p : T → bool) v : (partition_point p v ≤ length v)%nat.
Proof. induction v as [|x v IH]; cbn; [lia|]. destruct (p x); cbn; lia. Qed.

Lemma partition_point_before (p : T → bool) v :
  Forall (λ y, p y = true) (take (partition_point p v) v).
Proof.
  induction v as [|x v IH]; cbn; [constructor|].
  destruct (p x) eqn:Hx; cbn; [|constructor]. by constructor.
Qed.

Lemma partition_point_at (p : T → bool) v x :
  v !! partition_point p v = Some x → p x = false.
Proof.
  induction v as [|y v IH]; cbn; [done|].
  destruct (p y) eqn:Hy; cbn; [done|]. congruence.
Qed.

(** The search of [lower_bound] on a range that the test splits in
    two, the elements that pass it in front. *)
Lemma lower_bound_loop_point rounds v value (comp : T → T → bool) (first len k : nat) :
  Forall (λ y, comp y value = true) (take k v) →
  Forall (λ y, comp y value = false) (drop k v) →
  (first ≤ k ≤ first + len)%nat → (first + len ≤ length v)%nat →
  (len ≤ rounds)%nat →
  lower_bound_loop rounds v value comp first len = k.
Proof.
  intros Htake Hdrop. rewrite Forall_forall in Htake, Hdrop.
  revert first len. induction rounds as [|rounds IH]; intros first len Hk Hlen Hr.
  { cbn. lia. }
  cbn [lower_bound_loop]. case_decide as Hpos; [|lia].
  pose proof (Nat.div_lt len 2 Hpos ltac:(lia)) as Hhalf.
  destruct (v !! (first + len / 2)%nat) as [x|] eqn:Hx.
  2:{ apply lookup_ge_None in Hx. lia. }
  destruct (comp x value) eqn:Hc.
  - apply IH; [|lia..].
    assert (first + len / 2 < k)%nat; [|lia].
    apply Nat.nle_gt. intros Hge.
    rewrite (Hdrop x) in Hc; [done|].
    apply (list_elem_of_lookup_2 _ (first + len / 2 - k)).
    rewrite lookup_drop. by replace (k + (first + len / 2 - k))%nat
      with (first + len / 2)%nat by lia.
  - apply IH; [|lia..].
    assert (k ≤ first + len / 2)%nat; [|lia].
    apply Nat.nlt_ge. intros Hlt.
    rewrite (Htake x) in Hc; [done|].
    apply (list_elem_of_lookup_2 _ (first + len / 2)). by rewrite lookup_take_lt.
Qed.

Lemma lower_bound_point v value (comp : T → T → bool) :
  Forall (λ y, comp y value = false)
         (drop (partition_point (λ x, comp x value) v) v) →
  lower_bound v value comp = partition_point (λ x, comp x value) v.
Proof.
  intros Hdrop. unfold lower_bound.
  pose proof (partition_point_le (λ x, comp x value) v).
  apply lower_bound_loop_point; [|done|lia..].
  apply (partition_point_before (λ x, comp x value)).
Qed.

Lemma upper_bound_loop_lower rounds v value (comp : T → T → bool) (first len : nat) :
  upper_bound_loop rounds v value comp first len
  = lower_bound_loop rounds v value (λ x y, negb (comp y x)) first len.
Proof.
  revert first len. induction rounds as [|rounds IH]; intros first len; [done|].
  cbn [upper_bound_loop lower_bound_loop]. case_decide; [|done].
  destruct (v !! _) as [x|]; [|done].
  by destruct (comp value x); cbn [negb]; rewrite IH.
Qed.

Lemma upper_bound_point v value (comp : T → T → bool) :
  Forall (λ y, negb (comp value y) = false)
         (drop (partition_point (λ x, negb (comp value x)) v) v) →
  upper_bound v value comp = partition_point (λ x, negb (comp value x)) v.
Proof.
  intros Hdrop. unfold upper_bound. rewrite upper_bound_loop_lower.
  by apply (lower_bound_point v value (λ x y, negb (comp y x))).
Qed.

(** ** Sorted vectors *)

Section Sorted.

Variable comp : T → T → bool.

(** Sorted by [comp]: no element is before an earlier one. *)
Local Abbreviation sorted := (StronglySorted (λ a b, comp b a = false)).

(** Sorted by [comp] without equivalent elements. *)
Local Abbreviation strictly_sorted := (StronglySorted (λ a b, comp a b = true)).

(** The places the two searches are after. *)
Local Abbreviation lower_point v e := (partition_point (λ x, comp x e) v).
Local Abbreviation upper_point v e := (partition_point (λ x, negb (comp e x)) v).

Lemma lower_point_found l1 e l2 :
  comp e e = false → strictly_sorted (l1 ++ e :: l2) →
  lower_point (l1 ++ e :: l2) e = length l1.
Proof.
  intros Hirr (Hlt & _ & _)%StronglySorted_app.
  induction l1 as [|x l1 IH]; cbn.
  - by rewrite Hirr.
  - rewrite (Hlt x e) by (by left).
    rewrite IH; [done|]. intros a b Ha Hb. apply Hlt; [by right|done].
Qed.

(** A strict weak order, as the standard asks of a comparison: it is
    asymmetric, and an element between two others in neither direction
    does not exist. *)
Hypothesis comp_asym : ∀ a b, comp a b = true → comp b a = false.
Hypothesis comp_between : ∀ a b c, comp a b = true → comp a c = true ∨ comp c b = true.

Lemma lower_point_after v e :
  sorted v → Forall (λ z, comp z e = false) (drop (lower_point v e) v).
Proof.
  induction 1 as [|x v Hs IH Hx]; cbn [partition_point]; [constructor|].
  destruct (comp x e) eqn:Hxe; cbn [drop]; [done|].
  constructor; [done|]. apply Forall_forall. intros z Hz.
  rewrite Forall_forall in Hx. specialize (Hx z Hz).
  apply not_true_is_false. intros Hze.
  destruct (comp_between z e x Hze); congruence.
Qed.

Lemma upper_point_after v e :
  sorted v → Forall (λ z, comp e z = true) (drop (upper_point v e) v).
Proof.
  induction 1 as [|x v Hs IH Hx]; cbn [partition_point]; [constructor|].
  destruct (comp e x) eqn:Hex; cbn [negb drop]; [|done].
  constructor; [done|]. apply Forall_forall. intros z Hz.
  rewrite Forall_forall in Hx. specialize (Hx z Hz).
  destruct (comp_between e x z Hex); congruence.
Qed.

(** On a sorted vector the searches end at these places. *)
Lemma lower_bound_sorted v e : sorted v → lower_bound v e comp = lower_point v e.
Proof.
  intros Hs. apply lower_bound_point.
  eapply Forall_impl; [by apply lower_point_after|]. done.
Qed.

Lemma upper_bound_sorted v e : sorted v → upper_bound v e comp = upper_point v e.
Proof.
  intros Hs. apply upper_bound_point.
  eapply Forall_impl; [by apply upper_point_after|].
  by intros z ->.
Qed.

(** X23.  [BinarySearch] on a sorted vector: a position it returns
    holds an element that is equivalent to [value] (neither is before
    the other), and every element at an earlier position is before
    [value]; it returns [last] only when no element of the vector is
    equivalent to [value]. *)
Theorem BinarySearch_spec v value :
  sorted v →
  match BinarySearch v value comp with
  | Some i =>
      ∃ x, v !! i = Some x ∧ comp x value = false ∧ comp value x = false ∧
           ∀ j y, v !! j = Some y → (j < i)%nat → comp y value = true
  | None => ∀ x, x ∈ v → comp x value = true ∨ comp value x = true
  end.
Proof.
  intros Hs. unfold BinarySearch. rewrite lower_bound_sorted by done.
  pose proof (partition_point_before (λ x, comp x value) v) as Hbefore.
  pose proof (lower_point_after v value Hs) as Hafter.
  cbv beta in Hbefore.
  set (first := lower_point v value) in *.
  assert (∀ x, x ∈ v → comp x value = false →
               ∃ k, drop first v !! k = Some x) as Hdrop.
  { intros x Hx Hxv. rewrite <- (take_drop first v) in Hx.
    apply elem_of_app in Hx as [Hx|Hx].
    - rewrite Forall_forall in Hbefore. rewrite (Hbefore x Hx) in Hxv. done.
    - by apply list_elem_of_lookup_1. }
  destruct (v !! first) as [x|] eqn:Hx.
  - pose proof (partition_point_at (λ x, comp x value) v x Hx) as Hxv.
    cbv beta in Hxv.
    destruct (comp value x) eqn:Hvx; cbn [negb].
    + intros z Hz. destruct (comp z value) eqn:Hzv; [by left|right].
      destruct (Hdrop z Hz Hzv) as [k Hk].
      destruct k as [|k].
      * rewrite lookup_drop, Nat.add_0_r in Hk. congruence.
      * assert (comp z x = false) as Hzx.
        { rewrite <- (take_drop first v) in Hs.
          apply StronglySorted_app in Hs as (_ & _ & Hs).
          rewrite (drop_S v x first Hx) in Hs, Hk.
          apply StronglySorted_inv in Hs as [_ Hall].
          rewrite Forall_forall in Hall. apply Hall.
          cbn in Hk. eauto using list_elem_of_lookup_2. }
        destruct (comp_between value x z Hvx); congruence.
    + exists x. split_and!; [done..|].
      intros j y Hj Hlt. rewrite Forall_forall in Hbefore. apply Hbefore.
      apply (list_elem_of_lookup_2 _ j). by rewrite lookup_take_lt.
  - intros z Hz. destruct (comp z value) eqn:Hzv; [by left|].
    destruct (Hdrop z Hz Hzv) as [k Hk].
    apply lookup_ge_None in Hx. rewrite lookup_drop in Hk.
    apply lookup_lt_Some in Hk. lia.
Qed.

(** ** VectorInsertSorted *)

Lemma vector_insert_split v pos e :
  (pos ≤ length v)%nat →
  vector_insert v pos e !! pos = Some e ∧ delete pos (vector_insert v pos e) = v.
Proof.
  intros Hpos. unfold vector_insert.
  assert (length (take pos v) = pos) as Hlen by (rewrite length_take; lia).
  split.
  - by apply list_lookup_middle.
  - pose proof (delete_middle (take pos v) (drop pos v) e) as Hdel.
    rewrite Hlen in Hdel. rewrite Hdel. apply take_drop.
Qed.

(** X24.  [VectorInsertSorted] on a sorted vector: the vector it leaves
    is sorted and is the old one with [item] put in at the position it
    returns; [item] comes behind every element it is not before, so
    behind the elements equivalent to it. *)
Theorem VectorInsertSorted_spec vec item :
  sorted vec →
  let '(pos, vec') := VectorInsertSorted vec item comp in
  sorted vec' ∧ vec' !! pos = Some item ∧ delete pos vec' = vec ∧
  (∀ j y, vec !! j = Some y → (j < pos)%nat → comp item y = false) ∧
  (∀ j y, vec !! j = Some y → (pos ≤ j)%nat → comp item y = true).
Proof.
  intros Hs. unfold VectorInsertSorted.
  rewrite upper_bound_sorted by done.
  pose proof (partition_point_le (λ x, negb (comp item x)) vec) as Hle.
  assert (Forall (λ y, comp item y = false) (take (upper_point vec item) vec))
    as Hbefore.
  { eapply Forall_impl; [apply (partition_point_before (λ x, negb (comp item x)))|].
    intros y Hy. by apply negb_true_iff in Hy. }
  pose proof (upper_point_after vec item Hs) as Hafter.
  set (pos := upper_point vec item) in *.
  destruct (vector_insert_split vec pos item Hle) as [Hat Hdel].
  rewrite Forall_forall in Hbefore, Hafter.
  split_and!; [|done..| |].
  - unfold vector_insert. rewrite <- (take_drop pos vec) in Hs.
    apply StronglySorted_app in Hs as (H12 & Hs1 & Hs2).
    apply StronglySorted_app. split_and!; [|done|].
    + intros a b Ha [->|Hb]%elem_of_cons; auto.
    + constructor; [done|]. apply Forall_forall. intros z Hz.
      apply comp_asym. auto.
  - intros j y Hj Hlt. apply Hbefore.
    apply (list_elem_of_lookup_2 _ j). by rewrite lookup_take_lt.
  - intros j y Hj Hge. apply Hafter.
    apply (list_elem_of_lookup_2 _ (j - pos)). rewrite lookup_drop.
    by replace (pos + (j - pos))%nat with j by lia.
Qed.

End Sorted.

(** ** Sorted vectors without equal elements *)

Lemma swapLoop_spec l2 l1 x rounds :
  (length l2 ≤ rounds)%nat →
  swapLoop rounds (l1 ++ x :: l2) (length l1) = l1 ++ l2 ++ [x].
Proof.
  revert l1 rounds. induction l2 as [|y l2 IH]; intros l1 rounds Hr.
  - destruct rounds as [|rounds]; [done|]. cbn [swapLoop].
    rewrite list_lookup_middle by done.
    rewrite lookup_ge_None_2; [done|]. rewrite length_app. cbn. lia.
  - destruct rounds as [|rounds]; [cbn in Hr; lia|]. cbn [swapLoop].
    rewrite list_lookup_middle by done.
    replace (l1 ++ x :: y :: l2) with ((l1 ++ [x]) ++ y :: l2)
      by (by rewrite <- app_assoc).
    rewrite (list_lookup_middle (l1 ++ [x]) l2 y (S (length l1)))
      by (rewrite length_app; cbn; lia).
    rewrite <- app_assoc. cbn [app].
    rewrite insert_app_r_alt, Nat.sub_diag by lia. cbn [insert list_insert].
    rewrite insert_app_r_alt by lia.
    replace (S (length l1) - length l1)%nat with 1%nat by lia.
    cbn [insert list_insert].
    replace (l1 ++ y :: x :: l2) with ((l1 ++ [y]) ++ x :: l2)
      by (by rewrite <- app_assoc).
    replace (S (length l1)) with (length (l1 ++ [y]))
      by (rewrite length_app; cbn; lia).
    rewrite IH by (cbn in Hr; lia). by rewrite <- !app_assoc.
Qed.

Section UniqueSorted.

Variable comp : T → T → bool.

Local Abbreviation strictly_sorted := (StronglySorted (λ a b, comp a b = true)).

Local Abbreviation lower_point v e := (partition_point (λ x, comp x e) v).

(** A strict order: on a vector sorted by it without equal elements,
    the elements before a value come first, as [std::lower_bound]
    asks. *)
Hypothesis comp_irrefl : ∀ a, comp a a = false.
Hypothesis comp_trans :
  ∀ a b c, comp a b = true → comp b c = true → comp a c = true.

Lemma lower_bound_strict v e :
  strictly_sorted v → lower_bound v e comp = lower_point v e.
Proof.
  intros Hs. apply lower_bound_point.
  induction Hs as [|x v Hs IH Hx]; cbn [partition_point]; [constructor|].
  destruct (comp x e) eqn:Hxe; cbn [drop]; [done|].
  constructor; [done|]. apply Forall_forall. intros z Hz.
  rewrite Forall_forall in Hx. specialize (Hx z Hz).
  apply not_true_is_false. intros Hze.
  by rewrite (comp_trans x z e Hx Hze) in Hxe.
Qed.

Lemma strictly_sorted_split l1 e l2 :
  strictly_sorted (l1 ++ e :: l2) → (e ∉ l1) ∧ (e ∉ l2).
Proof.
  intros (Hlt & _ & [_ Hl2]%StronglySorted_inv)%StronglySorted_app. split.
  - intros Hin. specialize (Hlt e e Hin ltac:(by left)).
    by rewrite comp_irrefl in Hlt.
  - intros Hin. rewrite Forall_forall in Hl2. specialize (Hl2 e Hin).
    by rewrite comp_irrefl in Hl2.
Qed.

Lemma filter_other l1 e l2 :
  e ∉ l1 → e ∉ l2 → filter (λ x, x ≠ e) (l1 ++ e :: l2) = l1 ++ l2.
Proof.
  intros H1 H2. rewrite filter_app, filter_cons_False by (by intros []).
  rewrite !filter_all_in; [done|..]; by intros x Hx ->.
Qed.

Lemma VectorEraseUniqueSorted_closed v e :
  strictly_sorted v →
  VectorEraseUniqueSorted v e comp
  = (bool_decide (e ∈ v), filter (λ x, x ≠ e) v).
Proof.
  intros Hs. unfold VectorEraseUniqueSorted.
  rewrite lower_bound_strict by done.
  destruct (decide (e ∈ v)) as [Hin|Hnin].
  - apply list_elem_of_split in Hin as (l1 & l2 & ->).
    destruct (strictly_sorted_split l1 e l2 Hs) as [H1 H2].
    rewrite lower_point_found by done.
    rewrite list_lookup_middle by done.
    rewrite decide_False by (by intros []).
    rewrite swapLoop_spec by (rewrite length_app; cbn; lia).
    rewrite filter_other by done.
    rewrite bool_decide_eq_true_2 by (apply elem_of_app; right; by left).
    by rewrite app_assoc, removelast_last.
  - rewrite bool_decide_eq_false_2 by done.
    rewrite filter_all_in by (by intros x Hx ->).
    destruct (v !! lower_point v e) as [x|] eqn:Hx; [|done].
    rewrite decide_True; [done|]. intros ->.
    eauto using list_elem_of_lookup_2.
Qed.

(** X25.  [VectorEraseUniqueSorted] on a vector that is sorted without
    equal elements by a strict order (irreflexive and transitive): it
    returns whether [e] was in the vector, and leaves the other
    elements in their order, which is sorted again. *)
Theorem VectorEraseUniqueSorted_spec v e :
  strictly_sorted v →
  VectorEraseUniqueSorted v e comp
  = (bool_decide (e ∈ v), filter (λ x, x ≠ e) v) ∧
  strictly_sorted (VectorEraseUniqueSorted v e comp).2.
Proof.
  intros Hs. rewrite VectorEraseUniqueSorted_closed by done.
  split; [done|]. cbn [snd].
  eapply StronglySorted_sublist; [apply sublist_filter|done].
Qed.

Hypothesis comp_total : ∀ a b, comp a b = false → comp b a = false → a = b.

(** X26.  [VectorInsertUniqueSorted] on a vector that is sorted without
    equal elements, by a total order: it returns whether [e] was new;
    the vector it leaves is sorted without equal elements and holds
    [e] and what it held; and [VectorEraseUniqueSorted] of a new [e]
    gives back the vector from before the insertion. *)
Theorem VectorInsertUniqueSorted_spec v e :
  strictly_sorted v →
  let '(r, v') := VectorInsertUniqueSorted v e comp in
  r = bool_decide (e ∉ v) ∧ strictly_sorted v' ∧
  (∀ x, x ∈ v' ↔ x = e ∨ x ∈ v) ∧
  (e ∈ v → v' = v) ∧
  (e ∉ v → VectorEraseUniqueSorted v' e comp = (true, v)).
Proof.
  intros Hs. unfold VectorInsertUniqueSorted.
  rewrite lower_bound_strict by done.
  destruct (decide (e ∈ v)) as [Hin|Hnin].
  - apply list_elem_of_split in Hin as (l1 & l2 & ->).
    rewrite lower_point_found by done.
    rewrite list_lookup_middle by done.
    rewrite decide_True by done.
    assert (e ∈ l1 ++ e :: l2) as Hin by (apply elem_of_app; right; by left).
    rewrite bool_decide_eq_false_2 by tauto.
    split_and!; [done..| |done|done].
    intros x. split; [auto|]. by intros [->|?].
  - pose proof (partition_point_le (λ x, comp x e) v) as Hle.
    pose proof (partition_point_before (λ x, comp x e) v) as Hbefore.
    cbv beta in Hbefore.
    set (iter := lower_point v e) in *.
    assert (Forall (λ z, comp e z = true) (drop iter v)) as Hafter.
    { destruct (drop iter v) as [|x l2] eqn:Hdrop; [constructor|].
      assert (v !! iter = Some x) as Hx.
      { rewrite <- (Nat.add_0_r iter), <- lookup_drop. by rewrite Hdrop. }
      assert (comp e x = true) as Hex.
      { apply not_false_iff_true. intros Hf.
        apply Hnin.
        rewrite (comp_total e x Hf (partition_point_at (λ x, comp x e) v x Hx)).
        eauto using list_elem_of_lookup_2. }
      rewrite <- (take_drop iter v), Hdrop in Hs.
      apply StronglySorted_app in Hs as (_ & _ & [_ Hl2]%StronglySorted_inv).
      constructor; [done|]. eapply Forall_impl; [exact Hl2|].
      intros z Hz. by apply (comp_trans e x z). }
    assert (strictly_sorted (vector_insert v iter e)) as Hs'.
    { unfold vector_insert. rewrite <- (take_drop iter v) in Hs.
      apply StronglySorted_app in Hs as (H12 & Hs1 & Hs2).
      rewrite Forall_forall in Hbefore.
      apply StronglySorted_app. split_and!; [|done|by constructor].
      intros a b Ha [->|Hb]%elem_of_cons; auto. }
    assert (∀ x, x ∈ vector_insert v iter e ↔ x = e ∨ x ∈ v) as Helem.
    { intros x. unfold vector_insert. rewrite <- (take_drop iter v) at 3.
      rewrite !elem_of_app, elem_of_cons. tauto. }
    assert ((if v !! iter is Some x
             then if decide (x = e) then (false, v)
                  else (true, vector_insert v iter e)
             else (true, vector_insert v iter e))
            = (true, vector_insert v iter e)) as ->.
    { destruct (v !! iter) as [x|] eqn:Hx; [|done].
      rewrite decide_False; [done|]. intros ->.
      eauto using list_elem_of_lookup_2. }
    rewrite bool_decide_eq_true_2 by done.
    split_and!; [done..| |].
    + by intros ?.
    + intros _. rewrite VectorEraseUniqueSorted_closed by done.
      rewrite bool_decide_eq_true_2 by (apply Helem; by left).
      f_equal. unfold vector_insert.
      rewrite filter_other; [apply take_drop|..];
        intros Hin; apply Hnin; rewrite <- (take_drop iter v), elem_of_app; auto.
Qed.

End UniqueSorted.

(** ** VectorUnique *)

Lemma VectorUnique_inner_spec rounds l1 x l2 l3 (uniqPred : T → T → bool) :
  (length l3 ≤ rounds)%nat →
  ∃ l3', VectorUnique_inner rounds (l1 ++ x :: l2 ++ l3) uniqPred
           (length l1) (S (length l1 + length l2))
         = l1 ++ x :: l2 ++ l3' ∧
         l3' ≡ₚ filter (λ y, uniqPred x y = false) l3.
Proof.
  revert l2 l3. induction rounds as [|rounds IH]; intros l2 l3 Hr.
  { destruct l3; [|cbn in Hr; lia]. by exists []. }
  cbn [VectorUnique_inner]. rewrite list_lookup_middle by done.
  assert (∀ l, l1 ++ x :: l2 ++ l = (l1 ++ x :: l2) ++ l) as Hassoc
    by (intros; by rewrite <- app_assoc).
  assert (S (length l1 + length l2) = length (l1 ++ x :: l2)) as Hj
    by (rewrite length_app; cbn; lia).
  destruct l3 as [|y l3].
  { rewrite lookup_ge_None_2 by (rewrite app_nil_r, Hj; lia). by exists []. }
  rewrite (Hassoc (y :: l3)), Hj, list_lookup_middle by done.
  destruct (uniqPred x y) eqn:Hy.
  - rewrite moveBack_hole, <- Hj, <- Hassoc.
    destruct (IH l2 (hole_filled l3)) as (l3' & -> & Hperm).
    { rewrite hole_filled_length. cbn in Hr. lia. }
    exists l3'. split; [done|].
    by rewrite filter_cons_False, Hperm, hole_filled_Permutation by congruence.
  - destruct (IH (l2 ++ [y]) l3) as (l3' & Heq & Hperm); [cbn in Hr; lia|].
    rewrite <- app_assoc in Heq. cbn [app] in Heq.
    rewrite length_app in Heq. cbn [length] in Heq.
    replace (S (length l1 + (length l2 + 1))) with (S (length (l1 ++ x :: l2)))
      in Heq by (rewrite <- Hj; lia).
    rewrite <- Hassoc, Heq. exists (y :: l3'). rewrite <- app_assoc. cbn [app].
    split; [done|]. by rewrite filter_cons_True, Hperm by done.
Qed.

Lemma VectorUnique_outer_spec rounds l1 l2 (uniqPred : T → T → bool) :
  (length l2 ≤ rounds)%nat →
  ∃ r, VectorUnique_outer rounds (l1 ++ l2) uniqPred (length l1) = l1 ++ r ∧
       StronglySorted (λ a b, uniqPred a b = false) r ∧
       r ⊆+ l2 ∧
       (∀ y, y ∈ l2 → ∃ x, x ∈ r ∧ (x = y ∨ uniqPred x y = true)) ∧
       head r = head l2.
Proof.
  revert l1 l2. induction rounds as [|rounds IH]; intros l1 l2 Hr.
  { destruct l2; [|cbn in Hr; lia]. exists [].
    split_and!; first [done|constructor|by intros y ?%elem_of_nil]. }
  cbn [VectorUnique_outer]. destruct l2 as [|x l2].
  { rewrite decide_False by (rewrite app_nil_r; lia).
    exists []. split_and!; first [done|constructor|by intros y ?%elem_of_nil]. }
  rewrite decide_True by (rewrite length_app; cbn; lia).
  destruct (VectorUnique_inner_spec (length (l1 ++ x :: l2)) l1 x [] l2 uniqPred)
    as (l2' & Hinner & Hperm).
  { rewrite length_app. cbn. lia. }
  cbn [app length] in Hinner. rewrite Nat.add_0_r in Hinner. rewrite Hinner.
  destruct (IH (l1 ++ [x]) l2') as (r & Houter & Hsort & Hsub & Hrep & _).
  { rewrite Hperm. pose proof (length_filter (λ y, uniqPred x y = false) l2).
    cbn in Hr. lia. }
  rewrite <- app_assoc, length_app, Nat.add_1_r in Houter. cbn [app] in Houter.
  rewrite Houter. exists (x :: r). rewrite <- app_assoc. cbn [app].
  assert (∀ y, y ∈ l2' ↔ y ∈ l2 ∧ uniqPred x y = false) as Hl2'.
  { intros y. rewrite Hperm, list_elem_of_filter. tauto. }
  split_and!; [done| | | |done].
  - constructor; [done|]. apply Forall_forall. intros y Hy.
    apply Hl2'. by eapply elem_of_submseteq.
  - apply submseteq_skip. etrans; [exact Hsub|]. rewrite Hperm.
    apply sublist_submseteq, sublist_filter.
  - intros y [->|Hy]%elem_of_cons.
    { exists x. split; [by left|by left]. }
    destruct (uniqPred x y) eqn:Hxy.
    { exists x. split; [by left|by right]. }
    destruct (Hrep y) as (x' & Hx' & Hor); [by apply Hl2'|].
    exists x'. split; [by right|done].
Qed.

(** X27.  [VectorUnique] with a predicate: in the vector it leaves no
    element stands behind one that the predicate pairs it with; the
    vector holds only elements of the old one, none more often than
    it was there, the first one still first; and every element of the
    old vector is in it or is paired with one that is. *)
Theorem VectorUnique_spec v (uniqPred : T → T → bool) :
  let r := VectorUnique v uniqPred in
  StronglySorted (λ a b, uniqPred a b = false) r ∧
  r ⊆+ v ∧
  (∀ y, y ∈ v → ∃ x, x ∈ r ∧ (x = y ∨ uniqPred x y = true)) ∧
  head r = head v.
Proof.
  cbv zeta. unfold VectorUnique.
  destruct (VectorUnique_outer_spec (length v) [] v uniqPred ltac:(done))
    as (r & Heq & ?). cbn [app length] in Heq. by rewrite Heq.
Qed.

(** X28.  [VectorUnique] with [operator==]: the vector it leaves has no
    element twice and holds exactly the elements of the old one. *)
Theorem VectorUnique_eq_spec v :
  let r := VectorUnique v (λ a b, bool_decide (a = b)) in
  NoDup r ∧ ∀ x, x ∈ r ↔ x ∈ v.
Proof.
  cbv zeta. unfold VectorUnique.
  destruct (VectorUnique_outer_spec (length v) [] v (λ a b, bool_decide (a = b))
              ltac:(done)) as (r & Heq & Hsort & Hsub & Hrep & _).
  cbn [app length] in Heq. rewrite Heq. split.
  - clear -Hsort. induction Hsort as [|x r _ IH Hx]; constructor; [|done].
    intros Hin. rewrite Forall_forall in Hx. specialize (Hx x Hin).
    by rewrite bool_decide_eq_true_2 in Hx.
  - intros x. split; [intros Hx; by eapply elem_of_submseteq|].
    intros (x' & Hx' & [->| ->%bool_decide_eq_true])%Hrep; done.
Qed.

(** ** MapEraseIf *)

(** X29.  [MapEraseIf] leaves exactly the entries without the
    predicate. *)
Theorem MapEraseIf_spec `{Countable K} {V} (c : gmap K V) (p : K * V → bool) k :
  MapEraseIf c p !! k
  = match c !! k with
    | Some a => if p (k, a) then None else Some a
    | None => None
    end.
Proof.
  unfold MapEraseIf.
  assert (∀ c0 : gmap K V,
    map_fold (λ k a c', if p (k, a) then delete k c' else c') c0 c !! k
    = match c !! k with
      | Some a => if p (k, a) then None else c0 !! k
      | None => c0 !! k
      end) as Hfold.
  { intros c0. revert c.
    apply (map_fold_weak_ind (λ (r m : gmap K V),
             r !! k = match m !! k with
                      | Some a => if p (k, a) then None else c0 !! k
                      | None => c0 !! k
                      end)).
    - by rewrite lookup_empty.
    - intros i x m r Hi IH. rewrite lookup_insert.
      destruct (decide (i = k)) as [->|Hne].
      + rewrite Hi in IH. destruct (p (k, x)); [by rewrite lookup_delete_eq|done].
      + destruct (p (i, x)); [by rewrite lookup_delete_ne|done]. }
  rewrite Hfold. destruct (c !! k) as [x|] eqn:Hx; [|done].
  by destruct (p (k, x)).
Qed.

End ContainerProperties.

(** * The properties on the concrete key model *)

Lemma demo_AnyMod_SetAnyBit (ks : Demo.KS) :
  AnyMod (KeySyms := unit) (SetAnyBit (KeySyms := unit) ks) = true.
Proof.
  change (Demo.anyMod (Demo.setAnyBit ks) = true). done.
Qed.

Lemma demo_sample_reachable : reachable Demo.sample.
Proof.
  unfold Demo.sample, Demo.binds. cbn [fold_left fst snd].
  do 4 apply reach_Bind. apply reach_Init. by apply reach_empty.
Qed.

Lemma demo_sample_counted : counted Demo.sample.
Proof.
  unfold Demo.sample, Demo.binds. cbn [fold_left fst snd].
  repeat (apply counted_Bind; [|by vm_compute]).
  apply counted_Init. by apply counted_empty.
Qed.

(** The example of the comment in [ParseKeyChain]: three commas are read
    as two comma keys. *)
Example ParseKeyChain_three_commas :
  Demo.chain ",,," = Some [(44, 0, true); (44, 0, true)].
Proof. by vm_compute. Qed.

(** ** The chord parser of the concrete model and the key reference

    The modifier names have no [0] in them, so the modifiers in front
    of a key reference are read as without it; behind them the key
    goes to the end of the token, and no key of the model goes on with
    [0x2c]. *)

Lemma demo_stripPrefix_length (p s rest : cstring) :
  Demo.stripPrefix p s = Some rest → length s = (length p + length rest)%nat.
Proof.
  revert s. induction p as [|a p IH]; intros s.
  - destruct s; cbn; by intros [= <-].
  - destruct s as [|b s]; cbn; [done|].
    destruct (decide (a = b)); [|done]. intros ?%IH. lia.
Qed.

Lemma demo_stripPrefix_app (p F X : cstring) x :
  x ∉ p →
  Demo.stripPrefix p (F ++ x :: X) = (.++ x :: X) <$> Demo.stripPrefix p F.
Proof.
  revert F. induction p as [|a p IH]; intros F Hx; [by destruct F|].
  apply not_elem_of_cons in Hx as [Hxa Hx].
  destruct F as [|b F]; cbn.
  - by rewrite decide_False by done.
  - destruct (decide (a = b)); [by apply IH|done].
Qed.

Lemma demo_stripModifier_app (F X : cstring) :
  Demo.stripModifier (F ++ "0"%char :: X)
  = (λ mr, (mr.1, mr.2 ++ "0"%char :: X)) <$> Demo.stripModifier F.
Proof.
  unfold Demo.stripModifier, Demo.modifierNames. cbn [first_some fst snd].
  repeat (rewrite demo_stripPrefix_app by (by apply (bool_decide_unpack _));
          destruct (Demo.stripPrefix _ F); [done|]; cbn [fmap option_fmap option_map]).
  done.
Qed.

Lemma demo_stripModifier_shorter (s rest : cstring) m :
  Demo.stripModifier s = Some (m, rest) → (length rest < length s)%nat.
Proof.
  unfold Demo.stripModifier, Demo.modifierNames. cbn [first_some fst snd].
  repeat (destruct (Demo.stripPrefix _ s) eqn:Hs;
          [intros [= <- <-]; apply demo_stripPrefix_length in Hs; cbn in Hs; lia|clear Hs]).
  done.
Qed.

Lemma demo_parseModifiers_app (n k : nat) (F X : cstring) mods :
  (length F ≤ n)%nat →
  Demo.parseModifiers (n + k) (F ++ "0"%char :: X) mods
  = ((Demo.parseModifiers n F mods).1,
     (Demo.parseModifiers n F mods).2 ++ "0"%char :: X).
Proof.
  revert F mods. induction n as [|n IH]; intros F mods Hn.
  - destruct F; [|cbn in Hn; lia]. cbn [Demo.parseModifiers fst snd app].
    destruct k as [|k]; [done|]. cbn [Nat.add Demo.parseModifiers].
    pose proof (demo_stripModifier_app [] X) as Hs. cbn [app] in Hs.
    by rewrite Hs.
  - cbn [Nat.add Demo.parseModifiers]. rewrite demo_stripModifier_app.
    destruct (Demo.stripModifier F) as [[m rest]|] eqn:Hs; cbn; [|done].
    apply demo_stripModifier_shorter in Hs. apply IH. lia.
Qed.

Lemma demo_hexValue_x (s : cstring) acc : "x"%char ∈ s → Demo.hexValue s acc = None.
Proof.
  revert acc. induction s as [|c s IH]; intros acc; [by intros ?%elem_of_nil|].
  intros [<-|Hs]%elem_of_cons; [done|]. cbn.
  destruct (Demo.hexDigit c); [by apply IH|done].
Qed.

Lemma demo_parseKey_reference (r X : cstring) :
  is_Some (Demo.parseKey (r ++ commaHex ++ X)) → Demo.parseKey r = None.
Proof.
  destruct r as [|a [|b r]]; [done|..].
  - intros [k Hk]. exfalso. revert Hk. unfold Demo.parseKey. cbn.
    destruct (decide ("0"%char = a)) as [<-|]; [done|].
    rewrite decide_False by (intros [=]).
    destruct (decide ("s"%char = a)) as [<-|]; [done|]. done.
  - intros [k Hk]. exfalso. revert Hk. unfold Demo.parseKey.
    cbn [Demo.stripPrefix list_ascii_of_string app].
    destruct (decide ("0"%char = a)) as [<-|].
    + destruct (decide ("x"%char = b)) as [<-|].
      * destruct r as [|c r]; cbn [app commaHex list_ascii_of_string].
        -- by rewrite demo_hexValue_x by set_solver.
        -- by rewrite demo_hexValue_x by set_solver.
      * rewrite decide_False by (intros [=]). done.
    + rewrite decide_False.
      2:{ intros Heq%(f_equal length). rewrite !length_cons, length_app in Heq.
          cbn in Heq. lia. }
      destruct (decide ("s"%char = a)) as [<-|]; [|done].
      destruct (decide ("c"%char = b)) as [<-|]; [|done].
      destruct r as [|c r]; [done|]. cbn.
      destruct (decide ("_"%char = c)) as [<-|]; [|done].
      destruct r as [|d r]; [done|]. cbn. by destruct r.
Qed.

Lemma demo_hexReferenceInKey : hexReferenceInKey (CKeySet := Demo.KS) ().
Proof.
  intros front behind [ks Hks]. revert Hks. cbn [Parse Demo.model].
  unfold Demo.parse. rewrite !fmap_app.
  change (Demo.toLower <$> commaHex) with ("0"%char :: list_ascii_of_string "x2c").
  rewrite <- app_comm_cons.
  set (F := Demo.toLower <$> front). set (X := _ ++ (Demo.toLower <$> behind)).
  replace (length (F ++ "0"%char :: X)) with (length F + length ("0"%char :: X))%nat
    by by rewrite length_app.
  rewrite demo_parseModifiers_app by done.
  destruct (Demo.parseModifiers (length F) F 0) as [mods r]. cbn [fst snd].
  pose proof (demo_parseKey_reference r (Demo.toLower <$> behind)) as Hkey.
  change (commaHex ++ (Demo.toLower <$> behind)) with ("0"%char :: X) in Hkey.
  destruct (Demo.parseKey (r ++ "0"%char :: X)) as [[k c]|]; [|done].
  intros _. by rewrite Hkey.
Qed.


Example resolution_sample :
  Demo.lines <$> GetKeyBindingList_chains Demo.sample [Demo.key_a] [Demo.scan_a]
  = Some [("attack", 2); ("area", 4); ("guard", 1)]%string.
Proof. by vm_compute. Qed.

Lemma merge_keeps_lower_index_witness :
  ∃ m, MergeActionListsByTrigger Demo.listA Demo.listB [] = [] ++ m ∧
       filter (λ x, lineOf x = "attack"%string) m
       = [Demo.binding "sc_a" "attack" Demo.scan_a 2] ∧
       (5 ≠ 2 → Demo.binding "a" "attack" Demo.key_a 5 ∉ m).
Proof.
  apply (merge_keeps_lower_index (KeySyms := unit) Demo.listA Demo.listB []
           (Demo.binding "a" "attack" Demo.key_a 5)
           (Demo.binding "sc_a" "attack" Demo.scan_a 2) false).
  - apply (bool_decide_unpack _). by vm_compute.
  - apply (bool_decide_unpack _). by vm_compute.
  - apply (bool_decide_unpack _). by vm_compute.
  - apply (bool_decide_unpack _). by vm_compute.
  - apply (bool_decide_unpack _). by vm_compute.
  - right. left.
  - left.
  - reflexivity.
Defined.

Lemma resolution_order_witness :
  ∃ r, GetKeyBindingList_chains Demo.sample [Demo.key_a] [Demo.scan_a] = Some r ∧
       ∀ i j a b, r !! i = Some a → r !! j = Some b →
         (triggerAnyMod a = false → triggerAnyMod b = true → (i < j)%nat) ∧
         (triggerAnyMod a = triggerAnyMod b →
          bindingIndex a < bindingIndex b → (i < j)%nat).
Proof.
  apply (resolution_order demo_AnyMod_SetAnyBit Demo.sample
           [Demo.key_a] [Demo.scan_a]).
  - exact demo_sample_counted.
  - discriminate.
  - discriminate.
Defined.

Lemma GetKeyBindingList_negative_key_witness :
  GetKeyBindingList_ks Demo.sample Demo.invalid true = [].
Proof.
  apply (GetKeyBindingList_negative_key Demo.sample Demo.invalid true).
  vm_compute. reflexivity.
Defined.

Lemma AddActionToKeyMap_idempotent_witness :
  let kb := Demo.binding "a" "attack" Demo.key_a 0 in
  let m : gmap Demo.KS (list KeyBinding) := ∅ in
  let l := default [] (m !! Demo.key_a) in
  (Exists (sameLine kb) l → AddActionToKeyMap m kb 0 = (m, 0)) ∧
  (¬ Exists (sameLine kb) l →
   let index := to_int (0 + 1) in
   AddActionToKeyMap m kb 0
   = (<[Demo.key_a := l ++ [mkKeyBinding (action kb) (keyChain kb)
                                         (boundWith kb) index]]> m, index) ∧
   (INT_MIN ≤ 0 < INT_MAX →
    index = 0 + 1 ∧
    ∀ k l' x, m !! k = Some l' → x ∈ l' →
              bindingIndex x ≤ 0 → bindingIndex x ≠ index)) ∧
  ∀ n, let r := Nat.iter (S n) (λ s, AddActionToKeyMap s.1 kb s.2) (m, 0) in
       r = AddActionToKeyMap m kb 0 ∧
       (NoDup (lineOf <$> l) →
        length (filter (sameLine kb) (default [] (r.1 !! Demo.key_a))) = 1%nat).
Proof.
  apply (AddActionToKeyMap_idempotent ∅
           (Demo.binding "a" "attack" Demo.key_a 0) 0 Demo.key_a).
  reflexivity.
Defined.

Lemma Bind_failure_atomic_witness :
  Bind Demo.sample "Ctrl+nokey" "attack" = (false, Demo.sample).
Proof.
  apply (Bind_failure_atomic Demo.sample "Ctrl+nokey" "attack").
  right. intros kc Hkc. vm_compute in Hkc. discriminate.
Defined.

Lemma unbindall_baseline_witness :
  let st' := ExecuteCommand_unbindall Demo.sample in
  let chat := mkKeyBinding (parseAction "chat") [Demo.enter] "enter" 1 in
  getBindings (IsKeyCode Demo.enter) st' = {[ Demo.enter := [chat] ]} ∧
  getBindings (negb (IsKeyCode Demo.enter)) st' = ∅ ∧
  bindingsCount st' = 1 ∧
  ∃ r, GetKeyBindingList_chains st' [Demo.enter] [Demo.scan_a] = Some r ∧ chat ∈ r.
Proof.
  apply (unbindall_baseline Demo.sample Demo.enter [Demo.enter] [Demo.scan_a]).
  - vm_compute. reflexivity.
  - vm_compute. reflexivity.
  - apply (bool_decide_unpack _). vm_compute. exact I.
  - vm_compute. discriminate.
  - vm_compute. reflexivity.
  - reflexivity.
  - vm_compute. reflexivity.
  - discriminate.
Defined.

Lemma Bind_stateful_wildcard_witness :
  let st' := (Bind Demo.sample "Shift+w" "moveforward").2 in
  ∃ kc ks trigger l kb,
    ParseKeyChain (keySyms Demo.sample) (list_ascii_of_string "Shift+w") = Some kc ∧
    last kc = Some ks ∧
    getBindings (IsKeyCode trigger) st' !! trigger = Some l ∧
    kb ∈ l ∧ lineOf kb = line (parseAction "moveforward") ∧
    last (keyChain kb) = Some trigger ∧
    (command (parseAction "moveforward") ∈ statefulCommands Demo.sample →
     trigger = SetAnyBit ks ∧ triggerAnyMod kb = true) ∧
    (command (parseAction "moveforward") ∉ statefulCommands Demo.sample →
     trigger = ks).
Proof.
  apply (Bind_stateful_wildcard demo_AnyMod_SetAnyBit Demo.sample
           "Shift+w" "moveforward").
  - exact demo_sample_reachable.
  - vm_compute. reflexivity.
Defined.

Lemma UnBind_frame_witness :
  let l := [ Demo.binding "a" "attack" Demo.key_a 2;
             Demo.binding "a" "area" Demo.key_a 4 ] in
  let st' := (UnBind Demo.sample "a" "attack").2 in
  (RemoveCommandFromList l "attack").2
    = filter (λ kb, command (action kb) ≠ "attack"%string) l ∧
  getBindings (IsKeyCode Demo.key_a) st' !! Demo.key_a
    = match (RemoveCommandFromList l "attack").2 with
      | [] => None
      | l' => Some l'
      end ∧
  (∀ ks', ks' ≠ Demo.key_a →
     getBindings (IsKeyCode Demo.key_a) st' !! ks'
     = getBindings (IsKeyCode Demo.key_a) Demo.sample !! ks') ∧
  getBindings (negb (IsKeyCode Demo.key_a)) st'
    = getBindings (negb (IsKeyCode Demo.key_a)) Demo.sample ∧
  bindingsCount st' = bindingsCount Demo.sample.
Proof.
  apply (UnBind_frame Demo.sample "a" "attack" Demo.key_a).
  - vm_compute. reflexivity.
  - vm_compute. reflexivity.
Defined.

(** ** unbindaction with the command in both keyspaces *)

(** C3 fails on the code: with [attack] bound to [a] and to [sc_a],
    [UnBindAction] returns true after the key-code map alone was
    cleaned; the scan-code map still holds its binding of [attack]. *)
Lemma UnBindAction_leaves_scan_binding :
  (UnBindAction Demo.bothSpaces "attack").1 = true ∧
  codeBindings (UnBindAction Demo.bothSpaces "attack").2 = ∅ ∧
  scanBindings (UnBindAction Demo.bothSpaces "attack").2 !! Demo.scan_a
  = Some [Demo.binding "sc_a" "attack" Demo.scan_a 2].
Proof. split_and!; by vm_compute. Qed.

(** The sibling path: with the command in the scan-code map alone, that
    map is cleaned. *)
Lemma UnBindAction_scan_only :
  let st := Demo.binds [ ("sc_a", "attack") ]%string Demo.start in
  (UnBindAction st "attack").1 = true ∧
  scanBindings (UnBindAction st "attack").2 = ∅.
Proof. split; by vm_compute. Qed.

(** ** A sort for the listing *)

Lemma merge_sort_by_perm `{KeyModel CKeySet KeySyms}
    (l : list (KeyBinding (CKeySet := CKeySet))) :
  merge_sort_by compareActionByBindingOrder l ≡ₚ l.
Proof. apply merge_sort_Permutation. Qed.

Lemma merge_sort_by_sorted `{KeyModel CKeySet KeySyms}
    (l : list (KeyBinding (CKeySet := CKeySet))) :
  StronglySorted (λ a b, compareActionByBindingOrder b a = false)
                 (merge_sort_by compareActionByBindingOrder l).
Proof.
  unfold merge_sort_by. apply StronglySorted_merge_sort.
  - intros a b c. unfold compareActionByBindingOrder.
    rewrite !Z.ltb_ge. lia.
  - intros a b. unfold compareActionByBindingOrder.
    rewrite !Z.ltb_ge. lia.
Qed.

(** ** The further properties on the concrete key model *)

Lemma store_invariant_witness :
  let l := default [] (codeBindings Demo.sample !! Demo.key_a) in
  l ≠ [] ∧ IsKeyCode (KeySyms := unit) Demo.key_a = true ∧
  Forall (λ kb, last (keyChain kb) = Some Demo.key_a ∧
                bindingIndex kb ≤ bindingsCount Demo.sample) l ∧
  StronglySorted (λ a b, bindingIndex a < bindingIndex b) l ∧
  NoDup (lineOf <$> l).
Proof.
  apply (store_invariant Demo.sample true Demo.key_a _ demo_sample_counted).
  vm_compute. reflexivity.
Defined.

Lemma binding_index_unique_witness :
  true = true ∧ Demo.key_a = Demo.key_a ∧
  Demo.binding "a" "area" Demo.key_a 4 = Demo.binding "a" "area" Demo.key_a 4.
Proof.
  apply (binding_index_unique (KeySyms := unit) Demo.sample true true
           Demo.key_a Demo.key_a
           (Demo.binding "a" "area" Demo.key_a 4)
           (Demo.binding "a" "area" Demo.key_a 4) demo_sample_counted).
  - eexists. split; [vm_compute; reflexivity|]. right. left.
  - eexists. split; [vm_compute; reflexivity|]. right. left.
  - reflexivity.
Defined.

Lemma GetKeyBindingList_all_sorted_witness :
  StronglySorted (λ a b, bindingIndex a < bindingIndex b)
                 (GetKeyBindingList_all merge_sort_by Demo.sample) ∧
  NoDup (GetKeyBindingList_all merge_sort_by Demo.sample) ∧
  ∀ x, x ∈ GetKeyBindingList_all merge_sort_by Demo.sample ↔ stored Demo.sample x.
Proof.
  apply (GetKeyBindingList_all_sorted merge_sort_by merge_sort_by_perm
           merge_sort_by_sorted Demo.sample).
  exact demo_sample_counted.
Defined.

Lemma GetHotkeys_in_binding_order_witness :
  ∃ l, GetHotkeys (BuildHotkeyMap merge_sort_by Demo.sample) "attack"
       = boundWith <$> l ∧
       StronglySorted (λ a b, bindingIndex a < bindingIndex b) l ∧
       ∀ x, x ∈ l ↔ stored Demo.sample x ∧ hotkeyName x = "attack"%string.
Proof.
  apply (GetHotkeys_in_binding_order merge_sort_by merge_sort_by_perm
           merge_sort_by_sorted Demo.sample "attack").
  exact demo_sample_counted.
Defined.

Lemma merge_lines_witness :
  ∃ merged : list KeyBinding,
    MergeActionListsByTrigger Demo.listA Demo.listB [] = [] ++ merged ∧
    (∀ x, x ∈ merged → x ∈ Demo.listA ∨ x ∈ Demo.listB) ∧
    NoDup (lineOf <$> merged) ∧
    (∀ x, x ∈ Demo.listA ∨ x ∈ Demo.listB →
          ∃ y, y ∈ merged ∧ lineOf y = lineOf x ∧
               bindingIndex y ≤ bindingIndex x) ∧
    StronglySorted (λ x y, bindingIndex x ≤ bindingIndex y) merged.
Proof.
  apply (merge_lines (KeySyms := unit) Demo.listA Demo.listB [] false).
  - apply (bool_decide_unpack _). by vm_compute.
  - apply (bool_decide_unpack _). by vm_compute.
  - apply (bool_decide_unpack _). by vm_compute.
  - apply (bool_decide_unpack _). by vm_compute.
  - apply (bool_decide_unpack _). by vm_compute.
Defined.

Lemma GetKeyBindingList_chain_order_witness :
  ([Demo.key_a] = [] → GetKeyBindingList_chain Demo.sample [Demo.key_a] = []) ∧
  ∀ i j a b,
    GetKeyBindingList_chain Demo.sample [Demo.key_a] !! i = Some a →
    GetKeyBindingList_chain Demo.sample [Demo.key_a] !! j = Some b →
    (triggerAnyMod a = false → triggerAnyMod b = true → (i < j)%nat) ∧
    (triggerAnyMod a = triggerAnyMod b →
     bindingIndex a < bindingIndex b → (i < j)%nat).
Proof.
  apply (GetKeyBindingList_chain_order demo_AnyMod_SetAnyBit Demo.sample
           [Demo.key_a]).
  exact demo_sample_counted.
Defined.

Lemma GetKeyBindingList_chains_invalid_scan_witness :
  GetKeyBindingList_chains Demo.sample [Demo.key_a] [(-1, 0, false)]
  = Some (GetKeyBindingList_chain Demo.sample [Demo.key_a]).
Proof.
  apply (GetKeyBindingList_chains_invalid_scan Demo.sample
           [Demo.key_a] [(-1, 0, false)] Demo.key_a (-1, 0, false)).
  - reflexivity.
  - reflexivity.
  - vm_compute. reflexivity.
  - vm_compute. reflexivity.
Defined.

Lemma resolution_candidates_witness :
  let r := default [] (GetKeyBindingList_chains Demo.sample
                         [Demo.key_a] [Demo.scan_a]) in
  (∀ x, x ∈ r → candidate Demo.sample [Demo.key_a] [Demo.scan_a] x) ∧
  (∀ x, candidate Demo.sample [Demo.key_a] [Demo.scan_a] x →
        ∃ y, y ∈ r ∧ lineOf y = lineOf x ∧ bindingIndex y ≤ bindingIndex x).
Proof.
  apply (resolution_candidates Demo.sample [Demo.key_a] [Demo.scan_a] _
           demo_sample_reachable).
  vm_compute. reflexivity.
Defined.

Lemma ParseSingleChain_tokens_witness :
  ParseSingleChain (CKeySet := Demo.KS) () (list_ascii_of_string "a,Shift+b")
  = mapM (λ t, Parse () (c_str t))
         (splitCommas (list_ascii_of_string "a,Shift+b")) ∧
  (NUL ∉ list_ascii_of_string "a,Shift+b" →
   ParseSingleChain (CKeySet := Demo.KS) () (list_ascii_of_string "a,Shift+b")
   = mapM (Parse ()) (splitCommas (list_ascii_of_string "a,Shift+b"))).
Proof.
  apply (ParseSingleChain_tokens (CKeySet := Demo.KS) ()
           (list_ascii_of_string "a,Shift+b")).
  apply (bool_decide_unpack _). by vm_compute.
Defined.

Lemma ParseSingleChain_long_token_witness :
  ParseSingleChain (CKeySet := Demo.KS) ()
    (replicate 255 "0"%char ++ "1"%char :: list_ascii_of_string ",a")
  = (λ ks, [ks]) <$> Parse () (c_str (replicate 255 "0"%char)).
Proof.
  apply (ParseSingleChain_long_token (CKeySet := Demo.KS) ()
           (replicate 255 "0"%char) "1"%char (list_ascii_of_string ",a")).
  - apply (bool_decide_unpack _). by vm_compute.
  - vm_compute. reflexivity.
  - discriminate.
Defined.

Lemma Bind_UnBind_fresh_witness :
  UnBind (Bind Demo.sample "m" "move").2 "m" (command (parseAction "move"))
  = (true, setBindings (IsKeyCode Demo.key_m)
             (getBindings (IsKeyCode Demo.key_m) Demo.sample)
             (to_int (bindingsCount Demo.sample + 1)) Demo.sample) ∧
  (INT_MIN ≤ bindingsCount Demo.sample < INT_MAX →
   to_int (bindingsCount Demo.sample + 1) = bindingsCount Demo.sample + 1).
Proof.
  apply (Bind_UnBind_fresh Demo.sample "m" "move" [Demo.key_m] Demo.key_m).
  - vm_compute. reflexivity.
  - reflexivity.
  - vm_compute. reflexivity.
  - vm_compute. discriminate.
  - apply (bool_decide_unpack _). vm_compute. exact I.
  - vm_compute. reflexivity.
Defined.

Lemma UnBind_after_stateful_Bind_witness :
  UnBind (Bind Demo.sample "w" "moveforward").2 "w"
         (command (parseAction "moveforward"))
  = (false, (Bind Demo.sample "w" "moveforward").2) ∧
  is_Some (getBindings (IsKeyCode (SetAnyBit (KeySyms := unit) (119, 0, true)))
             (Bind Demo.sample "w" "moveforward").2
             !! SetAnyBit (KeySyms := unit) (119, 0, true)).
Proof.
  apply (UnBind_after_stateful_Bind Demo.sample "w" "moveforward"
           [(119, 0, true)] (119, 0, true) (119, 0, true)).
  - vm_compute. reflexivity.
  - reflexivity.
  - vm_compute. reflexivity.
  - vm_compute. discriminate.
  - apply (bool_decide_unpack _). vm_compute. exact I.
  - vm_compute. discriminate.
  - vm_compute. reflexivity.
Defined.

Lemma keyreload_clear_empty_witness :
  keyreload_clear Demo.sample
  = (true, mkState ∅ ∅ 1 (statefulCommands Demo.sample)
                   (ResetSyms (keySyms Demo.sample))).
Proof.
  apply (keyreload_clear_empty Demo.sample Demo.enter).
  - vm_compute. reflexivity.
  - vm_compute. reflexivity.
  - apply (bool_decide_unpack _). vm_compute. exact I.
Defined.

Lemma UnBindKeyset_lookup_witness :
  let st' := (UnBindKeyset Demo.sample "a").2 in
  (UnBindKeyset Demo.sample "a").1
  = bool_decide (is_Some (getBindings (IsKeyCode Demo.key_a) Demo.sample
                            !! Demo.key_a)) ∧
  GetKeyBindingList_ks st' Demo.key_a false = [] ∧
  ∀ ks' (forceAny : bool),
    (if forceAny then SetAnyBit (KeySyms := unit) ks' else ks') ≠ Demo.key_a →
    GetKeyBindingList_ks st' ks' forceAny
    = GetKeyBindingList_ks Demo.sample ks' forceAny.
Proof.
  apply (UnBindKeyset_lookup Demo.sample "a" Demo.key_a).
  vm_compute. reflexivity.
Defined.

(** ** The vector helpers on vectors of integers *)

Lemma VectorErase_spec_witness :
  (spring.VectorErase [3; 1; 2; 5] 1).1 = bool_decide (1 ∈ [3; 1; 2; 5]) ∧
  NoDup (spring.VectorErase [3; 1; 2; 5] 1).2 ∧
  ∀ x, x ∈ (spring.VectorErase [3; 1; 2; 5] 1).2 ↔ x ∈ [3; 1; 2; 5] ∧ x ≠ 1.
Proof.
  apply (VectorErase_spec [3; 1; 2; 5] 1).
  apply (bool_decide_unpack _). by vm_compute.
Defined.

Lemma VectorInsertUnique_spec_witness :
  match spring.VectorInsertUnique [3; 1] 2 true with
  | Some (r, v') =>
      r = bool_decide (2 ∉ [3; 1]) ∧
      v' = (if r then [3; 1] ++ [2] else [3; 1]) ∧ NoDup v'
  | None => true = false ∧ 2 ∈ [3; 1]
  end.
Proof.
  apply (VectorInsertUnique_spec [3; 1] 2 true).
  apply (bool_decide_unpack _). by vm_compute.
Defined.

Lemma Zlt_between (a b c : Z) :
  (a <? b) = true → (a <? c) = true ∨ (c <? b) = true.
Proof. rewrite !Z.ltb_lt. lia. Qed.

Lemma Zlt_asym (a b : Z) : (a <? b) = true → (b <? a) = false.
Proof. rewrite Z.ltb_lt, Z.ltb_ge. lia. Qed.

Lemma Zlt_trans (a b c : Z) :
  (a <? b) = true → (b <? c) = true → (a <? c) = true.
Proof. rewrite !Z.ltb_lt. lia. Qed.

Lemma Zlt_total (a b : Z) : (a <? b) = false → (b <? a) = false → a = b.
Proof. rewrite !Z.ltb_ge. lia. Qed.

Lemma BinarySearch_spec_witness :
  match spring.BinarySearch [1; 3; 3; 7] 3 Z.ltb with
  | Some i =>
      ∃ x, [1; 3; 3; 7] !! i = Some x ∧ (x <? 3) = false ∧ (3 <? x) = false ∧
           ∀ j y, [1; 3; 3; 7] !! j = Some y → (j < i)%nat → (y <? 3) = true
  | None => ∀ x, x ∈ [1; 3; 3; 7] → (x <? 3) = true ∨ (3 <? x) = true
  end.
Proof.
  apply (BinarySearch_spec Z.ltb Zlt_between [1; 3; 3; 7] 3).
  apply (bool_decide_unpack _). by vm_compute.
Defined.

Lemma VectorInsertSorted_spec_witness :
  let '(pos, vec') := spring.VectorInsertSorted [1; 3; 3; 7] 3 Z.ltb in
  StronglySorted (λ a b, (b <? a) = false) vec' ∧
  vec' !! pos = Some 3 ∧ delete pos vec' = [1; 3; 3; 7] ∧
  (∀ j y, [1; 3; 3; 7] !! j = Some y → (j < pos)%nat → (3 <? y) = false) ∧
  (∀ j y, [1; 3; 3; 7] !! j = Some y → (pos ≤ j)%nat → (3 <? y) = true).
Proof.
  apply (VectorInsertSorted_spec Z.ltb Zlt_asym Zlt_between [1; 3; 3; 7] 3).
  apply (bool_decide_unpack _). by vm_compute.
Defined.

Lemma VectorEraseUniqueSorted_spec_witness :
  spring.VectorEraseUniqueSorted [1; 3; 7] 3 Z.ltb
  = (bool_decide (3 ∈ [1; 3; 7]), filter (λ x, x ≠ 3) [1; 3; 7]) ∧
  StronglySorted (λ a b, (a <? b) = true)
                 (spring.VectorEraseUniqueSorted [1; 3; 7] 3 Z.ltb).2.
Proof.
  apply (VectorEraseUniqueSorted_spec Z.ltb Z.ltb_irrefl Zlt_trans [1; 3; 7] 3).
  apply (bool_decide_unpack _). by vm_compute.
Defined.

Lemma VectorInsertUniqueSorted_spec_witness :
  let '(r, v') := spring.VectorInsertUniqueSorted [1; 3; 7] 5 Z.ltb in
  r = bool_decide (5 ∉ [1; 3; 7]) ∧
  StronglySorted (λ a b, (a <? b) = true) v' ∧
  (∀ x, x ∈ v' ↔ x = 5 ∨ x ∈ [1; 3; 7]) ∧
  (5 ∈ [1; 3; 7] → v' = [1; 3; 7]) ∧
  (5 ∉ [1; 3; 7] → spring.VectorEraseUniqueSorted v' 5 Z.ltb = (true, [1; 3; 7])).
Proof.
  apply (VectorInsertUniqueSorted_spec Z.ltb Z.ltb_irrefl Zlt_trans Zlt_total
           [1; 3; 7] 5).
  apply (bool_decide_unpack _). by vm_compute.
Defined.
